(** * oshu!: the game clock, the hit cursor and the event dispatch

    A shallow embedding of [src/game/game.c] (and of [check_end] of
    [src/game/screens/play.c]) together with the properties the
    specification states about them.

    Conventions of the embedding.
    - A C [double] holding a time in seconds is an exact rational ([Q]);
      the comparisons [<], [>] and [==] of the source are the boolean
      comparisons of [Q].  Not-a-number and infinities are outside the model.
    - The doubly linked list of hits is an arena: the list of its nodes in
      [next] order.  A pointer to a node is its index; [previous] of index
      [0] and [next] of the last index are [NULL].  Dereferencing [NULL] has
      no result ([None]).
    - The bit mask [game->state] is a [Z] handled with [Z.land], [Z.lor]
      and [Z.lnot].
    - Calls to the audio module, to the terminal and to the callbacks of the
      game mode are recorded, in order, in a list of [effect]s. *)

From Stdlib Require Import ZArith QArith Qround Lia Lqa Bool Sorted Ascii.
From stdpp Require Import base list relations strings.

Local Open Scope Z_scope.

(** ** Rational comparisons as the source writes them *)

Definition Qltb (a b : Q) : bool := negb (Qle_bool b a).
Definition Qgtb (a b : Q) : bool := Qltb b a.

(** ** Beatmap data *)

Inductive oshu_hit_state :=
  | OSHU_INITIAL_HIT
  | OSHU_SLIDING_HIT
  | OSHU_GOOD_HIT
  | OSHU_MISSED_HIT
  | OSHU_SKIPPED_HIT.

(** Modelled from the spec: the declaration of [struct oshu_hit] and its
    type tags (beatmap/beatmap.h) are not part of the sources at hand.  A hit
    is a circle, a slider carrying its duration, or a non-interactive marker;
    the head and tail sentinels of the list are markers. *)
Inductive oshu_hit_type :=
  | OSHU_CIRCLE_HIT
  | OSHU_SLIDER_HIT (duration : Q)
  | OSHU_MARKER_HIT.

Record oshu_hit := Hit {
  time : Q;
  type : oshu_hit_type;
  state : oshu_hit_state
}.

(** Modelled from the spec: [oshu_hit_end_time] (beatmap module) is not part
    of the sources at hand; "time plus duration for extended objects, else
    equal to time". *)
Definition oshu_hit_end_time (h : oshu_hit) : Q :=
  match type h with
  | OSHU_SLIDER_HIT d => (time h + d)%Q
  | _ => time h
  end.

Definition set_hit_state (s : oshu_hit_state) (h : oshu_hit) : oshu_hit :=
  {| time := time h; type := type h; state := s |}.

Record oshu_difficulty := Difficulty {
  leniency : Q;
  approach_time : Q
}.

Record oshu_beatmap := Beatmap {
  hits : list oshu_hit;
  difficulty : oshu_difficulty
}.

(** ** Audio and clock *)

Record oshu_stream := Stream {
  current_timestamp : Q
}.

Record oshu_audio := Audio {
  music : oshu_stream
}.

Record oshu_clock := Clock {
  now : Q;
  before : Q;
  system : Q;
  audio_clock : Q   (* the field [audio] of [struct oshu_clock] *)
}.

(** ** Game state flags

    Modelled from the spec: [enum oshu_game_state] (game/game.h) is not part
    of the sources at hand.  The flags are "orthogonal": each one is a bit of
    its own. *)
Definition OSHU_USERPLAY : Z := Z.shiftl 1 0.
Definition OSHU_AUTOPLAY : Z := Z.shiftl 1 1.
Definition OSHU_PLAYING  : Z := Z.shiftl 1 2.
Definition OSHU_PAUSED   : Z := Z.shiftl 1 3.
Definition OSHU_FINISHED : Z := Z.shiftl 1 4.
Definition OSHU_STOPPING : Z := Z.shiftl 1 5.

(** [s & f] in a condition. *)
Definition has_flag (s f : Z) : bool := negb (Z.land s f =? 0).
(** [s |= f] and [s &= ~f]. *)
Definition set_flag (s f : Z) : Z := Z.lor s f.
Definition clear_flag (s f : Z) : Z := Z.land s (Z.lnot f).

Record oshu_game := Game {
  beatmap : oshu_beatmap;
  audio : oshu_audio;
  clock : oshu_clock;
  game_state : Z;         (* the field [state] of [struct oshu_game] *)
  hit_cursor : nat
}.

Definition with_clock (c : oshu_clock) (g : oshu_game) : oshu_game :=
  {| beatmap := beatmap g; audio := audio g; clock := c;
     game_state := game_state g; hit_cursor := hit_cursor g |}.

Definition with_state (s : Z) (g : oshu_game) : oshu_game :=
  {| beatmap := beatmap g; audio := audio g; clock := clock g;
     game_state := s; hit_cursor := hit_cursor g |}.

Definition with_timestamp (t : Q) (g : oshu_game) : oshu_game :=
  {| beatmap := beatmap g; audio := Audio (Stream t); clock := clock g;
     game_state := game_state g; hit_cursor := hit_cursor g |}.

Definition with_hits (hs : list oshu_hit) (i : nat) (g : oshu_game) : oshu_game :=
  {| beatmap := Beatmap hs (difficulty (beatmap g)); audio := audio g;
     clock := clock g; game_state := game_state g; hit_cursor := i |}.

Definition with_now (t : Q) (c : oshu_clock) : oshu_clock :=
  {| now := t; before := before c; system := system c;
     audio_clock := audio_clock c |}.

(** ** [update_clock]

    [ticks] is what [SDL_GetTicks()] returns, in milliseconds. *)

(** Lines 334-348: sample both sources and pick the new [now]. *)
Definition sample_clock (ticks : Z) (g : oshu_game) : oshu_clock :=
  let c := clock g in
  let system' := (inject_Z ticks / 1000)%Q in
  let diff := (system' - system c)%Q in
  let prev_audio := audio_clock c in
  let c := {| now := now c;
              before := now c;
              system := system';
              audio_clock := current_timestamp (music (audio g)) |} in
  if negb (has_flag (game_state g) OSHU_PLAYING) then
    c (* don't update the clock *)
  else if Qltb (before c) 0 then (* leading in *)
    with_now (before c + diff)%Q c
  else if Qeq_bool (audio_clock c) prev_audio then (* audio clock stuck *)
    with_now (before c + diff)%Q c
  else
    with_now (audio_clock c) c.

(** Lines 349-351: force monotonicity. *)
Definition force_monotonicity (c : oshu_clock) : oshu_clock :=
  if Qltb (now c) (before c) then with_now (before c) c else c.

Definition update_clock (ticks : Z) (g : oshu_game) : oshu_game :=
  with_clock (force_monotonicity (sample_clock ticks g)) g.

(** ** Pointers into the hit list *)

(** [hit->previous] and [hit->next]; [None] is [NULL]. *)
Definition previous_hit (i : nat) : option nat :=
  match i with O => None | S j => Some j end.

Definition next_hit (hs : list oshu_hit) (i : nat) : option nat :=
  if decide (S i < length hs)%nat then Some (S i) else None.

(** ** Effects and procedures *)

Inductive oshu_key :=
  | OSHU_UNKNOWN_KEY
  | OSHU_LEFT_PINKY | OSHU_LEFT_RING | OSHU_LEFT_MIDDLE | OSHU_LEFT_INDEX
  | OSHU_THUMBS
  | OSHU_RIGHT_INDEX | OSHU_RIGHT_MIDDLE | OSHU_RIGHT_RING | OSHU_RIGHT_PINKY
  | OSHU_LEFT_BUTTON.

(** What a procedure does to the world outside [struct oshu_game]. *)
Inductive effect :=
  | PauseAudio                  (* oshu_pause_audio *)
  | PlayAudio                   (* oshu_play_audio *)
  | SeekMusic (target : Q)      (* oshu_seek_music *)
  | DumpState                   (* dump_state *)
  | PrintScore                  (* end *)
  | Relinquish                  (* game->mode->relinquish *)
  | Press (key : oshu_key)      (* game->mode->press *)
  | Release (key : oshu_key).   (* game->mode->release *)

(** A [void f(struct oshu_game *game)]: the game it leaves and the effects it
    had, or nothing when it dereferences [NULL]. *)
Definition proc : Type := oshu_game -> option (oshu_game * list effect).

Definition skip : proc := fun g => Some (g, []).
Definition emit (e : effect) : proc := fun g => Some (g, [e]).
Definition modify (f : oshu_game -> oshu_game) : proc := fun g => Some (f g, []).
Definition andthen (p q : proc) : proc := fun g =>
  match p g with
  | None => None
  | Some (g1, t1) =>
      match q g1 with
      | None => None
      | Some (g2, t2) => Some (g2, t1 ++ t2)
      end
  end.
Definition when (c : oshu_game -> bool) (p : proc) : proc := fun g =>
  if c g then p g else skip g.

Declare Scope proc_scope.
Delimit Scope proc_scope with proc.
Bind Scope proc_scope with proc.
Notation "p ;; q" := (andthen p q) (at level 100, q at level 200, right associativity) : proc_scope.

(** The callbacks of [struct oshu_game_mode] that game.c calls.  Their
    return codes are ignored by the callers modelled here. *)
Record oshu_game_mode := Mode {
  press : oshu_key -> oshu_game -> oshu_game;
  release : oshu_key -> oshu_game -> oshu_game;
  relinquish : oshu_game -> oshu_game
}.

(** ** SDL events *)

Inductive SDL_Scancode :=
  | SDL_SCANCODE_Z | SDL_SCANCODE_X | SDL_SCANCODE_C | SDL_SCANCODE_V
  | SDL_SCANCODE_A | SDL_SCANCODE_S | SDL_SCANCODE_D | SDL_SCANCODE_F
  | SDL_SCANCODE_SPACE
  | SDL_SCANCODE_J | SDL_SCANCODE_K | SDL_SCANCODE_L | SDL_SCANCODE_SEMICOLON
  | SDL_SCANCODE_Q | SDL_SCANCODE_ESCAPE
  | SDL_SCANCODE_PAGEUP | SDL_SCANCODE_PAGEDOWN
  | SDL_SCANCODE_OTHER.

Inductive SDL_Keycode :=
  | SDLK_q | SDLK_ESCAPE | SDLK_PAGEUP | SDLK_PAGEDOWN | SDLK_OTHER.

Record SDL_Keysym := Keysym {
  scancode : SDL_Scancode;
  sym : SDL_Keycode
}.

Inductive SDL_WindowEventID :=
  | SDL_WINDOWEVENT_MINIMIZED
  | SDL_WINDOWEVENT_FOCUS_LOST
  | SDL_WINDOWEVENT_CLOSE
  | SDL_WINDOWEVENT_OTHER.

(** [union SDL_Event], by [event->type]. *)
Inductive SDL_Event :=
  | SDL_KEYDOWN (repeat : bool) (keysym : SDL_Keysym)
  | SDL_KEYUP (repeat : bool) (keysym : SDL_Keysym)
  | SDL_MOUSEBUTTONDOWN
  | SDL_MOUSEBUTTONUP
  | SDL_WINDOWEVENT (event : SDL_WindowEventID)
  | SDL_OTHEREVENT.

Definition translate_key (keysym : SDL_Keysym) : oshu_key :=
  match scancode keysym with
  (* Bottom row, for standard and taiko modes. *)
  | SDL_SCANCODE_Z => OSHU_LEFT_MIDDLE
  | SDL_SCANCODE_X => OSHU_LEFT_INDEX
  | SDL_SCANCODE_C => OSHU_RIGHT_INDEX
  | SDL_SCANCODE_V => OSHU_RIGHT_MIDDLE
  (* Middle row, for mania. *)
  | SDL_SCANCODE_A => OSHU_LEFT_PINKY
  | SDL_SCANCODE_S => OSHU_LEFT_RING
  | SDL_SCANCODE_D => OSHU_LEFT_MIDDLE
  | SDL_SCANCODE_F => OSHU_LEFT_INDEX
  | SDL_SCANCODE_SPACE => OSHU_THUMBS
  | SDL_SCANCODE_J => OSHU_RIGHT_INDEX
  | SDL_SCANCODE_K => OSHU_RIGHT_MIDDLE
  | SDL_SCANCODE_L => OSHU_RIGHT_RING
  | SDL_SCANCODE_SEMICOLON => OSHU_RIGHT_PINKY
  | _ => OSHU_UNKNOWN_KEY
  end.

(** ** The loops over the hit list *)

(** The loop of [rewind_music] (lines 133-136), at cursor [i]. *)
Fixpoint rewind_walk (now : Q) (hs : list oshu_hit) (i : nat)
    : option (list oshu_hit * nat) :=
  match hs !! i with
  | None => None
  | Some h =>
      if Qgtb (time h) (now + 1) then
        let hs' := <[i := set_hit_state OSHU_INITIAL_HIT h]> hs in
        match i with
        | O => None (* the cursor became NULL and is tested next *)
        | S j => rewind_walk now hs' j
        end
      else Some (hs, i)
  end.

(** The loop of [forward_music] (lines 151-154), at cursor [i]; [left] is the
    number of nodes from the cursor to the end of the list: at [0] the cursor
    is [NULL]. *)
Fixpoint forward_walk (now : Q) (hs : list oshu_hit) (i left : nat)
    : option (list oshu_hit * nat) :=
  match left, hs !! i with
  | S left', Some h =>
      if Qltb (time h) (now + 1) then
        forward_walk now (<[i := set_hit_state OSHU_SKIPPED_HIT h]> hs) (S i) left'
      else Some (hs, i)
  | _, _ => None
  end.

(** [while (cond(hit)) hit = hit->previous;] *)
Fixpoint seek_backward (cond : oshu_hit -> bool) (hs : list oshu_hit) (i : nat)
    : option nat :=
  match hs !! i with
  | None => None
  | Some h =>
      if cond h then
        match i with
        | O => None
        | S j => seek_backward cond hs j
        end
      else Some i
  end.

(** [while (cond(hit)) hit = hit->next;] with [left] as in [forward_walk]. *)
Fixpoint seek_forward (cond : oshu_hit -> bool) (hs : list oshu_hit) (i left : nat)
    : option nat :=
  match left, hs !! i with
  | S left', Some h =>
      if cond h then seek_forward cond hs (S i) left' else Some i
  | _, _ => None
  end.

Definition oshu_look_hit_back (g : oshu_game) (offset : Q) : option nat :=
  let hs := hits (beatmap g) in
  let target := (now (clock g) - offset)%Q in
  (* seek backward *)
  match seek_backward (fun h => Qgtb (oshu_hit_end_time h) target) hs (hit_cursor g) with
  | None => None
  | Some hit =>
      (* seek forward *)
      seek_forward (fun h => Qltb (oshu_hit_end_time h) target) hs hit (length hs - hit)
  end.

Definition oshu_look_hit_up (g : oshu_game) (offset : Q) : option nat :=
  let hs := hits (beatmap g) in
  let target := (now (clock g) + offset)%Q in
  (* seek forward *)
  match seek_forward (fun h => Qltb (time h) target) hs (hit_cursor g)
          (length hs - hit_cursor g) with
  | None => None
  | Some hit =>
      (* seek backward *)
      seek_backward (fun h => Qgtb (time h) target) hs hit
  end.

(** ** The procedures of game.c *)

Section Game.

(** The game mode in use, and the stream module's seek: where the stream
    lands when asked for [target] (stream.c is not part of the sources at
    hand). *)
Variable mode : oshu_game_mode.
Variable seek_stream : oshu_stream -> Q -> oshu_stream.

Local Open Scope proc_scope.

Definition dump_state : proc := emit DumpState.

Definition oshu_pause_audio : proc := emit PauseAudio.
Definition oshu_play_audio : proc := emit PlayAudio.

Definition oshu_seek_music (target : Q) : proc := fun g =>
  Some (with_timestamp (current_timestamp (seek_stream (music (audio g)) target)) g,
        [SeekMusic target]).

Definition pause_game : proc :=
  oshu_pause_audio ;;
  modify (fun g => with_state (set_flag (game_state g) OSHU_PAUSED) g) ;;
  modify (fun g => with_state (clear_flag (game_state g) OSHU_PLAYING) g) ;;
  dump_state.

(** [game->clock.now = game->audio.music.current_timestamp;] *)
Definition reset_now (g : oshu_game) : oshu_game :=
  with_clock (with_now (current_timestamp (music (audio g))) (clock g)) g.

Definition mode_relinquish : proc := fun g => Some (relinquish mode g, [Relinquish]).
Definition mode_press (k : oshu_key) : proc := fun g => Some (press mode k g, [Press k]).
Definition mode_release (k : oshu_key) : proc := fun g => Some (release mode k g, [Release k]).

Definition rewind_loop : proc := fun g =>
  match rewind_walk (now (clock g)) (hits (beatmap g)) (hit_cursor g) with
  | None => None
  | Some (hs, i) => Some (with_hits hs i g, [])
  end.

Definition forward_loop : proc := fun g =>
  let hs := hits (beatmap g) in
  match forward_walk (now (clock g)) hs (hit_cursor g) (length hs - hit_cursor g) with
  | None => None
  | Some (hs', i) => Some (with_hits hs' i g, [])
  end.

Definition rewind_music (offset : Q) : proc :=
  (fun g => oshu_seek_music (current_timestamp (music (audio g)) - offset)%Q g) ;;
  modify reset_now ;;
  mode_relinquish ;;
  dump_state ;;
  rewind_loop.

Definition forward_music (offset : Q) : proc :=
  (fun g => oshu_seek_music (current_timestamp (music (audio g)) + offset)%Q g) ;;
  modify reset_now ;;
  mode_relinquish ;;
  when (fun g => negb (has_flag (game_state g) OSHU_PAUSED)) oshu_play_audio ;;
  dump_state ;;
  forward_loop.

Definition unpause_game : proc :=
  when (fun g => Qle_bool 0 (now (clock g)))
    (when (fun g => negb (has_flag (game_state g) OSHU_AUTOPLAY)) (rewind_music 1) ;;
     oshu_play_audio) ;;
  modify (fun g => with_state (clear_flag (game_state g) OSHU_PAUSED) g) ;;
  modify (fun g => with_state (set_flag (game_state g) OSHU_PLAYING) g).

Definition stopping : proc :=
  modify (fun g => with_state (set_flag (game_state g) OSHU_STOPPING) g).

(** [(game->state & OSHU_USERPLAY) && (game->state & OSHU_PLAYING)] *)
Definition user_playing (g : oshu_game) : bool :=
  has_flag (game_state g) OSHU_USERPLAY && has_flag (game_state g) OSHU_PLAYING.

(** [game->hit_cursor->next] in a condition; the cursor is dereferenced. *)
Definition cursor_has_next (g : oshu_game) : option bool :=
  match hits (beatmap g) !! hit_cursor g with
  | None => None
  | Some _ => Some (bool_decide (is_Some (next_hit (hits (beatmap g)) (hit_cursor g))))
  end.

Definition handle_event (event : SDL_Event) : proc := fun g =>
  match event with
  | SDL_KEYDOWN repeat keysym =>
      if repeat then skip g
      else if has_flag (game_state g) (Z.lor OSHU_AUTOPLAY OSHU_PAUSED) then
        match sym keysym with
        | SDLK_q => stopping g
        | SDLK_ESCAPE => unpause_game g
        | SDLK_PAGEUP => rewind_music 10 g
        | SDLK_PAGEDOWN => forward_music 20 g
        | _ => skip g
        end
      else if user_playing g then
        match sym keysym with
        | SDLK_ESCAPE => pause_game g
        | SDLK_PAGEUP => rewind_music 10 g
        | SDLK_PAGEDOWN => forward_music 20 g
        | _ =>
            let key := translate_key keysym in
            match key with
            | OSHU_UNKNOWN_KEY => skip g
            | _ => mode_press key g
            end
        end
      else
        (* probably the end screen, OSHU_FINISHED *)
        match sym keysym with
        | SDLK_q => stopping g
        | _ => skip g
        end
  | SDL_KEYUP _ keysym =>
      if user_playing g then
        let key := translate_key keysym in
        match key with
        | OSHU_UNKNOWN_KEY => skip g
        | _ => mode_release key g
        end
      else skip g
  | SDL_MOUSEBUTTONDOWN =>
      if user_playing g then mode_press OSHU_LEFT_BUTTON g else skip g
  | SDL_MOUSEBUTTONUP =>
      if user_playing g then mode_release OSHU_LEFT_BUTTON g else skip g
  | SDL_WINDOWEVENT ev =>
      match ev with
      | SDL_WINDOWEVENT_MINIMIZED
      | SDL_WINDOWEVENT_FOCUS_LOST =>
          if user_playing g then
            match cursor_has_next g with
            | None => None
            | Some true => pause_game g
            | Some false => skip g
            end
          else skip g
      | SDL_WINDOWEVENT_CLOSE => stopping g
      | SDL_WINDOWEVENT_OTHER => skip g
      end
  | SDL_OTHEREVENT => skip g
  end.

(** [end] prints the score. *)
Definition end_game : proc := emit PrintScore.

Definition check_end : proc := fun g =>
  if has_flag (game_state g) OSHU_FINISHED then skip g
  else
    match cursor_has_next g with
    | None => None
    | Some true => skip g
    | Some false =>
        match previous_hit (hit_cursor g) ≫= (hits (beatmap g) !!.) with
        | None => None
        | Some last =>
            if Qgtb (now (clock g))
                    (oshu_hit_end_time last + leniency (difficulty (beatmap g)))
            then (modify (with_state (Z.lor OSHU_FINISHED OSHU_PLAYING)) ;; end_game) g
            else skip g
        end
    end.

End Game.

(** ** [check_end] of game/screens/play.c *)

Module PlayScreen.

Inductive oshu_game_screen :=
  | oshu_play_screen
  | oshu_pause_screen
  | oshu_score_screen.

Inductive effect :=
  | ResetView       (* oshu_reset_view *)
  | PaintScore      (* oshu_paint_score *)
  | Congratulate.   (* oshu_congratulate *)

(** The fields of this version's [struct oshu_game] that [check_end] uses:
    the beatmap, the clock and the cursor, and the current screen. *)
Record game := PlayGame {
  base : oshu_game;
  screen : oshu_game_screen
}.

Definition check_end (g : game) : option (game * list effect) :=
  let hs := hits (beatmap (base g)) in
  match hs !! hit_cursor (base g) with
  | None => None
  | Some _ =>
      match next_hit hs (hit_cursor (base g)) with
      | Some _ => Some (g, [])
      | None =>
          let delay := (leniency (difficulty (beatmap (base g)))
                        + approach_time (difficulty (beatmap (base g))))%Q in
          match previous_hit (hit_cursor (base g)) ≫= (hs !!.) with
          | None => None
          | Some last =>
              if Qgtb (now (clock (base g))) (oshu_hit_end_time last + delay)
              then Some ({| base := base g; screen := oshu_score_screen |},
                         [ResetView; PaintScore; Congratulate])
              else Some (g, [])
          end
      end
  end.

End PlayScreen.

(** ** Vocabulary of the statements *)

(** Both flags of a pair are set. *)
Definition both_set (s f1 f2 : Z) : bool := has_flag s f1 && has_flag s f2.

(** One frame of clock input: the value of [SDL_GetTicks()], the position the
    audio thread last published, and the state flags at that time. *)
Record clock_sample := Sample {
  sample_ticks : Z;
  sample_position : Q;
  sample_state : Z
}.

(** The values [clock.now] takes over successive calls of [update_clock]. *)
Fixpoint clock_run (g : oshu_game) (samples : list clock_sample) : list Q :=
  match samples with
  | [] => []
  | s :: rest =>
      let g' := update_clock (sample_ticks s)
                  (with_state (sample_state s) (with_timestamp (sample_position s) g)) in
      now (clock g') :: clock_run g' rest
  end.

(** [key] is strictly increasing, resp. non-decreasing, along the list. *)
Fixpoint increasing (key : oshu_hit -> Q) (hs : list oshu_hit) : bool :=
  match hs with
  | h1 :: ((h2 :: _) as rest) => Qltb (key h1) (key h2) && increasing key rest
  | _ => true
  end.

Fixpoint sorted (key : oshu_hit -> Q) (hs : list oshu_hit) : bool :=
  match hs with
  | h1 :: ((h2 :: _) as rest) => Qle_bool (key h1) (key h2) && sorted key rest
  | _ => true
  end.

(** Node [r] is the first of the list whose [key] is at least [t]. *)
Definition first_at_least (key : oshu_hit -> Q) (t : Q) (hs : list oshu_hit) (r : nat) : Prop :=
  (exists h, hs !! r = Some h /\ (t <= key h)%Q) /\
  (forall k h, (k < r)%nat -> hs !! k = Some h -> (key h < t)%Q).

(** Node [r] is the last of the list whose [key] is at most [t]. *)
Definition last_at_most (key : oshu_hit -> Q) (t : Q) (hs : list oshu_hit) (r : nat) : Prop :=
  (exists h, hs !! r = Some h /\ (key h <= t)%Q) /\
  (forall k h, (r < k)%nat -> hs !! k = Some h -> (t < key h)%Q).

(** A mode callback that leaves the cursor, the clock, the audio position and
    the schedule of the hits alone; it may change the state of hits. *)
Definition keeps_schedule (f : oshu_game -> oshu_game) : Prop :=
  forall g,
    hit_cursor (f g) = hit_cursor g /\
    clock (f g) = clock g /\
    audio (f g) = audio g /\
    time <$> hits (beatmap (f g)) = time <$> hits (beatmap g).

(** The game is not paused and playing at once. *)
Definition exclusive (g : oshu_game) : Prop :=
  both_set (game_state g) OSHU_PAUSED OSHU_PLAYING = false.

(** A mode callback that leaves [game->state] alone. *)
Definition keeps_state (f : oshu_game -> oshu_game) : Prop :=
  forall g, game_state (f g) = game_state g.

(** The stream lands exactly where it is asked to. *)
Definition exact_seek (seek_stream : oshu_stream -> Q -> oshu_stream) : Prop :=
  forall s t, current_timestamp (seek_stream s t) = t.

(** A call of [press] or [release] among the effects of a procedure. *)
Definition is_input (e : effect) : bool :=
  match e with
  | Press _ | Release _ => true
  | _ => false
  end.

Definition dispatched (r : option (oshu_game * list effect)) : bool :=
  match r with
  | Some (_, tr) => existsb is_input tr
  | None => false
  end.

(** One step of a session: any of the four procedures that write
    [game->state], returning normally. *)
Inductive session_step (mode : oshu_game_mode)
    (seek_stream : oshu_stream -> Q -> oshu_stream) : oshu_game -> oshu_game -> Prop :=
  | step_pause g g' tr :
      pause_game g = Some (g', tr) -> session_step mode seek_stream g g'
  | step_unpause g g' tr :
      unpause_game mode seek_stream g = Some (g', tr) -> session_step mode seek_stream g g'
  | step_event ev g g' tr :
      handle_event mode seek_stream ev g = Some (g', tr) -> session_step mode seek_stream g g'
  | step_check_end g g' tr :
      check_end g = Some (g', tr) -> session_step mode seek_stream g g'.

(** The game as [rewind_music] and [forward_music] have it when their loop
    starts: the stream has been asked for [target], [clock.now] is the
    position it landed on, and the mode has relinquished what it held. *)
Definition at_loop_entry (mode : oshu_game_mode)
    (seek_stream : oshu_stream -> Q -> oshu_stream) (target : Q) (g : oshu_game)
    : oshu_game :=
  relinquish mode
    (reset_now (with_timestamp (current_timestamp (seek_stream (music (audio g)) target)) g)).

(** *** Concrete data for the examples *)

Definition circle (t : Q) : oshu_hit := Hit t OSHU_CIRCLE_HIT OSHU_INITIAL_HIT.
Definition marker (t : Q) : oshu_hit := Hit t OSHU_MARKER_HIT OSHU_INITIAL_HIT.

(** Point objects at [1; 2; 3; 5; 8] between two sentinels. *)
Definition timeline5 (lo hi : Q) : list oshu_hit :=
  [marker lo; circle 1; circle 2; circle 3; circle 5; circle 8; marker hi].

(** A game over [hs] with the cursor at [c], the clock and the audio at [t]. *)
Definition game_at (hs : list oshu_hit) (c : nat) (t : Q) (st : Z) : oshu_game :=
  {| beatmap := Beatmap hs (Difficulty (1 # 2) 1);
     audio := Audio (Stream t);
     clock := Clock t t 0 t;
     game_state := st;
     hit_cursor := c |}.

(** A mode that holds nothing, and a stream that seeks exactly. *)
Definition idle_mode : oshu_game_mode :=
  {| press := fun _ g => g; release := fun _ g => g; relinquish := fun g => g |}.

Definition seek_exactly (s : oshu_stream) (t : Q) : oshu_stream := Stream t.

(** Modelled from the spec: the [relinquish] callback of a mode is not part
    of the sources at hand; it "forcibly releases any object currently held
    in the sliding state" (game/mode.h: "Release any held object, like
    sliders or hold notes").  The state a released object is left in is not
    said: it is [released]. *)
Definition release_held (released : oshu_hit_state) (h : oshu_hit) : oshu_hit :=
  match state h with
  | OSHU_SLIDING_HIT => set_hit_state released h
  | _ => h
  end.

Definition releasing_mode (released : oshu_hit_state) : oshu_game_mode :=
  {| press := fun _ g => g;
     release := fun _ g => g;
     relinquish := fun g =>
       with_hits (release_held released <$> hits (beatmap g)) (hit_cursor g) g |}.

(** Two circles played, a slider held from 3 to 9, and two circles to come,
    between two sentinels. *)
Definition held_timeline : list oshu_hit :=
  [marker (-100);
   Hit 1 OSHU_CIRCLE_HIT OSHU_GOOD_HIT;
   Hit 2 OSHU_CIRCLE_HIT OSHU_GOOD_HIT;
   Hit 3 (OSHU_SLIDER_HIT 6) OSHU_SLIDING_HIT;
   circle 10;
   circle 12;
   marker 100].

(** * The rest of game.c *)

(** ** Conversions of a [double] to an integer

    C truncates toward zero; a value that does not fit the target type has
    no defined result. *)

Definition Qtrunc (q : Q) : Z := Z.quot (Qnum q) (Zpos (Qden q)).

Definition INT_MIN : Z := - 2 ^ 31.
Definition INT_MAX : Z := 2 ^ 31 - 1.
Definition UINT32_MAX : Z := 2 ^ 32 - 1.

Definition double_to_int (q : Q) : option Z :=
  let z := Qtrunc q in
  if (INT_MIN <=? z) && (z <=? INT_MAX) then Some z else None.

Definition double_to_uint32 (q : Q) : option Z :=
  let z := Qtrunc q in
  if (0 <=? z) && (z <=? UINT32_MAX) then Some z else None.

(** ** The clock at the creation of the game

    Step 4 of [oshu_create_game] (lines 63-70).  [audio_lead_in] is the field
    of the beatmap; [game->beatmap.hits] is the head of the list, asserted
    not to be [NULL] at line 38. *)
Definition create_game_clock (audio_lead_in : Q) (g : oshu_game) : option oshu_game :=
  if Qltb 0 audio_lead_in then
    Some (with_clock (with_now (- audio_lead_in)%Q (clock g)) g)
  else
    match next_hit (hits (beatmap g)) 0 ≫= (hits (beatmap g) !!.) with
    | None => None
    | Some first =>
        let first_hit := time first in
        if Qltb first_hit 1 then
          Some (with_clock (with_now (first_hit - 1)%Q (clock g)) g)
        else Some g
    end.

(** ** [dump_state]

    What [dump_state] hands to [printf]: nothing when the output is not a
    terminal.  [duration] is [game->audio.music.duration]. *)
Record status_line := StatusLine {
  status_state : string;
  status_minutes : Z;
  status_seconds : Q;
  status_duration_minutes : Z;
  status_duration_seconds : Q
}.

Definition dump_state_line (tty : bool) (duration : Q) (g : oshu_game)
    : option (option status_line) :=
  if negb tty then Some None
  else
    match double_to_int (now (clock g) / 60) with
    | None => None
    | Some minutes =>
        let seconds := (now (clock g) - inject_Z minutes * 60)%Q in
        let state := if has_flag (game_state g) OSHU_PAUSED then " Paused" else "Playing" in
        match double_to_int (duration / 60) with
        | None => None
        | Some duration_minutes =>
            let duration_seconds := (duration - inject_Z duration_minutes * 60)%Q in
            Some (Some (StatusLine state minutes seconds duration_minutes duration_seconds))
        end
    end.

(** ** [end]: the score

    The loop of [end] over the whole list, from its head. *)
Fixpoint count_hits (hs : list oshu_hit) (good missed : Z) : Z * Z :=
  match hs with
  | [] => (good, missed)
  | hit :: rest =>
      match state hit with
      | OSHU_MISSED_HIT => count_hits rest good (missed + 1)
      | OSHU_GOOD_HIT => count_hits rest (good + 1) missed
      | _ => count_hits rest good missed
      end
  end.

(** [(double) good / (good + missed)]: not a number when nothing was judged. *)
Definition score_rate (good missed : Z) : option Q :=
  if good + missed =? 0 then None
  else Some (inject_Z good / inject_Z (good + missed))%Q.

(** The arguments of the [printf] of [end]: the colour code and the count of
    the good hits, then those of the misses.  A comparison with not-a-number
    is false. *)
Record score_report := ScoreReport {
  good_colour : Z;
  good_count : Z;
  miss_colour : Z;
  miss_count : Z
}.

Definition end_report (g : oshu_game) : score_report :=
  let '(good, missed) := count_hits (hits (beatmap g)) 0 0 in
  let rate := score_rate good missed in
  {| good_colour :=
       match rate with
       | Some r => if Qle_bool (9 # 10) r then 32 else 0
       | None => 0
       end;
     good_count := good;
     miss_colour :=
       match rate with
       | Some r => if Qltb r (1 # 2) then 31 else 0
       | None => 0
       end;
     miss_count := missed |}.

(** ** [oshu_run_game] *)

(** The callbacks of the mode that the loop calls. *)
Record oshu_game_mode_loop := ModeLoop {
  check : oshu_game -> oshu_game;
  autoplay : oshu_game -> oshu_game;
  draw : oshu_game -> oshu_game
}.

(** What the loop does besides the effects of the procedures it calls. *)
Inductive loop_effect :=
  | Welcome                     (* welcome *)
  | Called (e : effect)         (* an effect of a procedure of game.c *)
  | Check                       (* game->mode->check *)
  | Autoplay                    (* game->mode->autoplay *)
  | Draw                        (* draw *)
  | Delay (ms : Z)              (* SDL_Delay *)
  | WarnSlow                    (* oshu_log_warning *)
  | MissedFrames (n : Z).       (* oshu_log_debug *)

(** What the world feeds one iteration: the ticks read by [update_clock],
    the position the audio thread has published by then, the events that
    [SDL_PollEvent] delivers, and the ticks read at the end. *)
Record frame_input := Frame {
  frame_ticks : Z;
  frame_position : Q;
  frame_events : list SDL_Event;
  frame_end_ticks : Z
}.

(** [static const double frame_duration = .016666666;] *)
Definition frame_duration : Q := 16666666 # 1000000000.

Section Loop.

Variable mode : oshu_game_mode.
Variable loop_mode : oshu_game_mode_loop.
Variable seek_stream : oshu_stream -> Q -> oshu_stream.

(** [while (SDL_PollEvent(&event)) handle_event(game, &event);] *)
Fixpoint handle_events (events : list SDL_Event) (g : oshu_game)
    : option (oshu_game * list effect) :=
  match events with
  | [] => Some (g, [])
  | event :: rest =>
      match handle_event mode seek_stream event g with
      | None => None
      | Some (g1, t1) =>
          match handle_events rest g1 with
          | None => None
          | Some (g2, t2) => Some (g2, t1 ++ t2)
          end
      end
  end.

(** Lines 419-426: sleep for what is left of the frame, or count it as
    missed.  [missed_frames] is an [int]. *)
Definition pace (end_ticks : Z) (g : oshu_game) (missed_frames : Z)
    : option (Z * list loop_effect) :=
  let advance := (frame_duration - (inject_Z end_ticks / 1000 - system (clock g)))%Q in
  if Qltb 0 advance then
    match double_to_uint32 (advance * 1000) with
    | None => None
    | Some ms => Some (missed_frames, [Delay ms])
    end
  else
    if missed_frames =? INT_MAX then None
    else
      let missed_frames := missed_frames + 1 in
      Some (missed_frames, if missed_frames =? 1000 then [WarnSlow] else []).

(** One iteration of the loop (lines 406-426). *)
Definition run_frame (input : frame_input) (g : oshu_game) (missed_frames : Z)
    : option (oshu_game * Z * list loop_effect) :=
  let g := with_timestamp (frame_position input) g in
  let g := update_clock (frame_ticks input) g in
  let t_audio :=
    if Qltb (before (clock g)) 0 && Qle_bool 0 (now (clock g))
    then [Called PlayAudio] else [] in
  match handle_events (frame_events input) g with
  | None => None
  | Some (g, t_events) =>
      let '(g, t_check) :=
        if has_flag (game_state g) OSHU_USERPLAY then (check loop_mode g, [Check])
        else if has_flag (game_state g) OSHU_AUTOPLAY then (autoplay loop_mode g, [Autoplay])
        else (g, []) in
      match check_end g with
      | None => None
      | Some (g, t_end) =>
          let g := draw loop_mode g in
          let t_dump :=
            if has_flag (game_state g) OSHU_PLAYING
               && negb (has_flag (game_state g) OSHU_FINISHED)
            then [Called DumpState] else [] in
          match pace (frame_end_ticks input) g missed_frames with
          | None => None
          | Some (missed_frames, t_pace) =>
              Some (g, missed_frames,
                    t_audio ++ (Called <$> t_events) ++ t_check ++ (Called <$> t_end)
                    ++ [Draw] ++ t_dump ++ t_pace)
          end
      end
  end.

(** The loop, over the frames the world provides; it leaves the loop when
    [OSHU_STOPPING] is set. The boolean tells whether it did. *)
Fixpoint run_frames (inputs : list frame_input) (g : oshu_game) (missed_frames : Z)
    : option (oshu_game * Z * list loop_effect * bool) :=
  if has_flag (game_state g) OSHU_STOPPING then Some (g, missed_frames, [], true)
  else
    match inputs with
    | [] => Some (g, missed_frames, [], false)
    | input :: rest =>
        match run_frame input g missed_frames with
        | None => None
        | Some (g1, missed1, t1) =>
            match run_frames rest g1 missed1 with
            | None => None
            | Some (g2, missed2, t2, stopped) => Some (g2, missed2, t1 ++ t2, stopped)
            end
        end
    end.

(** [oshu_run_game]; [start_ticks] is the first reading of the ticks. *)
Definition oshu_run_game (start_ticks : Z) (inputs : list frame_input) (g : oshu_game)
    : option (oshu_game * list loop_effect * bool) :=
  let c := clock g in
  let g := with_clock {| now := now c; before := before c;
                         system := (inject_Z start_ticks / 1000)%Q;
                         audio_clock := audio_clock c |} g in
  let t_audio :=
    if has_flag (game_state g) OSHU_PLAYING && Qle_bool 0 (now (clock g))
    then [Called PlayAudio] else [] in
  match run_frames inputs g 0 with
  | None => None
  | Some (g, missed_frames, t, stopped) =>
      Some (g, [Welcome] ++ t_audio ++ t
               ++ (if stopped then [MissedFrames missed_frames] else []),
            stopped)
  end.

End Loop.

(** A request to quit: the key q going down, or the window being closed. *)
Definition is_quit (event : SDL_Event) : bool :=
  match event with
  | SDL_KEYDOWN false keysym =>
      match sym keysym with SDLK_q => true | _ => false end
  | SDL_WINDOWEVENT SDL_WINDOWEVENT_CLOSE => true
  | _ => false
  end.

(** The flags that no event handler takes away. *)
Definition flags_kept (g g' : oshu_game) : Prop :=
  (has_flag (game_state g) OSHU_STOPPING = true ->
   has_flag (game_state g') OSHU_STOPPING = true) /\
  has_flag (game_state g') OSHU_FINISHED = has_flag (game_state g) OSHU_FINISHED /\
  has_flag (game_state g') OSHU_USERPLAY = has_flag (game_state g) OSHU_USERPLAY /\
  has_flag (game_state g') OSHU_AUTOPLAY = has_flag (game_state g) OSHU_AUTOPLAY.

(** A callback that leaves the clock alone. *)
Definition keeps_clock (f : oshu_game -> oshu_game) : Prop :=
  forall g, clock (f g) = clock g.

Definition is_warning (e : loop_effect) : bool :=
  match e with WarnSlow => true | _ => false end.

Definition warnings (t : list loop_effect) : nat :=
  length (List.filter is_warning t).

(** A mode whose loop callbacks do nothing. *)
Definition idle_loop_mode : oshu_game_mode_loop :=
  {| check := fun g => g; autoplay := fun g => g; draw := fun g => g |}.

(** * game/osu/draw.c *)

Module OsuDraw.

(** The nodes next to a node, as before the functions of this file that
    bear the same names. *)
Definition node_next : list oshu_hit -> nat -> option nat := next_hit.
Definition node_previous : nat -> option nat := previous_hit.

(** [hit->type & (OSHU_CIRCLE_HIT | OSHU_SLIDER_HIT)] *)
Definition playable (hit : oshu_hit) : bool :=
  match type hit with
  | OSHU_CIRCLE_HIT | OSHU_SLIDER_HIT _ => true
  | OSHU_MARKER_HIT => false
  end.

(** The loop of [next_hit], at [hit = i]; [left] nodes are left from [i] to
    the end of the list. *)
Fixpoint next_hit_from (hs : list oshu_hit) (i left : nat) : option nat :=
  match left, hs !! i with
  | S left', Some hit =>
      match node_next hs i with
      | None => Some i
      | Some n => if playable hit then Some i else next_hit_from hs n left'
      end
  | _, _ => None
  end.

Definition next_hit (g : oshu_game) : option nat :=
  let hs := hits (beatmap g) in
  next_hit_from hs (hit_cursor g) (length hs - hit_cursor g).

(** The loop of [previous_hit], at [hit = i]. *)
Fixpoint previous_hit_from (hs : list oshu_hit) (i : nat) : option nat :=
  match hs !! i with
  | None => None
  | Some hit =>
      match i with
      | O => Some i
      | S j => if playable hit then Some i else previous_hit_from hs j
      end
  end.

Definition previous_hit (g : oshu_game) : option nat :=
  let hs := hits (beatmap g) in
  match hs !! hit_cursor g with
  | None => None
  | Some _ =>
      match hit_cursor g with
      | O => Some (hit_cursor g)
      | S p => previous_hit_from hs p
      end
  end.

(** The brightness of the background between [break_start] and
    [break_end] (lines 211-223 of [draw_background]). *)
Definition background_ratio (break_start break_end now : Q) : Q :=
  if Qgtb (break_end - break_start) 5 then
    if Qltb now (break_start + 1) then 0
    else if Qltb now (break_start + 2) then now - (break_start + 1)
    else if Qltb now (break_end - 2) then 1
    else if Qltb now (break_end - 1) then 1 - (now - (break_end - 2))
    else 0
  else 0.

(** [draw_background]: nothing when an assertion fails or [NULL] is
    dereferenced, [Some None] when there is no background texture, and else
    the colour modulation the texture is drawn with. *)
Definition draw_background (has_texture : bool) (g : oshu_game) : option (option Z) :=
  if negb has_texture then Some None
  else
    let hs := hits (beatmap g) in
    match hs !! hit_cursor g ≫= (fun _ => node_previous (hit_cursor g)) with
    | None => None (* assert (game->hit_cursor->previous != NULL) *)
    | Some _ =>
        match previous_hit g ≫= (hs !!.), next_hit g ≫= (hs !!.) with
        | Some before, Some after =>
            let break_start := oshu_hit_end_time before in
            let break_end := time after in
            let ratio := background_ratio break_start break_end (now (clock g)) in
            match double_to_int (64 + ratio * 191) with
            | Some modulation =>
                if (0 <=? modulation) && (modulation <=? 255)
                then Some (Some modulation) else None
            | None => None
            end
        | _, _ => None
        end
    end.




(** ** The trail of the cursor

    [draw_cursor] keeps the last positions of the mouse in the array
    [game->osu.mouse_history], written at [game->osu.mouse_offset].  The
    declaration of the array (game/osu/osu.h) is not part of the sources at
    hand: its number of cells, [fireflies] in the code, is the length of the
    list. *)

Definition oshu_point : Type := (Q * Q)%type.

Record osu_state := OsuState {
  mouse_history : list oshu_point;
  mouse_offset : Z
}.

(** One firefly: [SDL_SetTextureAlphaMod] with [alpha], then
    [oshu_draw_scaled_texture] at [position] with [ratio]. *)
Record firefly := Firefly {
  firefly_alpha : Z;
  firefly_position : oshu_point;
  firefly_ratio : Q
}.

(** The result of an [int] operation, none on overflow. *)
Definition int_value (z : Z) : option Z :=
  if (INT_MIN <=? z) && (z <=? INT_MAX) then Some z else None.

Definition double_to_uint8 (q : Q) : option Z :=
  let z := Qtrunc q in
  if (0 <=? z) && (z <=? 255) then Some z else None.

(** [array[index]] *)
Definition at_index {A : Type} (array : list A) (index : Z) : option A :=
  if index <? 0 then None else array !! Z.to_nat index.

(** The loop of [draw_cursor] at [i], with [count] iterations to go. *)
Fixpoint draw_fireflies (osu : osu_state) (fireflies i : Z) (count : nat)
    : option (list firefly) :=
  match count with
  | O => Some []
  | S count' =>
      sum ← int_value (mouse_offset osu + i);
      let offset := Z.rem sum fireflies in
      let ratio := (inject_Z (i + 1) / inject_Z (fireflies + 1))%Q in
      alpha ← double_to_uint8 (ratio * 255);
      position ← at_index (mouse_history osu) offset;
      rest ← draw_fireflies osu fireflies (i + 1) count';
      Some (Firefly alpha position ratio :: rest)
  end.

(** [draw_cursor], with [mouse] the result of [oshu_get_mouse]. *)
Definition draw_cursor (mouse : oshu_point) (osu : osu_state)
    : option (osu_state * list firefly) :=
  let fireflies := Z.of_nat (length (mouse_history osu)) in
  if fireflies =? 0 then None
  else
    _ ← int_value (fireflies + 1);
    sum ← int_value (mouse_offset osu + 1);
    let offset := Z.rem sum fireflies in
    if offset <? 0 then None
    else
      let osu1 := OsuState (<[Z.to_nat offset := mouse]> (mouse_history osu)) offset in
      drawn ← draw_fireflies osu1 fireflies 1 (Z.to_nat fireflies);
      Some (osu1, drawn).

(** [draw_cursor] frame after frame, with the successive positions of the
    mouse. *)
Fixpoint draw_cursor_frames (mice : list oshu_point) (osu : osu_state)
    : option osu_state :=
  match mice with
  | [] => Some osu
  | mouse :: rest =>
      frame ← draw_cursor mouse osu;
      draw_cursor_frames rest (fst frame)
  end.

(** The positions in the history, from the oldest to the newest. *)
Definition trail (osu : osu_state) : list oshu_point :=
  rotate (S (Z.to_nat (mouse_offset osu))) (mouse_history osu).

(** The history is in use: its offset is the index of one of its cells. *)
Definition trailing (osu : osu_state) : Prop :=
  0 <= mouse_offset osu < Z.of_nat (length (mouse_history osu)) /\
  2 * Z.of_nat (length (mouse_history osu)) <= INT_MAX.

End OsuDraw.

(** * audio/audio.cc *)

Module Audio.




(** A track of sound effects: the sample it plays, if any, and how far it is
    into it. *)
Record track := Track {
  track_sample : option nat;
  track_cursor : Z
}.

(** The loop of [select_track] at index [i], over the tracks from [i] on. *)
Fixpoint select_track_from (effects : list track) (i : nat) (max_cursor : Z)
    (best_track : nat) : nat :=
  match effects with
  | [] => best_track
  | c :: rest =>
      match track_sample c with
      | None => i
      | Some _ =>
          if track_cursor c >? max_cursor
          then select_track_from rest (S i) (track_cursor c) i
          else select_track_from rest (S i) max_cursor best_track
      end
  end.

(** [select_track]: the index of the track it returns. *)
Definition select_track (effects : list track) : nat :=
  select_track_from effects 0 0 0.

End Audio.

(** What [select_track] knows of the tracks it has gone through: all of them
    play, [max_cursor] bounds their cursors, and [best_track] is the first of
    them whose cursor is [max_cursor], or track 0 as long as no cursor is
    positive. *)
Definition all_active (effects : list Audio.track) : Prop :=
  forall c, c ∈ effects -> is_Some (Audio.track_sample c).

Definition furthest (effects : list Audio.track) (max_cursor : Z) (best_track : nat) : Prop :=
  (forall k c, effects !! k = Some c -> Audio.track_cursor c <= max_cursor) /\
  ((max_cursor = 0 /\ best_track = 0%nat) \/
   (0 < max_cursor /\
    exists c, effects !! best_track = Some c /\ Audio.track_cursor c = max_cursor /\
      forall k c', (k < best_track)%nat -> effects !! k = Some c' ->
        Audio.track_cursor c' < max_cursor)).

Definition first_inactive (effects : list Audio.track) (r : nat) : Prop :=
  exists c, effects !! r = Some c /\ Audio.track_sample c = None /\
    forall k c', (k < r)%nat -> effects !! k = Some c' ->
      is_Some (Audio.track_sample c').

(** * library/beatmaps.cc *)

Module Library.

Definition text : Type := list ascii.
Definition lit (s : string) : text := String.list_ascii_of_string s.

(** What [oshu_load_beatmap_headers] reads of a beatmap. *)
Record metadata := Metadata {
  title : text;
  artist : text;
  version : text
}.

Record beatmap_entry := Entry {
  entry_path : text;
  entry_title : text;
  entry_artist : text;
  entry_version : text
}.

Inductive exception :=
  | runtime_error (what : text)
  | system_error (what : text).

(** [e.what()], up to the description of [errno] that a [system_error]
    appends to it. *)
Definition what (e : exception) : text :=
  match e with
  | runtime_error message => message
  | system_error message => message
  end.

Inductive event :=
  | Warning (message : text)
  | Debug (message : text)
  | Closedir (path : text).

(** The outcome of a call: what it returns or what it throws, and what it
    logged and closed on the way. *)
Inductive outcome (A : Type) :=
  | Returns (a : A) (log : list event)
  | Throws (e : exception) (log : list event).
Arguments Returns {A} a log.
Arguments Throws {A} e log.

Definition osu_file (filename : text) : bool :=
  let l := length filename in
  if (l <? 4)%nat then false
  else bool_decide (drop (l - 4) filename = lit ".osu").

(** [entry->d_name[0] == '.'] *)
Definition hidden (d_name : text) : bool :=
  match d_name with
  | c :: _ => bool_decide (c = "."%char)
  | [] => false
  end.

Section Files.

(** The file system: [opendir] followed by the successive results of
    [readdir], [None] standing for a read error; and the loader of the
    headers of a beatmap. *)
Variable opendir : text -> option (list (option text)).
Variable load_headers : text -> option metadata.

(** [beatmap_entry::beatmap_entry] *)
Definition make_entry (path : text) : beatmap_entry + exception :=
  match load_headers path with
  | None => inr (runtime_error (lit "could not load beatmap " ++ path))
  | Some m => inl (Entry path (title m) (artist m) (version m))
  end.

(** The loop of [find_entries]; its handler is for [std::runtime_error], of
    which [std::system_error] is a subclass. *)
Fixpoint read_entries (path : text) (stream : list (option text))
    (entries : list beatmap_entry) (log : list event) : outcome (list beatmap_entry) :=
  match stream with
  | [] => Returns entries (log ++ [Closedir path])
  | None :: _ =>
      Throws (system_error (lit "could not read the beatmap set directory " ++ path)) log
  | Some d_name :: rest =>
      if hidden d_name then read_entries path rest entries log
      else if negb (osu_file d_name) then read_entries path rest entries log
      else
        match make_entry (path ++ lit "/" ++ d_name) with
        | inl entry => read_entries path rest (entries ++ [entry]) log
        | inr e =>
            read_entries path rest entries
              (log ++ [Warning (what e); Warning (lit "ignoring invalid beatmap " ++ path)])
        end
  end.

Definition find_entries (path : text) : outcome (list beatmap_entry) :=
  match opendir path with
  | None => Throws (system_error (lit "could not open the beatmap set directory " ++ path)) []
  | Some stream => read_entries path stream [] []
  end.

Record beatmap_set := BeatmapSet {
  entries : list beatmap_entry;
  set_title : text;
  set_artist : text
}.

(** [beatmap_set::empty] *)
Definition empty (set : beatmap_set) : bool :=
  match entries set with [] => true | _ => false end.

(** [beatmap_set::beatmap_set] *)
Definition make_set (path : text) : outcome beatmap_set :=
  match find_entries path with
  | Throws e log => Throws e log
  | Returns found log =>
      Returns
        (match found with
         | first :: _ => BeatmapSet found (entry_title first) (entry_artist first)
         | [] => BeatmapSet found [] []
         end) log
  end.

(** The loop of [find_beatmap_sets]. *)
Fixpoint read_sets (path : text) (stream : list (option text))
    (sets : list beatmap_set) (log : list event) : outcome (list beatmap_set) :=
  match stream with
  | [] => Returns sets (log ++ [Closedir path])
  | None :: _ => Throws (system_error (lit "could not read the beatmaps directory")) log
  | Some d_name :: rest =>
      if hidden d_name then read_sets path rest sets log
      else
        match make_set (path ++ lit "/" ++ d_name) with
        | Returns set log' => read_sets path rest (sets ++ [set]) (log ++ log')
        | Throws (system_error what) log' =>
            read_sets path rest sets (log ++ log' ++ [Debug what])
        | Throws e log' => Throws e (log ++ log')
        end
  end.

Definition find_beatmap_sets (path : text) : outcome (list beatmap_set) :=
  match opendir path with
  | None => Throws (system_error (lit "could not open the beatmaps directory")) []
  | Some stream => read_sets path stream [] []
  end.

End Files.

(** What [find_entries] is expected to keep of a listing. *)
Definition listed_entry (load_headers : text -> option metadata) (path d_name : text)
    : option beatmap_entry :=
  if hidden d_name || negb (osu_file d_name) then None
  else
    match load_headers (path ++ lit "/" ++ d_name) with
    | Some m => Some (Entry (path ++ lit "/" ++ d_name) (title m) (artist m) (version m))
    | None => None
    end.

(** What [find_beatmap_sets] is expected to keep of a listing. *)
Definition listed_set (opendir : text -> option (list (option text)))
    (load_headers : text -> option metadata) (path d_name : text)
    : option beatmap_set :=
  if hidden d_name then None
  else
    match find_entries opendir load_headers (path ++ lit "/" ++ d_name) with
    | Returns (first :: found) _ =>
        Some (BeatmapSet (first :: found) (entry_title first) (entry_artist first))
    | Returns [] _ => Some (BeatmapSet [] [] [])
    | Throws _ _ => None
    end.

Definition warning_event (e : event) : Prop := exists message, e = Warning message.

(** What a call logged and closed, whether it returned or threw. *)
Definition log_of {A : Type} (o : outcome A) : list event :=
  match o with
  | Returns _ log => log
  | Throws _ log => log
  end.

(** A directory of two beatmap sets, a hidden directory and a plain file;
    only one of the beatmaps has headers that load. *)
Definition songs_opendir (path : text) : option (list (option text)) :=
  if bool_decide (path = lit "songs")
  then Some [Some (lit "a"); Some (lit ".git"); Some (lit "b"); Some (lit "readme")]
  else if bool_decide (path = lit "songs/a")
  then Some [Some (lit "easy.osu"); Some (lit ".hard.osu"); Some (lit "song.mp3");
             Some (lit "broken.osu")]
  else if bool_decide (path = lit "songs/b") then Some []
  else if bool_decide (path = lit "songs/.git") then Some [Some (lit "hook.osu")]
  else if bool_decide (path = lit "faulty") then Some [Some (lit "a"); None]
  else None.

Definition songs_load_headers (path : text) : option metadata :=
  if bool_decide (path = lit "songs/a/easy.osu")
  then Some (Metadata (lit "Title") (lit "Artist") (lit "Easy"))
  else None.

Definition closedir_event (e : event) : Prop := exists path, e = Closedir path.

End Library.

(** * Properties *)

(** ** Comparisons *)

Lemma Qltb_lt (a b : Q) : Qltb a b = true <-> (a < b)%Q.
Proof.
  unfold Qltb. rewrite negb_true_iff, <- not_true_iff_false, Qle_bool_iff.
  split; [apply Qnot_le_lt | apply Qlt_not_le].
Qed.

Lemma Qltb_ge (a b : Q) : Qltb a b = false <-> (b <= a)%Q.
Proof.
  unfold Qltb. rewrite negb_false_iff. apply Qle_bool_iff.
Qed.

Lemma Qgtb_gt (a b : Q) : Qgtb a b = true <-> (b < a)%Q.
Proof. apply Qltb_lt. Qed.

Lemma Qgtb_le (a b : Q) : Qgtb a b = false <-> (a <= b)%Q.
Proof. apply Qltb_ge. Qed.


(** ** The clock *)

Lemma force_monotonicity_le (c : oshu_clock) :
  (before c <= now (force_monotonicity c))%Q.
Proof.
  unfold force_monotonicity.
  destruct (Qltb (now c) (before c)) eqn:E; simpl.
  - apply Qle_refl.
  - now apply Qltb_ge.
Qed.

Lemma sample_clock_before (ticks : Z) (g : oshu_game) :
  before (sample_clock ticks g) = now (clock g).
Proof.
  unfold sample_clock.
  repeat match goal with |- context [if ?b then _ else _] => destruct b end;
    reflexivity.
Qed.

Lemma update_clock_le (ticks : Z) (g : oshu_game) :
  (now (clock g) <= now (clock (update_clock ticks g)))%Q.
Proof.
  unfold update_clock; simpl.
  rewrite <- (sample_clock_before ticks g).
  apply force_monotonicity_le.
Qed.

Lemma clock_run_sorted (samples : list clock_sample) :
  forall g, Sorted Qle (now (clock g) :: clock_run g samples).
Proof.
  induction samples as [|s rest IH]; intros g.
  - repeat constructor.
  - cbn [clock_run].
    constructor; [apply IH|].
    constructor.
    set (g0 := with_state _ _).
    change (now (clock g)) with (now (clock g0)).
    apply update_clock_le.
Qed.

(** C1. Over any sequence of [update_clock] calls, whatever the ticks, the
    audio positions and the state flags sampled at each call, the values of
    [clock.now] never decrease; and a single call leaves in [now] the larger
    of the value it computed and the value [now] had before. *)
Theorem update_clock_monotonic (g : oshu_game) (samples : list clock_sample) (ticks : Z) :
  Sorted Qle (now (clock g) :: clock_run g samples) /\
  let computed := now (sample_clock ticks g) in
  let result := now (clock (update_clock ticks g)) in
  (now (clock g) <= result)%Q /\ (computed <= result)%Q /\
  (result = computed \/ result = now (clock g)).
Proof.
  split; [apply clock_run_sorted|].
  cbv zeta. split; [apply update_clock_le|].
  unfold update_clock; simpl. unfold force_monotonicity.
  rewrite sample_clock_before.
  destruct (Qltb _ _) eqn:E; simpl.
  - apply Qltb_lt in E. split; [now apply Qlt_le_weak | now right].
  - split; [apply Qle_refl | now left].
Qed.

(** C2. Before the clamp, [update_clock] picks [now] by cases: unchanged when
    the game is not playing; the previous [now] plus the elapsed wall time
    during the lead-in (previous [now] negative); the same when the audio
    position equals the position of the previous sample; and the audio
    position otherwise. *)
Theorem update_clock_cases (ticks : Z) (g : oshu_game) :
  let c := clock g in
  let diff := (inject_Z ticks / 1000 - system c)%Q in
  let position := current_timestamp (music (audio g)) in
  let computed := now (sample_clock ticks g) in
  (has_flag (game_state g) OSHU_PLAYING = false -> computed = now c) /\
  (has_flag (game_state g) OSHU_PLAYING = true -> (now c < 0)%Q ->
     computed = (now c + diff)%Q) /\
  (has_flag (game_state g) OSHU_PLAYING = true -> (0 <= now c)%Q ->
     (position == audio_clock c)%Q -> computed = (now c + diff)%Q) /\
  (has_flag (game_state g) OSHU_PLAYING = true -> (0 <= now c)%Q ->
     ~ (position == audio_clock c)%Q -> computed = position).
Proof.
  cbv zeta. unfold sample_clock; simpl.
  destruct (has_flag _ _); simpl.
  - destruct (Qltb (now (clock g)) 0) eqn:Elead.
    + apply Qltb_lt in Elead.
      repeat split; intros; try reflexivity; try discriminate;
        exfalso; eapply Qlt_not_le; eassumption.
    + apply Qltb_ge in Elead.
      destruct (Qeq_bool _ _) eqn:Estuck.
      * apply Qeq_bool_iff in Estuck.
        repeat split; intros; try reflexivity; try discriminate; contradiction.
      * apply Qeq_bool_neq in Estuck.
        repeat split; intros; try reflexivity; try discriminate.
        -- exfalso; eapply Qlt_not_le; eassumption.
        -- contradiction.
  - repeat split; intros; try reflexivity; discriminate.
Qed.

Lemma update_clock_cases_witness :
  let lead_in := game_at [] 0 (-2) OSHU_PLAYING in
  let stuck := game_at [] 0 3 OSHU_PLAYING in
  let paused := game_at [] 0 3 OSHU_PAUSED in
  let moving := with_timestamp 4 (game_at [] 0 3 OSHU_PLAYING) in
  now (sample_clock 500 paused) = 3%Q /\
  now (sample_clock 500 lead_in) = (-2 + (inject_Z 500 / 1000 - 0))%Q /\
  now (sample_clock 500 stuck) = (3 + (inject_Z 500 / 1000 - 0))%Q /\
  now (sample_clock 500 moving) = 4%Q.
Proof.
  cbv zeta. split; [|split; [|split]].
  - apply (proj1 (update_clock_cases 500 (game_at [] 0 3 OSHU_PAUSED))).
    reflexivity.
  - apply (proj1 (proj2 (update_clock_cases 500 (game_at [] 0 (-2) OSHU_PLAYING))));
      reflexivity.
  - apply (proj1 (proj2 (proj2 (update_clock_cases 500 (game_at [] 0 3 OSHU_PLAYING)))));
      [reflexivity | discriminate | reflexivity].
  - apply (proj2 (proj2 (proj2 (update_clock_cases 500
             (with_timestamp 4 (game_at [] 0 3 OSHU_PLAYING))))));
      [reflexivity | discriminate | discriminate].
Defined.

(** ** State flags *)

Lemma has_flag_bit (s k : Z) : 0 <= k -> has_flag s (Z.shiftl 1 k) = Z.testbit s k.
Proof.
  intros Hk. unfold has_flag. rewrite Z.shiftl_1_l.
  destruct (Z.testbit s k) eqn:E.
  - apply negb_true_iff, Z.eqb_neq. intros H0.
    assert (Hb : Z.testbit (Z.land s (2 ^ k)) k = true)
      by (rewrite Z.land_spec, E, Z.pow2_bits_true by exact Hk; reflexivity).
    rewrite H0, Z.bits_0 in Hb. discriminate.
  - apply negb_false_iff, Z.eqb_eq, Z.bits_inj'. intros n Hn.
    rewrite Z.land_spec, Z.bits_0, Z.pow2_bits_eqb by exact Hk.
    destruct (Z.eqb_spec k n) as [->|]; [rewrite E|]; auto using andb_false_r.
Qed.

Lemma has_flag_lor (s f1 f2 : Z) :
  has_flag s (Z.lor f1 f2) = has_flag s f1 || has_flag s f2.
Proof.
  unfold has_flag. rewrite Z.land_lor_distr_r.
  destruct (Z.eqb_spec (Z.land s f1) 0) as [E1|E1];
    destruct (Z.eqb_spec (Z.land s f2) 0) as [E2|E2]; simpl;
    first [ apply negb_false_iff, Z.eqb_eq, Z.lor_eq_0_iff; now split
          | apply negb_true_iff, Z.eqb_neq; rewrite Z.lor_eq_0_iff; tauto ].
Qed.

Lemma testbit_set_flag (s k n : Z) :
  0 <= k -> Z.testbit (set_flag s (Z.shiftl 1 k)) n = Z.testbit s n || (k =? n).
Proof.
  intros Hk. unfold set_flag.
  now rewrite Z.lor_spec, Z.shiftl_1_l, Z.pow2_bits_eqb.
Qed.

Lemma testbit_clear_flag (s k n : Z) :
  0 <= k -> 0 <= n ->
  Z.testbit (clear_flag s (Z.shiftl 1 k)) n = Z.testbit s n && negb (k =? n).
Proof.
  intros Hk Hn. unfold clear_flag.
  now rewrite Z.land_spec, Z.lnot_spec, Z.shiftl_1_l, Z.pow2_bits_eqb.
Qed.

(** Turn tests of the six flags into tests of their bits. *)
Ltac flag_bits :=
  unfold both_set, OSHU_USERPLAY, OSHU_AUTOPLAY, OSHU_PLAYING, OSHU_PAUSED,
    OSHU_FINISHED, OSHU_STOPPING in *;
  repeat first
    [ rewrite has_flag_lor in *
    | rewrite has_flag_bit in * by lia
    | rewrite testbit_set_flag in * by lia
    | rewrite testbit_clear_flag in * by lia ];
  cbn [Z.eqb Pos.eqb negb] in *;
  rewrite ?orb_false_r, ?orb_true_r, ?andb_true_r, ?andb_false_r in *.

Lemma pause_game_state (s : Z) :
  both_set (clear_flag (set_flag s OSHU_PAUSED) OSHU_PLAYING) OSHU_PAUSED OSHU_PLAYING = false
  /\ has_flag (clear_flag (set_flag s OSHU_PAUSED) OSHU_PLAYING) OSHU_PAUSED = true.
Proof. flag_bits. auto. Qed.

Lemma unpause_game_state (s : Z) :
  has_flag (set_flag (clear_flag s OSHU_PAUSED) OSHU_PLAYING) OSHU_PAUSED = false
  /\ has_flag (set_flag (clear_flag s OSHU_PAUSED) OSHU_PLAYING) OSHU_PLAYING = true.
Proof. flag_bits. auto. Qed.

Lemma stopping_state (s : Z) :
  both_set (set_flag s OSHU_STOPPING) OSHU_PAUSED OSHU_PLAYING
  = both_set s OSHU_PAUSED OSHU_PLAYING.
Proof. flag_bits. reflexivity. Qed.

(** ** The procedures, in closed form *)

Section Procedures.

Variable mode : oshu_game_mode.
Variable seek_stream : oshu_stream -> Q -> oshu_stream.

Lemma andthen_Some (p q : proc) (g g' : oshu_game) (tr : list effect) :
  andthen p q g = Some (g', tr) <->
  exists g1 t1 t2, p g = Some (g1, t1) /\ q g1 = Some (g', t2) /\ tr = t1 ++ t2.
Proof.
  unfold andthen. split.
  - destruct (p g) as [[g1 t1]|]; [|discriminate].
    destruct (q g1) as [[g2 t2]|] eqn:Eq; [|discriminate].
    intros [= <- <-]. exists g1, t1, t2; auto.
  - intros (g1 & t1 & t2 & -> & -> & ->). reflexivity.
Qed.

Lemma pause_game_eq (g : oshu_game) :
  pause_game g =
  Some (with_state (clear_flag (set_flag (game_state g) OSHU_PAUSED) OSHU_PLAYING) g,
        [PauseAudio; DumpState]).
Proof. reflexivity. Qed.

Lemma rewind_music_eq (offset : Q) (g : oshu_game) :
  let target := (current_timestamp (music (audio g)) - offset)%Q in
  let g1 := at_loop_entry mode seek_stream target g in
  rewind_music mode seek_stream offset g =
  match rewind_walk (now (clock g1)) (hits (beatmap g1)) (hit_cursor g1) with
  | None => None
  | Some (hs, i) => Some (with_hits hs i g1, [SeekMusic target; Relinquish; DumpState])
  end.
Proof.
  cbv zeta. unfold rewind_music, andthen, oshu_seek_music, modify,
    mode_relinquish, dump_state, emit, rewind_loop, at_loop_entry.
  destruct (rewind_walk _ _ _) as [[hs i]|]; reflexivity.
Qed.

Lemma forward_music_eq (offset : Q) (g : oshu_game) :
  let target := (current_timestamp (music (audio g)) + offset)%Q in
  let g1 := at_loop_entry mode seek_stream target g in
  forward_music mode seek_stream offset g =
  match forward_walk (now (clock g1)) (hits (beatmap g1)) (hit_cursor g1)
          (length (hits (beatmap g1)) - hit_cursor g1) with
  | None => None
  | Some (hs, i) =>
      Some (with_hits hs i g1,
            SeekMusic target :: Relinquish ::
            (if has_flag (game_state g1) OSHU_PAUSED then [] else [PlayAudio])
            ++ [DumpState])
  end.
Proof.
  cbv zeta. unfold forward_music, andthen, oshu_seek_music, modify,
    mode_relinquish, dump_state, emit, forward_loop, when, oshu_play_audio,
    skip, at_loop_entry.
  destruct (has_flag _ OSHU_PAUSED); simpl;
    destruct (forward_walk _ _ _ _) as [[hs i]|]; reflexivity.
Qed.

Lemma unpause_game_eq (g : oshu_game) :
  let resume g := with_state (set_flag (clear_flag (game_state g) OSHU_PAUSED) OSHU_PLAYING) g in
  unpause_game mode seek_stream g =
  if Qle_bool 0 (now (clock g)) then
    if has_flag (game_state g) OSHU_AUTOPLAY then Some (resume g, [PlayAudio])
    else
      match rewind_music mode seek_stream 1 g with
      | None => None
      | Some (g1, tr) => Some (resume g1, tr ++ [PlayAudio])
      end
  else Some (resume g, []).
Proof.
  cbv zeta. unfold unpause_game, andthen, when, modify, oshu_play_audio, emit, skip.
  destruct (Qle_bool _ _); [|reflexivity].
  destruct (has_flag _ _); simpl; [reflexivity|].
  destruct (rewind_music _ _ _ _) as [[g1 tr]|]; simpl; [|reflexivity].
  now rewrite app_nil_r.
Qed.

Lemma unpause_game_flags (g g' : oshu_game) (tr : list effect) :
  unpause_game mode seek_stream g = Some (g', tr) ->
  has_flag (game_state g') OSHU_PAUSED = false /\
  has_flag (game_state g') OSHU_PLAYING = true.
Proof.
  rewrite unpause_game_eq. cbv zeta.
  destruct (Qle_bool _ _); [|intros [= <- _]; apply unpause_game_state].
  destruct (has_flag _ OSHU_AUTOPLAY); [intros [= <- _]; apply unpause_game_state|].
  destruct (rewind_music _ _ _ _) as [[g1 tr1]|]; [|discriminate].
  intros [= <- _]. apply unpause_game_state.
Qed.

(** What the procedures leave in [game->state]. *)

Lemma at_loop_entry_state (target : Q) (g : oshu_game) :
  keeps_state (relinquish mode) ->
  game_state (at_loop_entry mode seek_stream target g) = game_state g.
Proof. intros H. unfold at_loop_entry. now rewrite H. Qed.

Lemma rewind_music_state (offset : Q) (g g' : oshu_game) (tr : list effect) :
  keeps_state (relinquish mode) ->
  rewind_music mode seek_stream offset g = Some (g', tr) ->
  game_state g' = game_state g.
Proof.
  intros H. rewrite rewind_music_eq. cbv zeta.
  destruct (rewind_walk _ _ _) as [[hs i]|]; [|discriminate].
  intros [= <- _]. simpl. now apply at_loop_entry_state.
Qed.

Lemma forward_music_state (offset : Q) (g g' : oshu_game) (tr : list effect) :
  keeps_state (relinquish mode) ->
  forward_music mode seek_stream offset g = Some (g', tr) ->
  game_state g' = game_state g.
Proof.
  intros H. rewrite forward_music_eq. cbv zeta.
  destruct (forward_walk _ _ _ _) as [[hs i]|]; [|discriminate].
  intros [= <- _]. simpl. now apply at_loop_entry_state.
Qed.

(** Seeking and pausing never reach [press] or [release]. *)




End Procedures.

(** ** The end of the song *)

(** game.c: the game becomes finished exactly when it was not, the cursor is
    the last node and [now] is past the end of the node before it by more
    than the leniency. *)
Lemma check_end_finishes (g g' : oshu_game) (tr : list effect) :
  check_end g = Some (g', tr) ->
  has_flag (game_state g) OSHU_FINISHED = false ->
  (has_flag (game_state g') OSHU_FINISHED = true <->
   next_hit (hits (beatmap g)) (hit_cursor g) = None /\
   exists p last, previous_hit (hit_cursor g) = Some p /\
     hits (beatmap g) !! p = Some last /\
     (oshu_hit_end_time last + leniency (difficulty (beatmap g)) < now (clock g))%Q).
Proof.
  unfold check_end, cursor_has_next. intros H Hnot. rewrite Hnot in H.
  destruct (hits (beatmap g) !! hit_cursor g); [|discriminate].
  destruct (next_hit _ _) as [n|] eqn:En.
  - rewrite bool_decide_eq_true_2 in H by eauto.
    injection H as <- <-. rewrite Hnot. split; [discriminate|]. now intros [? _].
  - rewrite bool_decide_eq_false_2 in H by (intros [? ?]; discriminate).
    destruct (previous_hit (hit_cursor g)) as [p|] eqn:Ep; [|discriminate].
    simpl in H. destruct (hits (beatmap g) !! p) as [last|] eqn:El; [|discriminate].
    destruct (Qgtb _ _) eqn:Egt.
    + injection H as <- <-. apply Qgtb_gt in Egt. split; [|reflexivity].
      intros _. split; [reflexivity|]. now exists p, last.
    + injection H as <- <-. apply Qgtb_le in Egt. rewrite Hnot.
      split; [discriminate|].
      intros (_ & p' & last' & [= <-] & Hl & Hlt). rewrite El in Hl.
      injection Hl as <-. exfalso. eapply Qlt_not_le; eassumption.
Qed.

(** play.c: the score screen is entered exactly when the cursor is the last
    node and [now] is past the end of the node before it by more than the
    leniency plus the approach time. *)
Lemma play_check_end_finishes (g g' : PlayScreen.game) (tr : list PlayScreen.effect) :
  PlayScreen.check_end g = Some (g', tr) ->
  PlayScreen.screen g = PlayScreen.oshu_play_screen ->
  let b := PlayScreen.base g in
  (PlayScreen.screen g' = PlayScreen.oshu_score_screen <->
   next_hit (hits (beatmap b)) (hit_cursor b) = None /\
   exists p last, previous_hit (hit_cursor b) = Some p /\
     hits (beatmap b) !! p = Some last /\
     (oshu_hit_end_time last
      + (leniency (difficulty (beatmap b)) + approach_time (difficulty (beatmap b)))
      < now (clock b))%Q).
Proof.
  unfold PlayScreen.check_end. intros H Hplay. cbv zeta.
  destruct (hits _ !! hit_cursor _); [|discriminate].
  destruct (next_hit _ _) as [n|] eqn:En.
  - injection H as <- <-. rewrite Hplay. split; [discriminate|]. now intros [? _].
  - destruct (previous_hit _) as [p|] eqn:Ep; [|discriminate].
    simpl in H. destruct (hits _ !! p) as [last|] eqn:El; [|discriminate].
    destruct (Qgtb _ _) eqn:Egt.
    + injection H as <- <-. apply Qgtb_gt in Egt. split; [|reflexivity].
      intros _. split; [reflexivity|]. now exists p, last.
    + injection H as <- <-. apply Qgtb_le in Egt. rewrite Hplay.
      split; [discriminate|].
      intros (_ & p' & last' & [= <-] & Hl & Hlt). rewrite El in Hl.
      injection Hl as <-. exfalso. eapply Qlt_not_le; eassumption.
Qed.

(** C3. A beatmap whose single object ends at 10, with leniency 0.5 and
    approach time 1.0, the cursor on the tail sentinel and [now] at 11:
    [check_end] of game.c marks the game finished, although 11 <= 11.5;
    [check_end] of play.c, which adds the approach time, does not. *)
Theorem check_end_omits_approach_time :
  let g := game_at [marker (-100); circle 10; marker 100] 2 11
             (Z.lor OSHU_USERPLAY OSHU_PLAYING) in
  (oshu_hit_end_time (circle 10) + leniency (difficulty (beatmap g))
   + approach_time (difficulty (beatmap g)) == 23 # 2)%Q /\
  check_end g = Some (with_state (Z.lor OSHU_FINISHED OSHU_PLAYING) g, [PrintScore]) /\
  PlayScreen.check_end (PlayScreen.PlayGame g PlayScreen.oshu_play_screen)
  = Some (PlayScreen.PlayGame g PlayScreen.oshu_play_screen, []).
Proof. cbv zeta. split; [reflexivity|]. split; reflexivity. Qed.

(** ** Pausing and resuming *)



(** ** Dispatch of the input events *)

Lemma pause_game_quiet (g : oshu_game) : dispatched (pause_game g) = false.
Proof. reflexivity. Qed.

Lemma stopping_quiet (g : oshu_game) : dispatched (stopping g) = false.
Proof. reflexivity. Qed.






(** ** Paused and playing *)

Section Exclusive.

Variable mode : oshu_game_mode.
Variable seek_stream : oshu_stream -> Q -> oshu_stream.
Hypothesis relinquish_state : keeps_state (relinquish mode).
Hypothesis press_state : forall k, keeps_state (press mode k).
Hypothesis release_state : forall k, keeps_state (release mode k).

Lemma pause_game_exclusive (g g' : oshu_game) (tr : list effect) :
  pause_game g = Some (g', tr) -> exclusive g'.
Proof.
  rewrite pause_game_eq. intros [= <- _]. apply pause_game_state.
Qed.

Lemma unpause_game_exclusive (g g' : oshu_game) (tr : list effect) :
  unpause_game mode seek_stream g = Some (g', tr) -> exclusive g'.
Proof.
  intros H. apply unpause_game_flags in H as [Hp _].
  unfold exclusive, both_set. now rewrite Hp.
Qed.

Lemma rewind_music_exclusive (offset : Q) (g g' : oshu_game) (tr : list effect) :
  rewind_music mode seek_stream offset g = Some (g', tr) -> exclusive g -> exclusive g'.
Proof.
  intros H. unfold exclusive.
  now rewrite (rewind_music_state mode seek_stream offset g g' tr relinquish_state H).
Qed.

Lemma forward_music_exclusive (offset : Q) (g g' : oshu_game) (tr : list effect) :
  forward_music mode seek_stream offset g = Some (g', tr) -> exclusive g -> exclusive g'.
Proof.
  intros H. unfold exclusive.
  now rewrite (forward_music_state mode seek_stream offset g g' tr relinquish_state H).
Qed.

Lemma stopping_exclusive (g g' : oshu_game) (tr : list effect) :
  stopping g = Some (g', tr) -> exclusive g -> exclusive g'.
Proof.
  intros [= <- _]. unfold exclusive. simpl. now rewrite stopping_state.
Qed.

Lemma skip_exclusive (g g' : oshu_game) (tr : list effect) :
  skip g = Some (g', tr) -> exclusive g -> exclusive g'.
Proof. now intros [= <- _]. Qed.

Lemma handle_event_exclusive (ev : SDL_Event) (g g' : oshu_game) (tr : list effect) :
  handle_event mode seek_stream ev g = Some (g', tr) -> exclusive g -> exclusive g'.
Proof.
  pose proof skip_exclusive. pose proof stopping_exclusive.
  pose proof rewind_music_exclusive. pose proof forward_music_exclusive.
  pose proof unpause_game_exclusive. pose proof pause_game_exclusive.
  assert (Hpress : forall k, mode_press mode k g = Some (g', tr) -> exclusive g -> exclusive g')
    by (intros k [= <- _]; unfold exclusive; now rewrite press_state).
  assert (Hrelease : forall k, mode_release mode k g = Some (g', tr) -> exclusive g -> exclusive g')
    by (intros k [= <- _]; unfold exclusive; now rewrite release_state).
  destruct ev as [repeat ks|repeat ks| | |ev|]; simpl.
  - destruct repeat; [eauto|].
    destruct (has_flag _ (Z.lor _ _)); [destruct (sym ks); eauto|].
    destruct (user_playing g); [|destruct (sym ks); eauto].
    destruct (sym ks); eauto; destruct (translate_key ks); eauto.
  - destruct (user_playing g); [|eauto].
    destruct (translate_key ks); eauto.
  - destruct (user_playing g); eauto.
  - destruct (user_playing g); eauto.
  - destruct ev; eauto;
      (destruct (user_playing g); [|eauto]);
      destruct (cursor_has_next g) as [[]|]; eauto; discriminate.
  - eauto.
Qed.

Lemma check_end_exclusive (g g' : oshu_game) (tr : list effect) :
  check_end g = Some (g', tr) -> exclusive g -> exclusive g'.
Proof.
  unfold check_end.
  destruct (has_flag _ OSHU_FINISHED); [apply skip_exclusive|].
  destruct (cursor_has_next g) as [[]|]; [apply skip_exclusive| |discriminate].
  destruct (_ ≫= _) as [last|]; [|discriminate].
  destruct (Qgtb _ _); [|apply skip_exclusive].
  intros [= <- _] _. reflexivity.
Qed.

Lemma session_step_exclusive (g g' : oshu_game) :
  session_step mode seek_stream g g' -> exclusive g -> exclusive g'.
Proof.
  destruct 1; eauto using pause_game_exclusive, unpause_game_exclusive,
    handle_event_exclusive, check_end_exclusive.
Qed.

Lemma session_exclusive (g g' : oshu_game) :
  rtc (session_step mode seek_stream) g g' -> exclusive g -> exclusive g'.
Proof.
  induction 1 as [|g g1 g' Hstep _ IH]; [trivial|].
  intros Hg. apply IH. eapply session_step_exclusive; eassumption.
Qed.

End Exclusive.

(** C9. When the callbacks of the mode leave [game->state] alone, a session
    that starts with [OSHU_PAUSED] and [OSHU_PLAYING] not both set never has
    both set, whatever the sequence of [pause_game], [unpause_game],
    [handle_event] and [check_end] steps. *)
Theorem paused_playing_exclusive (mode : oshu_game_mode)
    (seek_stream : oshu_stream -> Q -> oshu_stream) (g g' : oshu_game) :
  keeps_state (relinquish mode) ->
  (forall k, keeps_state (press mode k)) ->
  (forall k, keeps_state (release mode k)) ->
  both_set (game_state g) OSHU_PAUSED OSHU_PLAYING = false ->
  rtc (session_step mode seek_stream) g g' ->
  both_set (game_state g') OSHU_PAUSED OSHU_PLAYING = false.
Proof.
  intros Hr Hp Hl Hg Hrun.
  exact (session_exclusive mode seek_stream Hr Hp Hl g g' Hrun Hg).
Qed.

Lemma paused_playing_exclusive_witness :
  let g := game_at (timeline5 (-100) 100) 4 4 (Z.lor OSHU_USERPLAY OSHU_PLAYING) in
  match handle_event idle_mode seek_exactly
          (SDL_KEYDOWN false (Keysym SDL_SCANCODE_ESCAPE SDLK_ESCAPE)) g with
  | Some (g1, _) =>
      has_flag (game_state g1) OSHU_PAUSED = true /\
      match unpause_game idle_mode seek_exactly g1 with
      | Some (g2, _) => both_set (game_state g2) OSHU_PAUSED OSHU_PLAYING = false
      | None => False
      end
  | None => False
  end.
Proof.
  cbv zeta.
  destruct (handle_event _ _ _ _) as [[g1 t1]|] eqn:E1; [|discriminate E1].
  split; [injection E1 as <- _; reflexivity|].
  destruct (unpause_game _ _ g1) as [[g2 t2]|] eqn:E2;
    [|injection E1 as <- _; discriminate E2].
  apply (paused_playing_exclusive idle_mode seek_exactly
           (game_at (timeline5 (-100) 100) 4 4 (Z.lor OSHU_USERPLAY OSHU_PLAYING)) g2).
  - intros g; reflexivity.
  - intros k g; reflexivity.
  - intros k g; reflexivity.
  - reflexivity.
  - eapply rtc_l; [eapply step_event; exact E1|].
    eapply rtc_l; [eapply step_unpause; exact E2|].
    apply rtc_refl.
Defined.

(** ** Walks over the hit list *)

Section Walks.

Implicit Types (hs : list oshu_hit) (cond : oshu_hit -> bool).

Lemma seek_backward_spec cond hs (i : nat) (h0 : oshu_hit) :
  (i < length hs)%nat -> hs !! 0%nat = Some h0 -> cond h0 = false ->
  exists r h, seek_backward cond hs i = Some r /\ (r <= i)%nat /\
    hs !! r = Some h /\ cond h = false /\
    forall k hk, (r < k <= i)%nat -> hs !! k = Some hk -> cond hk = true.
Proof.
  intros Hi H0 Hc0. induction i as [|j IH]; simpl.
  - rewrite H0, Hc0. exists 0%nat, h0. repeat split; auto. intros; lia.
  - destruct (lookup_lt_is_Some_2 hs (S j) Hi) as [h Hh]. rewrite Hh.
    destruct (cond h) eqn:Ec.
    + destruct IH as (r & hr & -> & Hr & Hhr & Hcr & Hbetween); [lia|].
      exists r, hr. repeat split; auto.
      intros k hk Hk Hlk. destruct (decide (k = S j)) as [->|Hne].
      * congruence.
      * apply (Hbetween k); [lia | assumption].
    + exists (S j), h. repeat split; auto. intros; lia.
Qed.

Lemma seek_forward_spec cond hs (tl : oshu_hit) :
  last hs = Some tl -> cond tl = false ->
  forall (left i : nat), left = (length hs - i)%nat -> (i < length hs)%nat ->
  exists r h, seek_forward cond hs i left = Some r /\ (i <= r)%nat /\
    hs !! r = Some h /\ cond h = false /\
    forall k hk, (i <= k < r)%nat -> hs !! k = Some hk -> cond hk = true.
Proof.
  intros Hl Hctl. rewrite last_lookup in Hl.
  induction left as [|left IH]; intros i Hleft Hi; [lia|]. simpl.
  destruct (lookup_lt_is_Some_2 hs i Hi) as [h Hh]. rewrite Hh.
  destruct (cond h) eqn:Ec.
  - assert (S i < length hs)%nat.
    { destruct (decide (i = pred (length hs))) as [->|]; [congruence | lia]. }
    destruct (IH (S i)) as (r & hr & -> & Hr & Hhr & Hcr & Hbetween); [lia|lia|].
    exists r, hr. repeat split; auto; [lia|].
    intros k hk Hk Hlk. destruct (decide (k = i)) as [->|Hne].
    + congruence.
    + apply (Hbetween k); [lia | assumption].
  - exists i, h. repeat split; auto. intros; lia.
Qed.

Lemma rewind_walk_spec (nw : Q) :
  forall (i : nat) hs (h0 : oshu_hit),
  (i < length hs)%nat -> hs !! 0%nat = Some h0 -> (time h0 <= nw + 1)%Q ->
  exists hs' r, rewind_walk nw hs i = Some (hs', r) /\ (r <= i)%nat /\
    (exists h, hs !! r = Some h /\ (time h <= nw + 1)%Q) /\
    (forall k h, (r < k <= i)%nat -> hs !! k = Some h ->
       (nw + 1 < time h)%Q /\ hs' !! k = Some (set_hit_state OSHU_INITIAL_HIT h)) /\
    (forall k, ~ (r < k <= i)%nat -> hs' !! k = hs !! k).
Proof.
  induction i as [|j IH]; intros hs h0 Hi H0 Ht0; simpl.
  - rewrite H0. rewrite (proj2 (Qgtb_le _ _) Ht0).
    exists hs, 0%nat. split; [reflexivity|]. split; [lia|].
    split; [eauto|]. split; [intros; lia | reflexivity].
  - destruct (lookup_lt_is_Some_2 hs (S j) Hi) as [h Hh]. rewrite Hh.
    destruct (Qgtb (time h) (nw + 1)) eqn:Ec.
    + apply Qgtb_gt in Ec.
      set (hs1 := <[S j := set_hit_state OSHU_INITIAL_HIT h]> hs).
      destruct (IH hs1 h0) as (hs' & r & -> & Hr & (hr & Hhr & Htr) & Hwalked & Hrest).
      { unfold hs1. rewrite length_insert. lia. }
      { unfold hs1. rewrite list_lookup_insert_ne by lia. exact H0. }
      { exact Ht0. }
      exists hs', r. split; [reflexivity|]. split; [lia|].
      unfold hs1 in *. rewrite list_lookup_insert_ne in Hhr by lia.
      split; [eauto|]. split.
      * intros k hk Hk Hlk. destruct (decide (k = S j)) as [->|Hne].
        -- assert (hk = h) as -> by congruence. split; [exact Ec|].
           rewrite Hrest by lia. now apply list_lookup_insert_eq.
        -- apply Hwalked; [lia|]. now rewrite list_lookup_insert_ne by lia.
      * intros k Hk. rewrite Hrest by lia. apply list_lookup_insert_ne. lia.
    + apply Qgtb_le in Ec. exists hs, (S j). split; [reflexivity|]. split; [lia|].
      split; [eauto|]. split; [intros; lia | reflexivity].
Qed.

Lemma forward_walk_spec (nw : Q) (tl : oshu_hit) :
  (nw + 1 <= time tl)%Q ->
  forall (left i : nat) hs,
  hs !! pred (length hs) = Some tl ->
  left = (length hs - i)%nat -> (i < length hs)%nat ->
  exists hs' r, forward_walk nw hs i left = Some (hs', r) /\ (i <= r)%nat /\
    (exists h, hs !! r = Some h /\ (nw + 1 <= time h)%Q) /\
    (forall k h, (i <= k < r)%nat -> hs !! k = Some h ->
       (time h < nw + 1)%Q /\ hs' !! k = Some (set_hit_state OSHU_SKIPPED_HIT h)) /\
    (forall k, ~ (i <= k < r)%nat -> hs' !! k = hs !! k).
Proof.
  intros Httl.
  induction left as [|left IH]; intros i hs Hl Hleft Hi; [lia|]. simpl.
  destruct (lookup_lt_is_Some_2 hs i Hi) as [h Hh]. rewrite Hh.
  destruct (Qltb (time h) (nw + 1)) eqn:Ec.
  - apply Qltb_lt in Ec.
    assert (S i < length hs)%nat.
    { destruct (decide (i = pred (length hs))) as [->|]; [|lia].
      assert (h = tl) as -> by congruence.
      exfalso. eapply Qlt_not_le; eassumption. }
    set (hs1 := <[i := set_hit_state OSHU_SKIPPED_HIT h]> hs).
    destruct (IH (S i) hs1) as (hs' & r & -> & Hr & (hr & Hhr & Htr) & Hwalked & Hrest).
    { unfold hs1. rewrite length_insert, list_lookup_insert_ne by lia. exact Hl. }
    { unfold hs1. rewrite length_insert. lia. }
    { unfold hs1. rewrite length_insert. lia. }
    exists hs', r. split; [reflexivity|]. split; [lia|].
    unfold hs1 in *. rewrite list_lookup_insert_ne in Hhr by lia.
    split; [eauto|]. split.
    + intros k hk Hk Hlk. destruct (decide (k = i)) as [->|Hne].
      * assert (hk = h) as -> by congruence. split; [exact Ec|].
        rewrite Hrest by lia. now apply list_lookup_insert_eq.
      * apply Hwalked; [lia|]. now rewrite list_lookup_insert_ne by lia.
    + intros k Hk. rewrite Hrest by lia. apply list_lookup_insert_ne. lia.
  - apply Qltb_ge in Ec. exists hs, i. split; [reflexivity|]. split; [lia|].
    split; [eauto|]. split; [intros; lia | reflexivity].
Qed.

End Walks.

(** ** Order along the list *)

Section Order.

Variable key : oshu_hit -> Q.
Variable R : Q -> Q -> Prop.
Variable hs : list oshu_hit.
Hypothesis R_trans : forall x y z, R x y -> R y z -> R x z.
Hypothesis adjacent :
  forall (i : nat) a b, hs !! i = Some a -> hs !! S i = Some b -> R (key a) (key b).

Lemma adjacent_to_all :
  forall (d i : nat) a b,
  hs !! i = Some a -> hs !! (i + S d)%nat = Some b -> R (key a) (key b).
Proof.
  induction d as [|d IH]; intros i a b Ha Hb.
  - apply (adjacent i); [assumption|].
    now replace (S i) with (i + 1)%nat by lia.
  - destruct (lookup_lt_is_Some_2 hs (i + S d)) as [m Hm].
    { apply lookup_lt_Some in Hb. lia. }
    apply R_trans with (key m); [now apply (IH i)|].
    apply (adjacent (i + S d)); [assumption|].
    now replace (S (i + S d)) with (i + S (S d))%nat by lia.
Qed.

End Order.

Lemma increasing_adjacent (key : oshu_hit -> Q) (hs : list oshu_hit) :
  increasing key hs = true ->
  forall (i : nat) a b, hs !! i = Some a -> hs !! S i = Some b -> (key a < key b)%Q.
Proof.
  induction hs as [|h1 [|h2 rest] IH]; intros Hinc i a b Ha Hb.
  - discriminate.
  - destruct i; discriminate.
  - cbn [increasing] in Hinc. apply andb_true_iff in Hinc as [H12 Hrest].
    destruct i as [|i].
    + injection Ha as <-. injection Hb as <-. now apply Qltb_lt.
    + now apply (IH Hrest i).
Qed.

Lemma sorted_adjacent (key : oshu_hit -> Q) (hs : list oshu_hit) :
  sorted key hs = true ->
  forall (i : nat) a b, hs !! i = Some a -> hs !! S i = Some b -> (key a <= key b)%Q.
Proof.
  induction hs as [|h1 [|h2 rest] IH]; intros Hinc i a b Ha Hb.
  - discriminate.
  - destruct i; discriminate.
  - cbn [sorted] in Hinc. apply andb_true_iff in Hinc as [H12 Hrest].
    destruct i as [|i].
    + injection Ha as <-. injection Hb as <-. now apply Qle_bool_iff.
    + now apply (IH Hrest i).
Qed.

Lemma increasing_lookup (key : oshu_hit -> Q) (hs : list oshu_hit) :
  increasing key hs = true ->
  forall (i j : nat) a b, (i < j)%nat ->
  hs !! i = Some a -> hs !! j = Some b -> (key a < key b)%Q.
Proof.
  intros Hinc i j a b Hij Ha Hb.
  replace j with (i + S (j - S i))%nat in Hb by lia.
  eapply (adjacent_to_all key Qlt hs Qlt_trans); eauto using increasing_adjacent.
Qed.

Lemma sorted_lookup (key : oshu_hit -> Q) (hs : list oshu_hit) :
  sorted key hs = true ->
  forall (i j : nat) a b, (i <= j)%nat ->
  hs !! i = Some a -> hs !! j = Some b -> (key a <= key b)%Q.
Proof.
  intros Hs i j a b Hij Ha Hb.
  destruct (decide (i = j)) as [->|Hne].
  - assert (a = b) as -> by congruence. apply Qle_refl.
  - replace j with (i + S (j - S i))%nat in Hb by lia.
    eapply (adjacent_to_all key Qle hs Qle_trans); eauto using sorted_adjacent.
Qed.

Lemma first_at_least_unique (key : oshu_hit -> Q) (t : Q) (hs : list oshu_hit) (r r' : nat) :
  first_at_least key t hs r -> first_at_least key t hs r' -> r = r'.
Proof.
  intros [(h & Hh & Ht) Hb] [(h' & Hh' & Ht') Hb'].
  destruct (lt_eq_lt_dec r r') as [[Hlt| ->]|Hlt]; [|reflexivity|]; exfalso.
  - apply (Qlt_not_le _ _ (Hb' r h Hlt Hh)), Ht.
  - apply (Qlt_not_le _ _ (Hb r' h' Hlt Hh')), Ht'.
Qed.

(** ** Looking back and looking up *)

Lemma look_hit_back_spec (g : oshu_game) (offset : Q) (hd tl : oshu_hit) :
  let hs := hits (beatmap g) in
  let target := (now (clock g) - offset)%Q in
  (hit_cursor g < length hs)%nat ->
  hs !! 0%nat = Some hd -> (oshu_hit_end_time hd <= target)%Q ->
  last hs = Some tl -> (target <= oshu_hit_end_time tl)%Q ->
  exists r h, oshu_look_hit_back g offset = Some r /\ hs !! r = Some h /\
    (target <= oshu_hit_end_time h)%Q /\
    ((oshu_hit_end_time h == target)%Q \/
     exists p hp, r = S p /\ hs !! p = Some hp /\ (oshu_hit_end_time hp < target)%Q) /\
    (increasing oshu_hit_end_time hs = true ->
     first_at_least oshu_hit_end_time target hs r).
Proof.
  cbv zeta. intros Hc Hhd Hhdt Htl Htlt. unfold oshu_look_hit_back.
  set (hs := hits (beatmap g)) in *. set (target := (now (clock g) - offset)%Q) in *.
  destruct (seek_backward_spec (fun h => Qgtb (oshu_hit_end_time h) target)
              hs (hit_cursor g) hd Hc Hhd)
    as (j & hj & -> & Hj & Hhj & Hcj & Hback); [now apply Qgtb_le|].
  apply Qgtb_le in Hcj.
  destruct (seek_forward_spec (fun h => Qltb (oshu_hit_end_time h) target)
              hs tl Htl (proj2 (Qltb_ge _ _) Htlt) (length hs - j)%nat j eq_refl)
    as (r & hr & -> & Hr & Hhr & Hcr & Hfwd); [apply lookup_lt_Some in Hhj; lia|].
  apply Qltb_ge in Hcr.
  exists r, hr. split; [reflexivity|]. split; [assumption|]. split; [assumption|].
  split.
  - destruct (decide (r = j)) as [->|Hne].
    + left. assert (hr = hj) as -> by congruence. now apply Qle_antisym.
    + right. destruct r as [|p]; [lia|].
      destruct (lookup_lt_is_Some_2 hs p) as [hp Hhp];
        [apply lookup_lt_Some in Hhr; lia|].
      exists p, hp. split; [reflexivity|]. split; [assumption|].
      apply Qltb_lt. apply (Hfwd p hp); [lia | assumption].
  - intros Hinc. split; [eauto|].
    intros k hk Hk Hhk. destruct (le_lt_dec j k) as [Hjk|Hkj].
    + apply Qltb_lt. apply (Hfwd k hk); [lia | assumption].
    + eapply Qlt_le_trans; [|exact Hcj].
      now apply (increasing_lookup oshu_hit_end_time hs Hinc k j).
Qed.

Lemma look_hit_up_spec (g : oshu_game) (offset : Q) (hd tl : oshu_hit) :
  let hs := hits (beatmap g) in
  let target := (now (clock g) + offset)%Q in
  (hit_cursor g < length hs)%nat ->
  hs !! 0%nat = Some hd -> (time hd <= target)%Q ->
  last hs = Some tl -> (target <= time tl)%Q ->
  exists r h, oshu_look_hit_up g offset = Some r /\ hs !! r = Some h /\
    (time h <= target)%Q /\
    ((time h == target)%Q \/
     exists hn, hs !! S r = Some hn /\ (target < time hn)%Q) /\
    (increasing time hs = true -> last_at_most time target hs r).
Proof.
  cbv zeta. intros Hc Hhd Hhdt Htl Htlt. unfold oshu_look_hit_up.
  set (hs := hits (beatmap g)) in *. set (target := (now (clock g) + offset)%Q) in *.
  destruct (seek_forward_spec (fun h => Qltb (time h) target)
              hs tl Htl (proj2 (Qltb_ge _ _) Htlt)
              (length hs - hit_cursor g)%nat (hit_cursor g) eq_refl Hc)
    as (j & hj & -> & Hj & Hhj & Hcj & Hfwd).
  apply Qltb_ge in Hcj.
  destruct (seek_backward_spec (fun h => Qgtb (time h) target) hs j hd)
    as (r & hr & -> & Hr & Hhr & Hcr & Hback);
    [apply lookup_lt_Some in Hhj; lia | assumption | now apply Qgtb_le |].
  apply Qgtb_le in Hcr.
  exists r, hr. split; [reflexivity|]. split; [assumption|]. split; [assumption|].
  split.
  - destruct (decide (r = j)) as [->|Hne].
    + left. assert (hr = hj) as -> by congruence. now apply Qle_antisym.
    + right.
      destruct (lookup_lt_is_Some_2 hs (S r)) as [hn Hhn];
        [apply lookup_lt_Some in Hhj; lia|].
      exists hn. split; [assumption|].
      apply Qgtb_gt. apply (Hback (S r) hn); [lia | assumption].
  - intros Hinc. split; [eauto|].
    intros k hk Hk Hhk. destruct (le_lt_dec k j) as [Hkj|Hjk].
    + apply Qgtb_gt. apply (Hback k hk); [lia | assumption].
    + eapply Qle_lt_trans; [exact Hcj|].
      now apply (increasing_lookup time hs Hinc j k).
Qed.

Lemma last_at_most_unique (key : oshu_hit -> Q) (t : Q) (hs : list oshu_hit) (r r' : nat) :
  last_at_most key t hs r -> last_at_most key t hs r' -> r = r'.
Proof.
  intros [(h & Hh & Ht) Hb] [(h' & Hh' & Ht') Hb'].
  destruct (lt_eq_lt_dec r r') as [[Hlt| ->]|Hlt]; [|reflexivity|]; exfalso.
  - apply (Qlt_not_le _ _ (Hb r' h' Hlt Hh')), Ht'.
  - apply (Qlt_not_le _ _ (Hb' r h Hlt Hh)), Ht.
Qed.

(** C4, as the source has it. With sentinels whose end time and time bound
    the targets, from any cursor of the list: [oshu_look_hit_back] returns
    an object whose end time is at least [now - offset], and either that end
    time is the target itself or the object before it ends before the
    target; [oshu_look_hit_up] returns an object whose time is at most
    [now + offset], and either that time is the target itself or the object
    after it starts after the target.  When the end times strictly increase
    along the list the former is the first object ending at or after the
    target; when the times strictly increase the latter is the last object
    starting at or before the target. *)
Theorem look_hit_bounds (g : oshu_game) (offset : Q) (hd tl : oshu_hit) :
  let hs := hits (beatmap g) in
  let back := (now (clock g) - offset)%Q in
  let up := (now (clock g) + offset)%Q in
  (hit_cursor g < length hs)%nat ->
  hs !! 0%nat = Some hd -> last hs = Some tl ->
  (oshu_hit_end_time hd <= back)%Q -> (back <= oshu_hit_end_time tl)%Q ->
  (time hd <= up)%Q -> (up <= time tl)%Q ->
  (exists r h, oshu_look_hit_back g offset = Some r /\ hs !! r = Some h /\
     (back <= oshu_hit_end_time h)%Q /\
     ((oshu_hit_end_time h == back)%Q \/
      exists p hp, r = S p /\ hs !! p = Some hp /\ (oshu_hit_end_time hp < back)%Q) /\
     (increasing oshu_hit_end_time hs = true ->
      first_at_least oshu_hit_end_time back hs r)) /\
  (exists r h, oshu_look_hit_up g offset = Some r /\ hs !! r = Some h /\
     (time h <= up)%Q /\
     ((time h == up)%Q \/
      exists hn, hs !! S r = Some hn /\ (up < time hn)%Q) /\
     (increasing time hs = true -> last_at_most time up hs r)).
Proof.
  cbv zeta. intros Hc Hhd Htl Hb1 Hb2 Hu1 Hu2. split.
  - now apply (look_hit_back_spec g offset hd tl).
  - now apply (look_hit_up_spec g offset hd tl).
Qed.

Lemma look_hit_bounds_witness :
  let g := game_at (timeline5 (-100) 100) 4 4 0 in
  (exists r h, oshu_look_hit_back g 2 = Some r /\ hits (beatmap g) !! r = Some h /\
     (4 - 2 <= oshu_hit_end_time h)%Q) /\
  (exists r h, oshu_look_hit_up g 2 = Some r /\ hits (beatmap g) !! r = Some h /\
     (time h <= 4 + 2)%Q).
Proof.
  cbv zeta.
  destruct (look_hit_bounds (game_at (timeline5 (-100) 100) 4 4 0) 2
              (marker (-100)) (marker 100))
    as [(r & h & Hr & Hh & Hb & _) (r' & h' & Hr' & Hh' & Hu & _)].
  - simpl. lia.
  - reflexivity.
  - reflexivity.
  - apply Qle_bool_iff. reflexivity.
  - apply Qle_bool_iff. reflexivity.
  - apply Qle_bool_iff. reflexivity.
  - apply Qle_bool_iff. reflexivity.
  - split; [exists r, h | exists r', h']; auto.
Defined.

(** C4, as stated, fails when two objects share a time: the list is sorted,
    yet looking back from the object at 3 stops on the second object at 2,
    whose predecessor also ends at the target, and looking up from the object
    at 1 stops on the first object at 2, whose successor also starts at the
    target. *)
Lemma look_hit_equal_times :
  let hs := [marker (-100); circle 1; circle 2; circle 2; circle 3; marker 100] in
  sorted time hs = true /\
  oshu_look_hit_back (game_at hs 4 4 0) 2 = Some 3%nat /\
  hs !! 2%nat = Some (circle 2) /\ (4 - 2 <= oshu_hit_end_time (circle 2))%Q /\
  oshu_look_hit_up (game_at hs 1 0 0) 2 = Some 2%nat /\
  hs !! 3%nat = Some (circle 2) /\ ~ (0 + 2 < time (circle 2))%Q.
Proof.
  cbv zeta. split; [reflexivity|]. split; [reflexivity|]. split; [reflexivity|].
  split; [apply Qle_bool_iff; reflexivity|]. split; [reflexivity|].
  split; [reflexivity|]. apply Qle_not_lt, Qle_bool_iff. reflexivity.
Qed.

(** ** The timeline of the specification *)

Lemma timeline5_increasing (lo hi : Q) :
  (lo < 1)%Q -> (8 < hi)%Q ->
  increasing oshu_hit_end_time (timeline5 lo hi) = true /\
  increasing time (timeline5 lo hi) = true.
Proof.
  intros Hlo Hhi. unfold timeline5. cbn [increasing].
  split; repeat (apply andb_true_iff; split); try reflexivity;
    apply Qltb_lt; assumption.
Qed.

(** Read the times of concrete hits. *)
Ltac hit_times := cbv [oshu_hit_end_time marker circle time type game_at now clock] in *.

(** C5, as the source has it. On point objects at 1, 2, 3, 5 and 8 between
    two sentinels, with [now = 4] and from any cursor of the list,
    [oshu_look_hit_back] with offset 2 returns the object at time 2 and
    [oshu_look_hit_up] with offset 2 returns the object at time 5. *)
Theorem look_hit_timeline5 (lo hi : Q) (c : nat) (st : Z) :
  (lo < 1)%Q -> (8 < hi)%Q -> (c < 7)%nat ->
  let g := game_at (timeline5 lo hi) c 4 st in
  oshu_look_hit_back g 2 = Some 2%nat /\
  timeline5 lo hi !! 2%nat = Some (circle 2) /\
  oshu_look_hit_up g 2 = Some 4%nat /\
  timeline5 lo hi !! 4%nat = Some (circle 5).
Proof.
  intros Hlo Hhi Hc. cbv zeta.
  destruct (timeline5_increasing lo hi Hlo Hhi) as [Hend Htime].
  split; [|split; [reflexivity|split; [|reflexivity]]].
  - destruct (look_hit_back_spec (game_at (timeline5 lo hi) c 4 st) 2
                (marker lo) (marker hi))
      as (r & h & -> & _ & _ & _ & Hfirst);
      [exact Hc | reflexivity | hit_times; lra | reflexivity | hit_times; lra |].
    f_equal. apply (first_at_least_unique _ _ _ _ _ (Hfirst Hend)).
    split.
    + exists (circle 2). split; [reflexivity|]. hit_times. lra.
    + intros [|[|k]] hk Hk; [| |lia]; intros [= <-]; hit_times; lra.
  - destruct (look_hit_up_spec (game_at (timeline5 lo hi) c 4 st) 2
                (marker lo) (marker hi))
      as (r & h & -> & _ & _ & _ & Hlast);
      [exact Hc | reflexivity | hit_times; lra | reflexivity | hit_times; lra |].
    f_equal. apply (last_at_most_unique _ _ _ _ _ (Hlast Htime)).
    split.
    + exists (circle 5). split; [reflexivity|]. hit_times. lra.
    + intros [|[|[|[|[|[|[|k]]]]]]] hk Hk; try lia; intros [= <-]; hit_times; lra.
Qed.

Lemma look_hit_timeline5_witness :
  oshu_look_hit_back (game_at (timeline5 (-100) 100) 4 4 0) 2 = Some 2%nat /\
  timeline5 (-100) 100 !! 2%nat = Some (circle 2) /\
  oshu_look_hit_up (game_at (timeline5 (-100) 100) 4 4 0) 2 = Some 4%nat /\
  timeline5 (-100) 100 !! 4%nat = Some (circle 5).
Proof.
  apply (look_hit_timeline5 (-100) 100 4 0).
  - reflexivity.
  - reflexivity.
  - lia.
Defined.

(** C5, as stated, fails: from every cursor of the list, looking back by 2
    at [now = 4] returns the object at time 2, not the object at time 3. *)
Lemma look_hit_back_timeline5_not_3 :
  Forall (fun c => oshu_look_hit_back (game_at (timeline5 (-100) 100) c 4 0) 2 = Some 2%nat)
    (seq 0 7) /\
  timeline5 (-100) 100 !! 2%nat = Some (circle 2) /\
  timeline5 (-100) 100 !! 3%nat = Some (circle 3) /\
  ~ (time (circle 2) == 3)%Q.
Proof.
  split; [repeat constructor|]. split; [reflexivity|]. split; [reflexivity|].
  discriminate.
Qed.

(** ** Rewinding and forwarding *)

Lemma times_lookup (hs : list oshu_hit) (k : nat) (h : oshu_hit) :
  hs !! k = Some h -> (time <$> hs) !! k = Some (time h).
Proof. intros H. now rewrite list_lookup_fmap, H. Qed.

Lemma times_lookup_inv (hs : list oshu_hit) (k : nat) (t : Q) :
  (time <$> hs) !! k = Some t -> exists h, hs !! k = Some h /\ time h = t.
Proof.
  rewrite list_lookup_fmap. destruct (hs !! k) as [h|]; [|discriminate].
  intros [= <-]. now exists h.
Qed.

Lemma times_transfer (hs hs' : list oshu_hit) (k : nat) (h : oshu_hit) :
  time <$> hs' = time <$> hs -> hs !! k = Some h ->
  exists h', hs' !! k = Some h' /\ time h' = time h.
Proof.
  intros Heq H. apply times_lookup_inv. rewrite Heq. now apply times_lookup.
Qed.

Lemma times_length (hs hs' : list oshu_hit) :
  time <$> hs' = time <$> hs -> length hs' = length hs.
Proof.
  intros Heq. rewrite <- (length_fmap time hs'), Heq. apply length_fmap.
Qed.

Lemma times_last (hs hs' : list oshu_hit) (tl : oshu_hit) :
  time <$> hs' = time <$> hs -> last hs = Some tl ->
  exists tl', last hs' = Some tl' /\ time tl' = time tl.
Proof.
  intros Heq. rewrite !last_lookup, (times_length hs hs' Heq).
  now apply times_transfer.
Qed.

Section Seeking.

Variable mode : oshu_game_mode.
Variable seek_stream : oshu_stream -> Q -> oshu_stream.
Hypothesis relinquish_schedule : keeps_schedule (relinquish mode).

Lemma at_loop_entry_cursor (target : Q) (g : oshu_game) :
  hit_cursor (at_loop_entry mode seek_stream target g) = hit_cursor g.
Proof.
  unfold at_loop_entry.
  now destruct (relinquish_schedule
    (reset_now (with_timestamp (current_timestamp (seek_stream (music (audio g)) target)) g)))
    as (-> & _).
Qed.

Lemma at_loop_entry_now (target : Q) (g : oshu_game) :
  now (clock (at_loop_entry mode seek_stream target g))
  = current_timestamp (seek_stream (music (audio g)) target).
Proof.
  unfold at_loop_entry.
  now destruct (relinquish_schedule
    (reset_now (with_timestamp (current_timestamp (seek_stream (music (audio g)) target)) g)))
    as (_ & -> & _).
Qed.

Lemma at_loop_entry_position (target : Q) (g : oshu_game) :
  current_timestamp (music (audio (at_loop_entry mode seek_stream target g)))
  = current_timestamp (seek_stream (music (audio g)) target).
Proof.
  unfold at_loop_entry.
  now destruct (relinquish_schedule
    (reset_now (with_timestamp (current_timestamp (seek_stream (music (audio g)) target)) g)))
    as (_ & _ & -> & _).
Qed.

Lemma at_loop_entry_times (target : Q) (g : oshu_game) :
  time <$> hits (beatmap (at_loop_entry mode seek_stream target g))
  = time <$> hits (beatmap g).
Proof.
  unfold at_loop_entry.
  now destruct (relinquish_schedule
    (reset_now (with_timestamp (current_timestamp (seek_stream (music (audio g)) target)) g)))
    as (_ & _ & _ & ->).
Qed.

(** A walk that rewrites states only keeps the times. *)
Lemma walk_keeps_times (hs hs' : list oshu_hit) (walked : nat -> Prop) (s : oshu_hit_state) :
  (forall k h, walked k -> hs !! k = Some h -> hs' !! k = Some (set_hit_state s h)) ->
  (forall k, ~ walked k -> hs' !! k = hs !! k) ->
  (forall k, walked k -> (k < length hs)%nat) ->
  (forall k, walked k \/ ~ walked k) ->
  time <$> hs' = time <$> hs.
Proof.
  intros Hw Hrest Hlt Hdec. apply list_eq. intros k. rewrite !list_lookup_fmap.
  destruct (Hdec k) as [Hk|Hk].
  - destruct (lookup_lt_is_Some_2 hs k (Hlt k Hk)) as [h Hh].
    now rewrite (Hw k h Hk Hh), Hh.
  - now rewrite Hrest.
Qed.

Lemma rewind_music_spec (offset : Q) (g : oshu_game) (hd : oshu_hit) :
  let hs := hits (beatmap g) in
  let c := hit_cursor g in
  let target := (current_timestamp (music (audio g)) - offset)%Q in
  let nw := current_timestamp (seek_stream (music (audio g)) target) in
  let g1 := at_loop_entry mode seek_stream target g in
  (c < length hs)%nat -> hs !! 0%nat = Some hd -> (time hd <= nw + 1)%Q ->
  exists g' tr, rewind_music mode seek_stream offset g = Some (g', tr) /\
    now (clock g') = nw /\ current_timestamp (music (audio g')) = nw /\
    time <$> hits (beatmap g') = time <$> hs /\
    (hit_cursor g' <= c)%nat /\
    (exists h, hits (beatmap g') !! hit_cursor g' = Some h /\ (time h <= nw + 1)%Q) /\
    (forall k h, (hit_cursor g' < k <= c)%nat -> hits (beatmap g1) !! k = Some h ->
       (nw + 1 < time h)%Q /\
       hits (beatmap g') !! k = Some (set_hit_state OSHU_INITIAL_HIT h)) /\
    (forall k, ~ (hit_cursor g' < k <= c)%nat ->
       hits (beatmap g') !! k = hits (beatmap g1) !! k).
Proof.
  cbv zeta. intros Hc Hhd Hhdt. rewrite rewind_music_eq. cbv zeta.
  set (target := (current_timestamp (music (audio g)) - offset)%Q).
  set (g1 := at_loop_entry mode seek_stream target g).
  pose proof (at_loop_entry_times target g) as Htimes. fold g1 in Htimes.
  destruct (times_transfer _ _ _ _ Htimes Hhd) as (hd1 & Hhd1 & Ehd1).
  pose proof (at_loop_entry_now target g) as Hnow.
  pose proof (at_loop_entry_cursor target g) as Hcur.
  pose proof (at_loop_entry_position target g) as Hpos.
  fold g1 in Hnow, Hcur, Hpos. rewrite Hnow, Hcur.
  set (nw := current_timestamp (seek_stream (music (audio g)) target)) in *.
  destruct (rewind_walk_spec nw (hit_cursor g) (hits (beatmap g1)) hd1)
    as (hs' & r & -> & Hr & (hr & Hhr & Htr) & Hwalked & Hrest);
    [rewrite (times_length _ _ Htimes); exact Hc | exact Hhd1 | now rewrite Ehd1 |].
  eexists _, _. split; [reflexivity|]. simpl.
  split; [exact Hnow|]. split; [exact Hpos|].
  split; [|split; [exact Hr|split; [|split; [exact Hwalked | exact Hrest]]]].
  - rewrite <- Htimes.
    apply (walk_keeps_times _ _ (fun k => r < k <= hit_cursor g)%nat OSHU_INITIAL_HIT).
    + intros k h Hk Hh. now apply Hwalked.
    + exact Hrest.
    + intros k Hk. rewrite (times_length _ _ Htimes). lia.
    + intros k. lia.
  - exists hr. rewrite Hrest by lia. auto.
Qed.

Lemma forward_music_spec (offset : Q) (g : oshu_game) (tl : oshu_hit) :
  let hs := hits (beatmap g) in
  let c := hit_cursor g in
  let target := (current_timestamp (music (audio g)) + offset)%Q in
  let nw := current_timestamp (seek_stream (music (audio g)) target) in
  let g1 := at_loop_entry mode seek_stream target g in
  (c < length hs)%nat -> last hs = Some tl -> (nw + 1 <= time tl)%Q ->
  exists g' tr, forward_music mode seek_stream offset g = Some (g', tr) /\
    now (clock g') = nw /\ current_timestamp (music (audio g')) = nw /\
    time <$> hits (beatmap g') = time <$> hs /\
    (c <= hit_cursor g')%nat /\
    (exists h, hits (beatmap g') !! hit_cursor g' = Some h /\ (nw + 1 <= time h)%Q) /\
    (forall k h, (c <= k < hit_cursor g')%nat -> hits (beatmap g1) !! k = Some h ->
       (time h < nw + 1)%Q /\
       hits (beatmap g') !! k = Some (set_hit_state OSHU_SKIPPED_HIT h)) /\
    (forall k, ~ (c <= k < hit_cursor g')%nat ->
       hits (beatmap g') !! k = hits (beatmap g1) !! k).
Proof.
  cbv zeta. intros Hc Htl Htlt. rewrite forward_music_eq. cbv zeta.
  set (target := (current_timestamp (music (audio g)) + offset)%Q).
  set (g1 := at_loop_entry mode seek_stream target g).
  pose proof (at_loop_entry_times target g) as Htimes. fold g1 in Htimes.
  destruct (times_last _ _ _ Htimes Htl) as (tl1 & Htl1 & Etl1).
  rewrite last_lookup in Htl1.
  pose proof (at_loop_entry_now target g) as Hnow.
  pose proof (at_loop_entry_cursor target g) as Hcur.
  pose proof (at_loop_entry_position target g) as Hpos.
  fold g1 in Hnow, Hcur, Hpos. rewrite Hnow, Hcur.
  set (nw := current_timestamp (seek_stream (music (audio g)) target)) in *.
  destruct (forward_walk_spec nw tl1) with
    (left := (length (hits (beatmap g1)) - hit_cursor g)%nat)
    (i := hit_cursor g) (hs := hits (beatmap g1))
    as (hs' & r & -> & Hr & (hr & Hhr & Htr) & Hwalked & Hrest);
    [now rewrite Etl1 | exact Htl1 | reflexivity
    | rewrite (times_length _ _ Htimes); exact Hc |].
  eexists _, _. split; [reflexivity|]. simpl.
  split; [exact Hnow|]. split; [exact Hpos|].
  split; [|split; [exact Hr|split; [|split; [exact Hwalked | exact Hrest]]]].
  - rewrite <- Htimes.
    apply (walk_keeps_times _ _ (fun k => hit_cursor g <= k < r)%nat OSHU_SKIPPED_HIT).
    + intros k h Hk Hh. now apply Hwalked.
    + exact Hrest.
    + intros k Hk. apply lookup_lt_Some in Hhr. lia.
    + intros k. lia.
  - exists hr. rewrite Hrest by lia. auto.
Qed.

End Seeking.

(** C6, as the claim states it, is not what [rewind_music] does.  A slider
    is held at the cursor, 3 seconds in; the music is rewound by 1 second, as
    [unpause_game] does.  No object is walked, the cursor does not move, and
    yet the slider is no longer sliding: [relinquish], which [rewind_music]
    calls before its loop, released it, whichever state a release leaves. *)
Lemma rewind_music_releases_unwalked :
  let g := game_at held_timeline 3 6 (Z.lor OSHU_USERPLAY OSHU_PLAYING) in
  Forall (fun released =>
    exists g' tr,
      rewind_music (releasing_mode released) seek_exactly 1 g = Some (g', tr) /\
      hit_cursor g' = hit_cursor g /\
      state <$> hits (beatmap g) !! 3%nat = Some OSHU_SLIDING_HIT /\
      state <$> hits (beatmap g') !! 3%nat = Some released)
    [OSHU_INITIAL_HIT; OSHU_GOOD_HIT; OSHU_MISSED_HIT; OSHU_SKIPPED_HIT].
Proof.
  cbv zeta.
  repeat (apply Forall_cons; split;
    [eexists _, _; split; [vm_compute; reflexivity|]; split; [reflexivity|];
     split; reflexivity|]).
  apply Forall_nil. exact I.
Qed.

(** C6, as the source has it. With [now] the position the stream landed on:
    [rewind_music] leaves in the initial state every object it walks back
    over, all of them after [now + 1], and leaves the cursor on the nearest
    object at or before the old cursor whose time is at most [now + 1];
    [forward_music] leaves skipped every object it walks over, all of them
    before [now + 1], and leaves the cursor on the first object from the old
    cursor on whose time is at least [now + 1].  Both call the mode's
    [relinquish] before they walk: a walked object is the one [relinquish]
    left with its new state, an object that is not walked is as [relinquish]
    left it, and so as it was before the call when [relinquish] did not
    touch it.  No time changes.  The sentinels are what stops the walks. *)
Theorem seek_music_walks (mode : oshu_game_mode)
    (seek_stream : oshu_stream -> Q -> oshu_stream)
    (offset : Q) (g : oshu_game) (hd tl : oshu_hit) :
  let hs := hits (beatmap g) in
  let c := hit_cursor g in
  let position := current_timestamp (music (audio g)) in
  keeps_schedule (relinquish mode) ->
  (c < length hs)%nat -> hs !! 0%nat = Some hd -> last hs = Some tl ->
  (let target := (position - offset)%Q in
   let nw := current_timestamp (seek_stream (music (audio g)) target) in
   let g1 := at_loop_entry mode seek_stream target g in
   (time hd <= nw + 1)%Q ->
   exists g' tr, rewind_music mode seek_stream offset g = Some (g', tr) /\
     now (clock g') = nw /\
     time <$> hits (beatmap g') = time <$> hs /\
     (hit_cursor g' <= c)%nat /\
     (exists h, hits (beatmap g') !! hit_cursor g' = Some h /\ (time h <= nw + 1)%Q) /\
     (forall k h, (hit_cursor g' < k <= c)%nat -> hs !! k = Some h ->
        (nw + 1 < time h)%Q /\
        exists h', hits (beatmap g') !! k = Some h' /\
          state h' = OSHU_INITIAL_HIT /\ time h' = time h) /\
     (forall k h, (hit_cursor g' < k <= c)%nat -> hits (beatmap g1) !! k = Some h ->
        hits (beatmap g') !! k = Some (set_hit_state OSHU_INITIAL_HIT h)) /\
     (forall k, ~ (hit_cursor g' < k <= c)%nat ->
        hits (beatmap g') !! k = hits (beatmap g1) !! k) /\
     (forall k, ~ (hit_cursor g' < k <= c)%nat ->
        hits (beatmap g1) !! k = hs !! k ->
        hits (beatmap g') !! k = hs !! k)) /\
  (let target := (position + offset)%Q in
   let nw := current_timestamp (seek_stream (music (audio g)) target) in
   let g1 := at_loop_entry mode seek_stream target g in
   (nw + 1 <= time tl)%Q ->
   exists g' tr, forward_music mode seek_stream offset g = Some (g', tr) /\
     now (clock g') = nw /\
     time <$> hits (beatmap g') = time <$> hs /\
     (c <= hit_cursor g')%nat /\
     (exists h, hits (beatmap g') !! hit_cursor g' = Some h /\ (nw + 1 <= time h)%Q) /\
     (forall k h, (c <= k < hit_cursor g')%nat -> hs !! k = Some h ->
        (time h < nw + 1)%Q /\
        exists h', hits (beatmap g') !! k = Some h' /\
          state h' = OSHU_SKIPPED_HIT /\ time h' = time h) /\
     (forall k h, (c <= k < hit_cursor g')%nat -> hits (beatmap g1) !! k = Some h ->
        hits (beatmap g') !! k = Some (set_hit_state OSHU_SKIPPED_HIT h)) /\
     (forall k, ~ (c <= k < hit_cursor g')%nat ->
        hits (beatmap g') !! k = hits (beatmap g1) !! k) /\
     (forall k, ~ (c <= k < hit_cursor g')%nat ->
        hits (beatmap g1) !! k = hs !! k ->
        hits (beatmap g') !! k = hs !! k)).
Proof.
  cbv zeta. intros Hmode Hc Hhd Htl. split.
  - intros Hhdt.
    destruct (rewind_music_spec mode seek_stream Hmode offset g hd Hc Hhd Hhdt)
      as (g' & tr & Hrun & Hnow & _ & Htimes & Hcur & Hon & Hwalked & Hrest).
    pose proof (at_loop_entry_times mode seek_stream Hmode
      (current_timestamp (music (audio g)) - offset)%Q g) as Hentry.
    exists g', tr.
    split; [exact Hrun|]. split; [exact Hnow|]. split; [exact Htimes|].
    split; [exact Hcur|]. split; [exact Hon|].
    split; [|split; [|split]].
    + intros k h Hk Hh.
      destruct (times_transfer _ _ k h Hentry Hh) as (h1 & Hh1 & Etime).
      destruct (Hwalked k h1 Hk Hh1) as [Hlate Hreset].
      split; [now rewrite <- Etime|].
      exists (set_hit_state OSHU_INITIAL_HIT h1).
      split; [exact Hreset|]. split; [reflexivity | exact Etime].
    + intros k h Hk Hh. exact (proj2 (Hwalked k h Hk Hh)).
    + exact Hrest.
    + intros k Hk Hsame. rewrite <- Hsame. now apply Hrest.
  - intros Htlt.
    destruct (forward_music_spec mode seek_stream Hmode offset g tl Hc Htl Htlt)
      as (g' & tr & Hrun & Hnow & _ & Htimes & Hcur & Hon & Hwalked & Hrest).
    pose proof (at_loop_entry_times mode seek_stream Hmode
      (current_timestamp (music (audio g)) + offset)%Q g) as Hentry.
    exists g', tr.
    split; [exact Hrun|]. split; [exact Hnow|]. split; [exact Htimes|].
    split; [exact Hcur|]. split; [exact Hon|].
    split; [|split; [|split]].
    + intros k h Hk Hh.
      destruct (times_transfer _ _ k h Hentry Hh) as (h1 & Hh1 & Etime).
      destruct (Hwalked k h1 Hk Hh1) as [Hearly Hskip].
      split; [now rewrite <- Etime|].
      exists (set_hit_state OSHU_SKIPPED_HIT h1).
      split; [exact Hskip|]. split; [reflexivity | exact Etime].
    + intros k h Hk Hh. exact (proj2 (Hwalked k h Hk Hh)).
    + exact Hrest.
    + intros k Hk Hsame. rewrite <- Hsame. now apply Hrest.
Qed.

Lemma idle_mode_keeps_schedule : keeps_schedule (relinquish idle_mode).
Proof. intros g. repeat split. Defined.

Lemma releasing_mode_keeps_schedule (released : oshu_hit_state) :
  keeps_schedule (relinquish (releasing_mode released)).
Proof.
  intros g. split; [reflexivity|]. split; [reflexivity|]. split; [reflexivity|].
  simpl. induction (hits (beatmap g)) as [|h hs IH]; [reflexivity|].
  simpl. f_equal; [|exact IH].
  unfold release_held. destruct (state h); reflexivity.
Defined.

Lemma seek_music_walks_witness :
  let g := game_at held_timeline 3 6 (Z.lor OSHU_USERPLAY OSHU_PLAYING) in
  (exists g' tr,
     rewind_music (releasing_mode OSHU_INITIAL_HIT) seek_exactly 6 g = Some (g', tr) /\
     hit_cursor g' = 1%nat /\
     state <$> hits (beatmap g') !! 2%nat = Some OSHU_INITIAL_HIT /\
     state <$> hits (beatmap g') !! 1%nat = Some OSHU_GOOD_HIT) /\
  (exists g' tr,
     forward_music (releasing_mode OSHU_INITIAL_HIT) seek_exactly 1 g = Some (g', tr) /\
     hit_cursor g' = 4%nat /\
     state <$> hits (beatmap g') !! 3%nat = Some OSHU_SKIPPED_HIT /\
     state <$> hits (beatmap g') !! 4%nat = Some OSHU_INITIAL_HIT).
Proof.
  cbv zeta. split.
  - destruct (proj1 (seek_music_walks (releasing_mode OSHU_INITIAL_HIT) seek_exactly 6
        (game_at held_timeline 3 6 (Z.lor OSHU_USERPLAY OSHU_PLAYING))
        (marker (-100)) (marker 100)
        (releasing_mode_keeps_schedule OSHU_INITIAL_HIT)
        ltac:(simpl; lia) eq_refl eq_refl))
      as (g' & tr & Hrun & _ & _ & _ & _ & Hwalked & _ & _ & Hkept).
    + apply Qle_bool_iff. reflexivity.
    + assert (Hcursor : hit_cursor g' = 1%nat).
      { vm_compute in Hrun. now injection Hrun as <- _. }
      exists g', tr. split; [exact Hrun|]. split; [exact Hcursor|]. split.
      * destruct (Hwalked 2%nat (Hit 2 OSHU_CIRCLE_HIT OSHU_GOOD_HIT))
          as (_ & h' & Hh' & Hstate & _); [rewrite Hcursor; simpl; lia | reflexivity|].
        rewrite Hh'. simpl. now rewrite Hstate.
      * rewrite (Hkept 1%nat); [reflexivity | rewrite Hcursor; simpl; lia | reflexivity].
  - destruct (proj2 (seek_music_walks (releasing_mode OSHU_INITIAL_HIT) seek_exactly 1
        (game_at held_timeline 3 6 (Z.lor OSHU_USERPLAY OSHU_PLAYING))
        (marker (-100)) (marker 100)
        (releasing_mode_keeps_schedule OSHU_INITIAL_HIT)
        ltac:(simpl; lia) eq_refl eq_refl))
      as (g' & tr & Hrun & _ & _ & _ & _ & Hwalked & _ & _ & Hkept).
    + apply Qle_bool_iff. reflexivity.
    + assert (Hcursor : hit_cursor g' = 4%nat).
      { vm_compute in Hrun. now injection Hrun as <- _. }
      exists g', tr. split; [exact Hrun|]. split; [exact Hcursor|]. split.
      * destruct (Hwalked 3%nat (Hit 3 (OSHU_SLIDER_HIT 6) OSHU_SLIDING_HIT))
          as (_ & h' & Hh' & Hstate & _); [rewrite Hcursor; simpl; lia | reflexivity|].
        rewrite Hh'. simpl. now rewrite Hstate.
      * rewrite (Hkept 4%nat); [reflexivity | rewrite Hcursor; simpl; lia | reflexivity].
Defined.

(** C7, as the source has it. With a stream that seeks exactly, a sorted
    timeline between sentinels and a positive offset, [rewind_music] followed
    by [forward_music] brings [now] back to the audio position the pair
    started from and leaves the cursor on the first object of the list whose
    time is at least that position plus one second.  The cursor is back on
    the object it started on exactly when it started on that object. *)
Theorem rewind_then_forward (mode : oshu_game_mode)
    (seek_stream : oshu_stream -> Q -> oshu_stream)
    (offset : Q) (g : oshu_game) (hd tl : oshu_hit) :
  let hs := hits (beatmap g) in
  let position := current_timestamp (music (audio g)) in
  exact_seek seek_stream -> keeps_schedule (relinquish mode) ->
  sorted time hs = true -> (0 < offset)%Q ->
  (hit_cursor g < length hs)%nat ->
  hs !! 0%nat = Some hd -> (time hd <= position - offset + 1)%Q ->
  last hs = Some tl -> (position + 1 <= time tl)%Q ->
  exists g' tr,
    andthen (rewind_music mode seek_stream offset)
            (forward_music mode seek_stream offset) g = Some (g', tr) /\
    (now (clock g') == position)%Q /\
    first_at_least time (position + 1) hs (hit_cursor g') /\
    (hit_cursor g' = hit_cursor g <->
     first_at_least time (position + 1) hs (hit_cursor g)).
Proof.
  cbv zeta. intros Hexact Hmode Hsorted Hoff Hc Hhd Hhdt Htl Htlt.
  set (a := current_timestamp (music (audio g))) in *.
  destruct (rewind_music_spec mode seek_stream Hmode offset g hd Hc Hhd)
    as (g2 & tr2 & Hrew & _ & Hpos2 & Htimes2 & Hc2 & (h1 & Hh1 & Hh1t) & _ & _);
    [rewrite Hexact; exact Hhdt|].
  rewrite Hexact in Hpos2, Hh1t. fold a in Hpos2, Hh1t.
  destruct (times_last _ _ _ Htimes2 Htl) as (tl2 & Htl2 & Etl2).
  destruct (forward_music_spec mode seek_stream Hmode offset g2 tl2)
    as (g3 & tr3 & Hfwd & Hnow3 & _ & Htimes3 & Hc3 & (h3 & Hh3 & Hh3t) & Hwalked & _);
    [apply lookup_lt_Some in Hh1; exact Hh1 | exact Htl2
    | rewrite Hexact, Hpos2, Etl2; lra |].
  rewrite Hexact, Hpos2 in Hnow3, Hh3t, Hwalked.
  pose proof (at_loop_entry_times mode seek_stream Hmode (a - offset + offset) g2) as Htimes2'.
  assert (Hfirst : first_at_least time (a + 1) (hits (beatmap g)) (hit_cursor g3)).
  { split.
    - destruct (times_transfer (hits (beatmap g3)) (hits (beatmap g))
                  (hit_cursor g3) h3) as (h & Hh & Eh);
        [now rewrite Htimes3, Htimes2 | exact Hh3 |].
      exists h. split; [exact Hh|]. rewrite Eh. lra.
    - intros k hk Hk Hhk. destruct (le_lt_dec (hit_cursor g2) k) as [Hge|Hlt].
      + destruct (times_transfer (hits (beatmap g))
                    (hits (beatmap (at_loop_entry mode seek_stream (a - offset + offset) g2)))
                    k hk) as (h & Hh & Eh);
          [now rewrite Htimes2', Htimes2 | exact Hhk |].
        destruct (Hwalked k h) as [Hlt _]; [lia | exact Hh |].
        rewrite <- Eh. lra.
      + destruct (times_transfer (hits (beatmap g2)) (hits (beatmap g))
                    (hit_cursor g2) h1) as (h & Hh & Eh);
          [now rewrite Htimes2 | exact Hh1 |].
        pose proof (sorted_lookup time _ Hsorted k (hit_cursor g2) hk h
                      ltac:(lia) Hhk Hh) as Hle.
        rewrite Eh in Hle. lra. }
  exists g3, (tr2 ++ tr3). split; [|split; [|split]].
  - apply andthen_Some. exists g2, tr2, tr3. auto.
  - rewrite Hnow3. ring.
  - exact Hfirst.
  - split.
    + intros <-. exact Hfirst.
    + intros Hstart. eapply first_at_least_unique; eassumption.
Qed.

Lemma seek_exactly_exact : exact_seek seek_exactly.
Proof. intros s t. reflexivity. Defined.

Lemma rewind_then_forward_witness :
  let g := game_at (timeline5 (-100) 100) 4 4 (Z.lor OSHU_USERPLAY OSHU_PLAYING) in
  exists g' tr,
    andthen (rewind_music idle_mode seek_exactly 10)
            (forward_music idle_mode seek_exactly 10) g = Some (g', tr) /\
    first_at_least time (4 + 1) (timeline5 (-100) 100) (hit_cursor g').
Proof.
  cbv zeta.
  destruct (rewind_then_forward idle_mode seek_exactly 10
              (game_at (timeline5 (-100) 100) 4 4 (Z.lor OSHU_USERPLAY OSHU_PLAYING))
              (marker (-100)) (marker 100))
    as (g' & tr & Hrun & _ & Hfirst & _).
  - exact seek_exactly_exact.
  - exact idle_mode_keeps_schedule.
  - reflexivity.
  - reflexivity.
  - simpl. lia.
  - reflexivity.
  - apply Qle_bool_iff. reflexivity.
  - reflexivity.
  - apply Qle_bool_iff. reflexivity.
  - exists g', tr. split; [exact Hrun | exact Hfirst].
Defined.

(** C7, as stated, fails: the audio and the clock at 4.5, the cursor on the
    object at 5, half a second ahead.  Rewinding by 10 and forwarding by 10
    with an exact seek brings [now] back to 4.5 and leaves the cursor on the
    object at 8: the object at 5 is within the second that [forward_music]
    skips. *)
Lemma rewind_then_forward_moves_cursor :
  let g := game_at (timeline5 (-100) 100) 4 (9 # 2) (Z.lor OSHU_USERPLAY OSHU_PLAYING) in
  exists g' tr,
    andthen (rewind_music idle_mode seek_exactly 10)
            (forward_music idle_mode seek_exactly 10) g = Some (g', tr) /\
    (now (clock g') == now (clock g))%Q /\
    hit_cursor g = 4%nat /\ hit_cursor g' = 5%nat /\
    state <$> hits (beatmap g') !! 4%nat = Some OSHU_SKIPPED_HIT.
Proof.
  cbv zeta. eexists _, _. split; [vm_compute; reflexivity|].
  split; [reflexivity|]. split; [reflexivity|]. split; reflexivity.
Qed.

(** * The rest of game.c *)

(** ** Truncation *)

Lemma Qtrunc_floor (q : Q) : (0 <= q)%Q -> Qtrunc q = Qfloor q.
Proof.
  destruct q as [n d]. unfold Qle, Qtrunc, Qfloor. simpl. intros H.
  apply Z.quot_div_nonneg; lia.
Qed.

Lemma Qtrunc_opp (q : Q) : Qtrunc (- q) = - Qtrunc q.
Proof.
  destruct q as [n d]. unfold Qtrunc. simpl. now apply Z.quot_opp_l.
Qed.

Lemma Qtrunc_bounds_nonneg (q : Q) :
  (0 <= q)%Q ->
  0 <= Qtrunc q /\ (inject_Z (Qtrunc q) <= q)%Q /\ (q < inject_Z (Qtrunc q) + 1)%Q.
Proof.
  intros H. rewrite (Qtrunc_floor q H). split; [|split].
  - change 0 with (Qfloor 0). now apply Qfloor_resp_le.
  - apply Qfloor_le.
  - pose proof (Qlt_floor q) as H1. rewrite inject_Z_plus in H1. exact H1.
Qed.

Lemma Qtrunc_bounds_nonpos (q : Q) :
  (q <= 0)%Q ->
  Qtrunc q <= 0 /\ (inject_Z (Qtrunc q) - 1 < q)%Q /\ (q <= inject_Z (Qtrunc q))%Q.
Proof.
  intros H.
  destruct (Qtrunc_bounds_nonneg (- q)) as (H0 & Hle & Hlt); [lra|].
  rewrite Qtrunc_opp in *. rewrite inject_Z_opp in *.
  split; [lia|]. split; lra.
Qed.

Lemma Qtrunc_unique (q : Q) (z : Z) :
  (0 <= q)%Q -> (inject_Z z <= q)%Q -> (q < inject_Z z + 1)%Q -> Qtrunc q = z.
Proof.
  intros H0 Hle Hlt.
  destruct (Qtrunc_bounds_nonneg q H0) as (_ & Hle' & Hlt').
  assert (z < Qtrunc q + 1).
  { rewrite Zlt_Qlt, inject_Z_plus. change (inject_Z 1) with 1%Q. lra. }
  assert (Qtrunc q < z + 1).
  { rewrite Zlt_Qlt, inject_Z_plus. change (inject_Z 1) with 1%Q. lra. }
  lia.
Qed.

Lemma double_to_int_Some (q : Q) (z : Z) :
  double_to_int q = Some z -> z = Qtrunc q.
Proof.
  unfold double_to_int. destruct (_ && _); [|discriminate]. now intros [= <-].
Qed.

(** ** The clock at the creation of the game *)

(** X1. With a lead-in, the clock starts at minus the lead-in.  Without, it
    starts one second before the first object when that object is less than
    a second in, and is left alone otherwise: a clock that was not positive
    stays so and leaves at least a second before the first object.  Without
    a lead-in and without a node after the head, nothing is returned.  The
    beatmap, the cursor and the state are never touched. *)
Theorem create_game_clock_spec (audio_lead_in : Q) (g : oshu_game) :
  ((0 < audio_lead_in)%Q ->
     exists g', create_game_clock audio_lead_in g = Some g' /\
       now (clock g') = (- audio_lead_in)%Q) /\
  ((audio_lead_in <= 0)%Q -> forall first, hits (beatmap g) !! 1%nat = Some first ->
     exists g', create_game_clock audio_lead_in g = Some g' /\
       (now (clock g') = now (clock g) /\ (1 <= time first)%Q \/
        now (clock g') = (time first - 1)%Q /\ (time first < 1)%Q) /\
       ((now (clock g) <= 0)%Q ->
        (now (clock g') <= 0)%Q /\ (now (clock g') + 1 <= time first)%Q)) /\
  ((audio_lead_in <= 0)%Q -> (length (hits (beatmap g)) < 2)%nat ->
     create_game_clock audio_lead_in g = None) /\
  (forall g', create_game_clock audio_lead_in g = Some g' ->
     beatmap g' = beatmap g /\ hit_cursor g' = hit_cursor g /\
     game_state g' = game_state g /\ audio g' = audio g).
Proof.
  unfold create_game_clock, next_hit. split; [|split; [|split]].
  - intros H. rewrite (proj2 (Qltb_lt _ _) H). eauto.
  - intros H first Hfirst. rewrite (proj2 (Qltb_ge _ _) H).
    rewrite decide_True by (apply lookup_lt_Some in Hfirst; lia).
    simpl. rewrite Hfirst.
    destruct (Qltb (time first) 1) eqn:E.
    + apply Qltb_lt in E. eexists. split; [reflexivity|]. simpl.
      split; [right; split; [reflexivity | exact E]|]. intros _. split; lra.
    + apply Qltb_ge in E. exists g. split; [reflexivity|].
      split; [left; split; [reflexivity | exact E]|]. intros H0. split; lra.
  - intros H Hlen. rewrite (proj2 (Qltb_ge _ _) H).
    rewrite decide_False by lia. reflexivity.
  - intros g'. destruct (Qltb 0 audio_lead_in); [now intros [= <-]|].
    destruct (_ ≫= _) as [first|]; [|discriminate].
    destruct (Qltb _ _); now intros [= <-].
Qed.

Lemma create_game_clock_spec_witness :
  let g := game_at (timeline5 (-100) 100) 0 0 OSHU_USERPLAY in
  exists g', create_game_clock 0 g = Some g' /\
    (now (clock g') <= 0)%Q /\ (now (clock g') + 1 <= time (circle 1))%Q.
Proof.
  cbv zeta.
  destruct (proj1 (proj2 (create_game_clock_spec 0
              (game_at (timeline5 (-100) 100) 0 0 OSHU_USERPLAY)))
              ltac:(discriminate) (circle 1) eq_refl)
    as (g' & Hrun & _ & Hbound).
  exists g'. split; [exact Hrun|]. apply Hbound. discriminate.
Defined.

(** ** The status line *)

Lemma minutes_seconds (t : Q) :
  let minutes := Qtrunc (t / 60) in
  let seconds := (t - inject_Z minutes * 60)%Q in
  (inject_Z minutes * 60 + seconds == t)%Q /\
  ((0 <= t)%Q -> 0 <= minutes /\ (0 <= seconds)%Q /\ (seconds < 60)%Q) /\
  ((t <= 0)%Q -> minutes <= 0 /\ (-60 < seconds)%Q /\ (seconds <= 0)%Q).
Proof.
  cbv zeta. set (x := (t / 60)%Q).
  assert (Hx : (t == x * 60)%Q) by (unfold x; field).
  split; [ring|]. split; intros Ht.
  - destruct (Qtrunc_bounds_nonneg x) as (H0 & Hle & Hlt); [lra|].
    split; [exact H0|]. split; lra.
  - destruct (Qtrunc_bounds_nonpos x) as (H0 & Hlt & Hle); [lra|].
    split; [exact H0|]. split; lra.
Qed.

(** X2. The minutes and seconds that [dump_state] prints add up to the time
    they come from, for the position as for the duration.  For a time that
    is not negative the seconds are in [0, 60); during the lead-in, where
    [now] is negative, the minutes and the seconds are both at most zero,
    the seconds above -60. *)
Theorem dump_state_line_spec (duration : Q) (g : oshu_game) (line : status_line) :
  dump_state_line true duration g = Some (Some line) ->
  let t := now (clock g) in
  let m := status_minutes line in
  let s := status_seconds line in
  let dm := status_duration_minutes line in
  let ds := status_duration_seconds line in
  (inject_Z m * 60 + s == t)%Q /\
  ((0 <= t)%Q -> 0 <= m /\ (0 <= s)%Q /\ (s < 60)%Q) /\
  ((t <= 0)%Q -> m <= 0 /\ (-60 < s)%Q /\ (s <= 0)%Q) /\
  (inject_Z dm * 60 + ds == duration)%Q /\
  ((0 <= duration)%Q -> 0 <= dm /\ (0 <= ds)%Q /\ (ds < 60)%Q).
Proof.
  unfold dump_state_line. simpl.
  destruct (double_to_int (now (clock g) / 60)) as [m|] eqn:Em; [|discriminate].
  destruct (double_to_int (duration / 60)) as [dm|] eqn:Edm; [|discriminate].
  intros [= <-]. cbv zeta. simpl.
  apply double_to_int_Some in Em, Edm. subst m dm.
  destruct (minutes_seconds (now (clock g))) as (H1 & H2 & H3).
  destruct (minutes_seconds duration) as (H4 & H5 & _).
  auto 10.
Qed.

Lemma dump_state_line_spec_witness :
  let g := game_at [] 0 (- (3 # 2)) OSHU_PLAYING in
  exists line, dump_state_line true 200 g = Some (Some line) /\
    status_minutes line <= 0 /\ (status_seconds line <= 0)%Q /\
    status_duration_minutes line = 3.
Proof.
  cbv zeta. eexists. split; [reflexivity|].
  destruct (dump_state_line_spec 200 (game_at [] 0 (- (3 # 2)) OSHU_PLAYING) _ eq_refl)
    as (_ & _ & H & _).
  destruct H as (Hm & _ & Hs); [discriminate|].
  split; [exact Hm|]. split; [exact Hs | reflexivity].
Defined.

(** ** The score *)

Lemma count_hits_spec (hs : list oshu_hit) :
  forall good missed, exists a b,
    count_hits hs good missed = (good + a, missed + b) /\
    0 <= a /\ 0 <= b /\ a + b <= Z.of_nat (length hs).
Proof.
  induction hs as [|hit rest IH]; intros good missed; simpl.
  - exists 0, 0. rewrite !Z.add_0_r. repeat split; lia.
  - destruct (state hit).
    1, 2, 5: destruct (IH good missed) as (a & b & -> & ? & ? & ?);
      exists a, b; repeat split; lia.
    + destruct (IH (good + 1) missed) as (a & b & -> & ? & ? & ?).
      exists (1 + a), b. split; [f_equal; lia|]. repeat split; lia.
    + destruct (IH good (missed + 1)) as (a & b & -> & ? & ? & ?).
      exists a, (1 + b). split; [f_equal; lia|]. repeat split; lia.
Qed.

Lemma score_rate_spec (good missed : Z) (r : Q) :
  0 <= good -> 0 <= missed -> score_rate good missed = Some r ->
  ((9 # 10 <= r)%Q <-> 0 < good /\ 9 * missed <= good) /\
  ((r < 1 # 2)%Q <-> good < missed).
Proof.
  intros Hg Hm. unfold score_rate.
  destruct (Z.eqb_spec (good + missed) 0) as [|Hne]; [discriminate|].
  intros [= <-].
  destruct (good + missed) as [|total|total] eqn:Et; [lia| |lia].
  rewrite <- Qmake_Qdiv. unfold Qle, Qlt. simpl. lia.
Qed.

Lemma colour_if (b : bool) (c : Z) :
  c <> 0 ->
  ((if b then c else 0) = c \/ (if b then c else 0) = 0) /\
  ((if b then c else 0) = c <-> b = true).
Proof.
  intros Hc. destruct b; split; auto; split; auto; intros; congruence.
Qed.

(** X3. The score that [end] prints: the two counts are not negative and
    add up to at most the number of nodes.  The good hits are printed green
    (32) exactly when there is one and they are at least nine times the
    misses, that is at least nine in ten of the judged hits; the misses are
    printed red (31) exactly when they outnumber the good hits.  Otherwise
    the colour is 0; with nothing judged both are. *)
Theorem end_report_colours (g : oshu_game) :
  let r := end_report g in
  0 <= good_count r /\ 0 <= miss_count r /\
  good_count r + miss_count r <= Z.of_nat (length (hits (beatmap g))) /\
  (good_colour r = 32 \/ good_colour r = 0) /\
  (good_colour r = 32 <-> 0 < good_count r /\ 9 * miss_count r <= good_count r) /\
  (miss_colour r = 31 \/ miss_colour r = 0) /\
  (miss_colour r = 31 <-> good_count r < miss_count r).
Proof.
  cbv zeta. unfold end_report.
  destruct (count_hits_spec (hits (beatmap g)) 0 0) as (good & missed & -> & Hg & Hm & Hlen).
  rewrite !Z.add_0_l. simpl.
  split; [exact Hg|]. split; [exact Hm|]. split; [exact Hlen|].
  destruct (score_rate good missed) as [r|] eqn:Er.
  - destruct (score_rate_spec good missed r Hg Hm Er) as [Hgreen Hred].
    destruct (colour_if (Qle_bool (9 # 10) r) 32) as [Hg1 Hg2]; [discriminate|].
    destruct (colour_if (Qltb r (1 # 2)) 31) as [Hr1 Hr2]; [discriminate|].
    rewrite Qle_bool_iff, Hgreen in Hg2. rewrite Qltb_lt, Hred in Hr2.
    auto.
  - unfold score_rate in Er.
    destruct (Z.eqb_spec (good + missed) 0) as [E|]; [|discriminate].
    split; [auto|]. split; [split; [discriminate | lia]|].
    split; [auto|]. split; [discriminate | lia].
Qed.

(** ** The end of the song, again *)

Lemma check_end_again (g g1 : oshu_game) (t1 : list effect) :
  check_end g = Some (g1, t1) -> check_end g1 = Some (g1, []).
Proof.
  intros H. pose proof H as H'. unfold check_end in H'.
  destruct (has_flag (game_state g) OSHU_FINISHED) eqn:Ef.
  - injection H' as <- <-. exact H.
  - destruct (cursor_has_next g) as [[]|]; [| |discriminate].
    + injection H' as <- <-. exact H.
    + destruct (_ ≫= _) as [last|]; [|discriminate].
      destruct (Qgtb _ _).
      * injection H' as <- <-. reflexivity.
      * injection H' as <- <-. exact H.
Qed.

(** X4. Running [check_end] twice in a row is running it once: once the
    game is finished the score is not printed again. *)
Theorem check_end_idempotent (g : oshu_game) :
  andthen check_end check_end g = check_end g.
Proof.
  unfold andthen. destruct (check_end g) as [[g1 t1]|] eqn:E; [|reflexivity].
  rewrite (check_end_again g g1 t1 E). now rewrite app_nil_r.
Qed.

(** ** The flags that survive the events *)

Lemma flags_kept_state (g g' : oshu_game) :
  game_state g' = game_state g -> flags_kept g g'.
Proof. intros E. unfold flags_kept. rewrite E. auto. Qed.

Lemma flags_kept_stopping (g g' : oshu_game) :
  game_state g' = set_flag (game_state g) OSHU_STOPPING -> flags_kept g g'.
Proof. intros E. unfold flags_kept. rewrite E. flag_bits. auto. Qed.

Lemma flags_kept_pause (g g' : oshu_game) :
  game_state g' = clear_flag (set_flag (game_state g) OSHU_PAUSED) OSHU_PLAYING ->
  flags_kept g g'.
Proof.
  intros E. unfold flags_kept. rewrite E. flag_bits. auto.
Qed.

Lemma flags_kept_unpause (g g' : oshu_game) :
  game_state g' = set_flag (clear_flag (game_state g) OSHU_PAUSED) OSHU_PLAYING ->
  flags_kept g g'.
Proof.
  intros E. unfold flags_kept. rewrite E. flag_bits. auto.
Qed.

Section Flags.

Variable mode : oshu_game_mode.
Variable seek_stream : oshu_stream -> Q -> oshu_stream.
Hypothesis relinquish_state : keeps_state (relinquish mode).
Hypothesis press_state : forall k, keeps_state (press mode k).
Hypothesis release_state : forall k, keeps_state (release mode k).

Lemma unpause_game_kept (g g' : oshu_game) (tr : list effect) :
  unpause_game mode seek_stream g = Some (g', tr) -> flags_kept g g'.
Proof.
  rewrite unpause_game_eq. cbv zeta.
  destruct (Qle_bool _ _); [|intros [= <- _]; now apply flags_kept_unpause].
  destruct (has_flag _ OSHU_AUTOPLAY); [intros [= <- _]; now apply flags_kept_unpause|].
  destruct (rewind_music _ _ _ _) as [[g1 tr1]|] eqn:E; [|discriminate].
  intros [= <- _]. apply flags_kept_unpause. simpl.
  now rewrite (rewind_music_state mode seek_stream 1 g g1 tr1 relinquish_state E).
Qed.

Lemma handle_event_kept (ev : SDL_Event) (g g' : oshu_game) (tr : list effect) :
  handle_event mode seek_stream ev g = Some (g', tr) -> flags_kept g g'.
Proof.
  assert (Hskip : skip g = Some (g', tr) -> flags_kept g g')
    by (intros [= <- _]; now apply flags_kept_state).
  assert (Hstop : stopping g = Some (g', tr) -> flags_kept g g')
    by (intros [= <- _]; now apply flags_kept_stopping).
  assert (Hpause : pause_game g = Some (g', tr) -> flags_kept g g')
    by (rewrite pause_game_eq; intros [= <- _]; now apply flags_kept_pause).
  assert (Hrewind : forall o, rewind_music mode seek_stream o g = Some (g', tr) ->
                              flags_kept g g')
    by (intros o E; apply flags_kept_state;
        exact (rewind_music_state mode seek_stream o g g' tr relinquish_state E)).
  assert (Hforward : forall o, forward_music mode seek_stream o g = Some (g', tr) ->
                               flags_kept g g')
    by (intros o E; apply flags_kept_state;
        exact (forward_music_state mode seek_stream o g g' tr relinquish_state E)).
  assert (Hpress : forall k, mode_press mode k g = Some (g', tr) -> flags_kept g g')
    by (intros k [= <- _]; apply flags_kept_state, press_state).
  assert (Hrelease : forall k, mode_release mode k g = Some (g', tr) -> flags_kept g g')
    by (intros k [= <- _]; apply flags_kept_state, release_state).
  pose proof unpause_game_kept as Hunpause.
  destruct ev as [repeat ks|repeat ks| | |ev|]; simpl.
  - destruct repeat; [eauto|].
    destruct (has_flag _ (Z.lor _ _)); [destruct (sym ks); eauto|].
    destruct (user_playing g); [|destruct (sym ks); eauto].
    destruct (sym ks); eauto; destruct (translate_key ks); eauto.
  - destruct (user_playing g); [|eauto].
    destruct (translate_key ks); eauto.
  - destruct (user_playing g); eauto.
  - destruct (user_playing g); eauto.
  - destruct ev; eauto;
      (destruct (user_playing g); [|eauto]);
      destruct (cursor_has_next g) as [[]|]; eauto; discriminate.
  - eauto.
Qed.

End Flags.

(** X5. When the callbacks of the mode leave [game->state] alone, no event
    takes a set [OSHU_STOPPING] away, nor changes [OSHU_FINISHED],
    [OSHU_USERPLAY] or [OSHU_AUTOPLAY].  [check_end] does: when it ends the
    song it assigns the state, so that only [OSHU_FINISHED] and
    [OSHU_PLAYING] are left and a stop requested earlier is forgotten. *)
Theorem stop_request (mode : oshu_game_mode)
    (seek_stream : oshu_stream -> Q -> oshu_stream) (g g' : oshu_game) (tr : list effect) :
  keeps_state (relinquish mode) ->
  (forall k, keeps_state (press mode k)) ->
  (forall k, keeps_state (release mode k)) ->
  (forall ev, handle_event mode seek_stream ev g = Some (g', tr) -> flags_kept g g') /\
  (check_end g = Some (g', tr) ->
   has_flag (game_state g) OSHU_FINISHED = false ->
   has_flag (game_state g') OSHU_FINISHED = true ->
   game_state g' = Z.lor OSHU_FINISHED OSHU_PLAYING /\
   has_flag (game_state g') OSHU_STOPPING = false /\
   has_flag (game_state g') OSHU_USERPLAY = false /\
   has_flag (game_state g') OSHU_AUTOPLAY = false /\
   has_flag (game_state g') OSHU_PAUSED = false).
Proof.
  intros Hr Hp Hl. split.
  - intros ev. now apply handle_event_kept.
  - unfold check_end. intros H Hnot Hfin. rewrite Hnot in H.
    destruct (cursor_has_next g) as [[]|]; [| |discriminate].
    + injection H as <- _. congruence.
    + destruct (_ ≫= _) as [last|]; [|discriminate].
      destruct (Qgtb _ _).
      * injection H as <- _. simpl. repeat split.
      * injection H as <- _. congruence.
Qed.

Lemma stop_request_witness :
  let g := game_at [marker (-100); circle 10; marker 100] 2 11
             (Z.lor (Z.lor OSHU_USERPLAY OSHU_PLAYING) OSHU_STOPPING) in
  exists g' tr, check_end g = Some (g', tr) /\
    has_flag (game_state g) OSHU_STOPPING = true /\
    has_flag (game_state g') OSHU_STOPPING = false.
Proof.
  cbv zeta. eexists _, _. split; [reflexivity|]. split; [reflexivity|].
  eapply (proj2 (stop_request idle_mode seek_exactly
            (game_at [marker (-100); circle 10; marker 100] 2 11
               (Z.lor (Z.lor OSHU_USERPLAY OSHU_PLAYING) OSHU_STOPPING)) _ _
            ltac:(intros ?; reflexivity) ltac:(intros ? ?; reflexivity)
            ltac:(intros ? ?; reflexivity))).
  - reflexivity.
  - reflexivity.
  - reflexivity.
Defined.

(** X6. On the end screen, and in any state that is neither paused, nor on
    autoplay, nor playing for a user, an event does nothing at all, unless
    it is the key q going down or the window being closed: then
    [OSHU_STOPPING] is set and nothing else happens. *)
Theorem end_screen_events (mode : oshu_game_mode)
    (seek_stream : oshu_stream -> Q -> oshu_stream) (ev : SDL_Event) (g : oshu_game) :
  has_flag (game_state g) OSHU_AUTOPLAY = false ->
  has_flag (game_state g) OSHU_PAUSED = false ->
  user_playing g = false ->
  handle_event mode seek_stream ev g =
  Some (if is_quit ev then with_state (set_flag (game_state g) OSHU_STOPPING) g else g, []).
Proof.
  intros Ha Hp Hu. destruct ev as [repeat ks|repeat ks| | |ev|]; simpl.
  - destruct repeat; [reflexivity|].
    rewrite has_flag_lor, Ha, Hp, Hu. simpl. destruct (sym ks); reflexivity.
  - now rewrite Hu.
  - now rewrite Hu.
  - now rewrite Hu.
  - destruct ev; try reflexivity; now rewrite Hu.
  - reflexivity.
Qed.

Lemma end_screen_events_witness :
  let g := game_at [marker (-100); circle 10; marker 100] 2 12
             (Z.lor OSHU_FINISHED OSHU_PLAYING) in
  handle_event idle_mode seek_exactly
    (SDL_KEYDOWN false (Keysym SDL_SCANCODE_ESCAPE SDLK_ESCAPE)) g = Some (g, []) /\
  handle_event idle_mode seek_exactly SDL_MOUSEBUTTONDOWN g = Some (g, []).
Proof.
  cbv zeta. split.
  - apply (end_screen_events idle_mode seek_exactly
             (SDL_KEYDOWN false (Keysym SDL_SCANCODE_ESCAPE SDLK_ESCAPE))); reflexivity.
  - apply (end_screen_events idle_mode seek_exactly SDL_MOUSEBUTTONDOWN); reflexivity.
Defined.

(** ** The main loop *)

Lemma update_clock_system (ticks : Z) (g : oshu_game) :
  system (clock (update_clock ticks g)) = (inject_Z ticks / 1000)%Q.
Proof.
  unfold update_clock, force_monotonicity, sample_clock. simpl.
  repeat match goal with |- context [if ?b then _ else _] => destruct b end;
    reflexivity.
Qed.

Lemma pace_spec (end_ticks ticks : Z) (g : oshu_game) (missed_frames : Z) :
  system (clock g) = (inject_Z ticks / 1000)%Q ->
  0 <= end_ticks - ticks ->
  (end_ticks - ticks <= 16 ->
     pace end_ticks g missed_frames
     = Some (missed_frames, [Delay (16 - (end_ticks - ticks))])) /\
  (17 <= end_ticks - ticks ->
     pace end_ticks g missed_frames
     = if missed_frames =? INT_MAX then None
       else Some (missed_frames + 1,
                  if missed_frames + 1 =? 1000 then [WarnSlow] else [])).
Proof.
  intros Hsys Hpos. unfold pace. rewrite Hsys.
  set (advance := (frame_duration - (inject_Z end_ticks / 1000 - inject_Z ticks / 1000))%Q).
  assert (Hadv : (advance * 1000 == (16666666 # 1000000) - inject_Z (end_ticks - ticks))%Q).
  { unfold advance, frame_duration, Z.sub. rewrite inject_Z_plus, inject_Z_opp. field. }
  split.
  - intros Hd.
    assert (Hq : (inject_Z (end_ticks - ticks) <= 16)%Q)
      by (change 16%Q with (inject_Z 16); now rewrite <- Zle_Qle).
    assert (Hq0 : (0 <= inject_Z (end_ticks - ticks))%Q)
      by (change 0%Q with (inject_Z 0); now rewrite <- Zle_Qle).
    rewrite (proj2 (Qltb_lt 0 advance)) by lra.
    unfold double_to_uint32.
    rewrite (Qtrunc_unique (advance * 1000) (16 - (end_ticks - ticks))).
    + replace ((0 <=? _) && (_ <=? UINT32_MAX)) with true; [reflexivity|].
      symmetry. apply andb_true_iff. split; apply Z.leb_le; unfold UINT32_MAX; lia.
    + lra.
    + unfold Z.sub at 1. rewrite inject_Z_plus, inject_Z_opp.
      change (inject_Z 16) with 16%Q. lra.
    + unfold Z.sub at 1. rewrite inject_Z_plus, inject_Z_opp.
      change (inject_Z 16) with 16%Q. lra.
  - intros Hd.
    assert (Hq : (17 <= inject_Z (end_ticks - ticks))%Q)
      by (change 17%Q with (inject_Z 17); now rewrite <- Zle_Qle).
    now rewrite (proj2 (Qltb_ge 0 advance)) by lra.
Qed.

Lemma warnings_app (a b : list loop_effect) :
  warnings (a ++ b) = (warnings a + warnings b)%nat.
Proof. unfold warnings. now rewrite List.filter_app, length_app. Qed.

Lemma warnings_called (t : list effect) : warnings (Called <$> t) = 0%nat.
Proof. induction t; [reflexivity | assumption]. Qed.

Section LoopFacts.

Variable mode : oshu_game_mode.
Variable loop_mode : oshu_game_mode_loop.
Variable seek_stream : oshu_stream -> Q -> oshu_stream.

(** The pieces of a frame, as [run_frame] puts them together. *)
Lemma run_frame_Some (input : frame_input) (g g' : oshu_game) (missed missed' : Z)
    (t : list loop_effect) :
  run_frame mode loop_mode seek_stream input g missed = Some (g', missed', t) ->
  exists g1 g2 g3 g4 t_events t_end t_pace t_before,
    g1 = update_clock (frame_ticks input) (with_timestamp (frame_position input) g) /\
    handle_events mode seek_stream (frame_events input) g1 = Some (g2, t_events) /\
    (g3 = check loop_mode g2 \/ g3 = autoplay loop_mode g2 \/ g3 = g2) /\
    check_end g3 = Some (g4, t_end) /\
    g' = draw loop_mode g4 /\
    pace (frame_end_ticks input) g' missed = Some (missed', t_pace) /\
    t = t_before ++ t_pace /\ warnings t_before = 0%nat /\
    (forall ms, Delay ms ∉ t_before).
Proof.
  unfold run_frame.
  set (g1 := update_clock _ _).
  destruct (handle_events _ _ _ g1) as [[g2 t_events]|] eqn:Eev; [|discriminate].
  set (checked := if has_flag (game_state g2) OSHU_USERPLAY then _ else _).
  assert (Hchecked : exists g3 t_check, checked = (g3, t_check) /\
            (g3 = check loop_mode g2 \/ g3 = autoplay loop_mode g2 \/ g3 = g2) /\
            warnings t_check = 0%nat /\ (forall ms, Delay ms ∉ t_check)).
  { unfold checked.
    destruct (has_flag _ OSHU_USERPLAY); [|destruct (has_flag _ OSHU_AUTOPLAY)];
      eexists _, _; (split; [reflexivity|]); (split; [auto|]);
      (split; [reflexivity|]); intros ms Hin;
      repeat (apply elem_of_cons in Hin as [Hin|Hin]; [discriminate|]);
      now apply elem_of_nil in Hin. }
  destruct Hchecked as (g3 & t_check & -> & Hg3 & Hw3 & Hd3).
  destruct (check_end g3) as [[g4 t_end]|] eqn:Eend; [|discriminate].
  destruct (pace _ _ _) as [[m' t_pace]|] eqn:Epace; [|discriminate].
  set (t_audio := if _ && _ then [Called PlayAudio] else []).
  set (t_dump := if _ && _ then [Called DumpState] else []).
  intros [= <- <- <-].
  exists g1, g2, g3, g4, t_events, t_end, t_pace,
    (t_audio ++ (Called <$> t_events) ++ t_check ++ (Called <$> t_end) ++ [Draw] ++ t_dump).
  split; [reflexivity|]. split; [exact Eev|]. split; [exact Hg3|].
  split; [exact Eend|]. split; [reflexivity|]. split; [exact Epace|].
  split; [|split].
  - rewrite <- !app_assoc. reflexivity.
  - rewrite !warnings_app, !warnings_called, Hw3.
    unfold t_audio, t_dump. destruct (_ && _); destruct (_ && _); reflexivity.
  - intros ms Hin. rewrite !elem_of_app in Hin.
    destruct Hin as [Hin|[Hin|[Hin|[Hin|Hin]]]].
    + unfold t_audio in Hin.
      match type of Hin with context [if ?b then _ else _] => destruct b end;
        [|now apply elem_of_nil in Hin].
      apply elem_of_cons in Hin as [Hin|Hin]; [discriminate | now apply elem_of_nil in Hin].
    + apply list_elem_of_fmap in Hin as (e & He & _). discriminate.
    + now apply (Hd3 ms).
    + apply list_elem_of_fmap in Hin as (e & He & _). discriminate.
    + destruct Hin as [Hin|Hin];
        [apply elem_of_cons in Hin as [Hin|Hin];
         [discriminate | now apply elem_of_nil in Hin]|].
      unfold t_dump in Hin.
      match type of Hin with context [if ?b then _ else _] => destruct b end;
        [|now apply elem_of_nil in Hin].
      apply elem_of_cons in Hin as [Hin|Hin]; [discriminate | now apply elem_of_nil in Hin].
Qed.

End LoopFacts.

Section LoopClock.

Variable mode : oshu_game_mode.
Variable loop_mode : oshu_game_mode_loop.
Variable seek_stream : oshu_stream -> Q -> oshu_stream.
Hypothesis relinquish_clock : keeps_clock (relinquish mode).
Hypothesis press_clock : forall k, keeps_clock (press mode k).
Hypothesis release_clock : forall k, keeps_clock (release mode k).
Hypothesis check_clock : keeps_clock (check loop_mode).
Hypothesis autoplay_clock : keeps_clock (autoplay loop_mode).
Hypothesis draw_clock : keeps_clock (draw loop_mode).

Lemma at_loop_entry_system (target : Q) (g : oshu_game) :
  system (clock (at_loop_entry mode seek_stream target g)) = system (clock g).
Proof. unfold at_loop_entry. now rewrite relinquish_clock. Qed.

Lemma rewind_music_system (offset : Q) (g g' : oshu_game) (tr : list effect) :
  rewind_music mode seek_stream offset g = Some (g', tr) ->
  system (clock g') = system (clock g).
Proof.
  rewrite rewind_music_eq. cbv zeta.
  destruct (rewind_walk _ _ _) as [[hs i]|]; [|discriminate].
  intros [= <- _]. simpl. apply at_loop_entry_system.
Qed.

Lemma forward_music_system (offset : Q) (g g' : oshu_game) (tr : list effect) :
  forward_music mode seek_stream offset g = Some (g', tr) ->
  system (clock g') = system (clock g).
Proof.
  rewrite forward_music_eq. cbv zeta.
  destruct (forward_walk _ _ _ _) as [[hs i]|]; [|discriminate].
  intros [= <- _]. simpl. apply at_loop_entry_system.
Qed.

Lemma unpause_game_system (g g' : oshu_game) (tr : list effect) :
  unpause_game mode seek_stream g = Some (g', tr) ->
  system (clock g') = system (clock g).
Proof.
  rewrite unpause_game_eq. cbv zeta.
  destruct (Qle_bool _ _); [|now intros [= <- _]].
  destruct (has_flag _ OSHU_AUTOPLAY); [now intros [= <- _]|].
  destruct (rewind_music _ _ _ _) as [[g1 tr1]|] eqn:E; [|discriminate].
  intros [= <- _]. simpl. now apply (rewind_music_system 1 g g1 tr1).
Qed.

Lemma handle_event_system (ev : SDL_Event) (g g' : oshu_game) (tr : list effect) :
  handle_event mode seek_stream ev g = Some (g', tr) ->
  system (clock g') = system (clock g).
Proof.
  assert (Hskip : skip g = Some (g', tr) -> system (clock g') = system (clock g))
    by now intros [= <- _].
  assert (Hstop : stopping g = Some (g', tr) -> system (clock g') = system (clock g))
    by now intros [= <- _].
  assert (Hpause : pause_game g = Some (g', tr) -> system (clock g') = system (clock g))
    by now intros [= <- _].
  assert (Hpress : forall k, mode_press mode k g = Some (g', tr) ->
                             system (clock g') = system (clock g))
    by (intros k [= <- _]; now rewrite press_clock).
  assert (Hrelease : forall k, mode_release mode k g = Some (g', tr) ->
                               system (clock g') = system (clock g))
    by (intros k [= <- _]; now rewrite release_clock).
  pose proof rewind_music_system. pose proof forward_music_system.
  pose proof unpause_game_system.
  destruct ev as [repeat ks|repeat ks| | |ev|]; simpl.
  - destruct repeat; [eauto|].
    destruct (has_flag _ (Z.lor _ _)); [destruct (sym ks); eauto|].
    destruct (user_playing g); [|destruct (sym ks); eauto].
    destruct (sym ks); eauto; destruct (translate_key ks); eauto.
  - destruct (user_playing g); [|eauto].
    destruct (translate_key ks); eauto.
  - destruct (user_playing g); eauto.
  - destruct (user_playing g); eauto.
  - destruct ev; eauto;
      (destruct (user_playing g); [|eauto]);
      destruct (cursor_has_next g) as [[]|]; eauto; discriminate.
  - eauto.
Qed.

Lemma handle_events_system (events : list SDL_Event) :
  forall g g' tr, handle_events mode seek_stream events g = Some (g', tr) ->
  system (clock g') = system (clock g).
Proof.
  induction events as [|ev rest IH]; intros g g' tr; simpl.
  - now intros [= <- _].
  - destruct (handle_event _ _ ev g) as [[g1 t1]|] eqn:E1; [|discriminate].
    destruct (handle_events _ _ rest g1) as [[g2 t2]|] eqn:E2; [|discriminate].
    intros [= <- _]. rewrite (IH _ _ _ E2). now apply (handle_event_system ev g g1 t1).
Qed.

Lemma check_end_clock (g g' : oshu_game) (tr : list effect) :
  check_end g = Some (g', tr) -> clock g' = clock g.
Proof.
  unfold check_end.
  destruct (has_flag _ OSHU_FINISHED); [now intros [= <- _]|].
  destruct (cursor_has_next g) as [[]|]; [now intros [= <- _]| |discriminate].
  destruct (_ ≫= _) as [last|]; [|discriminate].
  destruct (Qgtb _ _); now intros [= <- _].
Qed.

Lemma run_frame_pace (input : frame_input) (g g' : oshu_game) (missed missed' : Z)
    (t : list loop_effect) :
  run_frame mode loop_mode seek_stream input g missed = Some (g', missed', t) ->
  exists t_before t_pace,
    pace (frame_end_ticks input) g' missed = Some (missed', t_pace) /\
    system (clock g') = (inject_Z (frame_ticks input) / 1000)%Q /\
    t = t_before ++ t_pace /\ (forall ms, Delay ms ∉ t_before).
Proof.
  intros H. apply run_frame_Some in H
    as (g1 & g2 & g3 & g4 & t_events & t_end & t_pace & t_before
        & -> & Hev & Hg3 & Hend & -> & Hpace & -> & _ & Hdelay).
  exists t_before, t_pace. split; [exact Hpace|]. split; [|auto].
  rewrite draw_clock, (check_end_clock _ _ _ Hend).
  assert (clock g3 = clock g2) as ->
    by (destruct Hg3 as [->|[->| ->]]; auto).
  rewrite (handle_events_system _ _ _ _ Hev). apply update_clock_system.
Qed.

End LoopClock.

(** X7. One iteration of the main loop, when the callbacks of the mode leave
    the clock alone and the ticks did not go back during it: an iteration
    that took at most 16 milliseconds ends with a sleep of 16 milliseconds
    minus the time it took, and is not counted; an iteration of 17
    milliseconds or more is counted as missed and does not sleep. *)
Theorem frame_pacing (mode : oshu_game_mode) (loop_mode : oshu_game_mode_loop)
    (seek_stream : oshu_stream -> Q -> oshu_stream)
    (input : frame_input) (g g' : oshu_game) (missed missed' : Z) (t : list loop_effect) :
  keeps_clock (relinquish mode) ->
  (forall k, keeps_clock (press mode k)) ->
  (forall k, keeps_clock (release mode k)) ->
  keeps_clock (check loop_mode) ->
  keeps_clock (autoplay loop_mode) ->
  keeps_clock (draw loop_mode) ->
  run_frame mode loop_mode seek_stream input g missed = Some (g', missed', t) ->
  let elapsed := frame_end_ticks input - frame_ticks input in
  0 <= elapsed ->
  (elapsed <= 16 ->
     missed' = missed /\
     exists t0, t = t0 ++ [Delay (16 - elapsed)] /\ forall ms, Delay ms ∉ t0) /\
  (17 <= elapsed -> missed' = missed + 1 /\ forall ms, Delay ms ∉ t).
Proof.
  intros Hr Hp Hl Hc Ha Hd Hrun elapsed Hpos.
  destruct (run_frame_pace mode loop_mode seek_stream Hr Hp Hl Hc Ha Hd _ _ _ _ _ _ Hrun)
    as (t_before & t_pace & Hpace & Hsys & -> & Hdelay).
  destruct (pace_spec (frame_end_ticks input) (frame_ticks input) g' missed Hsys Hpos)
    as [Hfast Hslow].
  split; intros He.
  - rewrite (Hfast He) in Hpace. injection Hpace as <- <-. eauto.
  - rewrite (Hslow He) in Hpace.
    destruct (missed =? INT_MAX); [discriminate|].
    injection Hpace as <- <-. split; [reflexivity|].
    intros ms Hin. apply elem_of_app in Hin as [Hin|Hin]; [now apply (Hdelay ms)|].
    destruct (_ =? 1000); [|now apply elem_of_nil in Hin].
    apply elem_of_cons in Hin as [Hin|Hin]; [discriminate | now apply elem_of_nil in Hin].
Qed.

Lemma frame_pacing_witness :
  let g := game_at (timeline5 (-100) 100) 4 4 (Z.lor OSHU_USERPLAY OSHU_PLAYING) in
  exists g' t0,
    run_frame idle_mode idle_loop_mode seek_exactly (Frame 1000 4 [] 1005) g 0
    = Some (g', 0, t0 ++ [Delay 11]).
Proof.
  cbv zeta.
  destruct (run_frame idle_mode idle_loop_mode seek_exactly (Frame 1000 4 [] 1005)
              (game_at (timeline5 (-100) 100) 4 4 (Z.lor OSHU_USERPLAY OSHU_PLAYING)) 0)
    as [[[g' missed'] t]|] eqn:E; [|discriminate E].
  destruct (frame_pacing idle_mode idle_loop_mode seek_exactly _ _ _ _ _ _
              ltac:(intros ?; reflexivity) ltac:(intros ? ?; reflexivity)
              ltac:(intros ? ?; reflexivity) ltac:(intros ?; reflexivity)
              ltac:(intros ?; reflexivity) ltac:(intros ?; reflexivity) E)
    as [Hfast _]; [simpl; lia|].
  destruct Hfast as (-> & t0 & -> & _); [simpl; lia|].
  exists g', t0. reflexivity.
Defined.

Section LoopState.

Variable mode : oshu_game_mode.
Variable loop_mode : oshu_game_mode_loop.
Variable seek_stream : oshu_stream -> Q -> oshu_stream.
Hypothesis relinquish_state : keeps_state (relinquish mode).
Hypothesis press_state : forall k, keeps_state (press mode k).
Hypothesis release_state : forall k, keeps_state (release mode k).
Hypothesis check_state : keeps_state (check loop_mode).
Hypothesis autoplay_state : keeps_state (autoplay loop_mode).
Hypothesis draw_state : keeps_state (draw loop_mode).

Lemma handle_events_exclusive (events : list SDL_Event) :
  forall g g' tr, handle_events mode seek_stream events g = Some (g', tr) ->
  exclusive g -> exclusive g'.
Proof.
  induction events as [|ev rest IH]; intros g g' tr; simpl.
  - now intros [= <- _].
  - destruct (handle_event _ _ ev g) as [[g1 t1]|] eqn:E1; [|discriminate].
    destruct (handle_events _ _ rest g1) as [[g2 t2]|] eqn:E2; [|discriminate].
    intros [= <- _] Hg. apply (IH _ _ _ E2).
    exact (handle_event_exclusive mode seek_stream relinquish_state press_state
             release_state ev g g1 t1 E1 Hg).
Qed.

Lemma run_frame_exclusive (input : frame_input) (g g' : oshu_game) (missed missed' : Z)
    (t : list loop_effect) :
  run_frame mode loop_mode seek_stream input g missed = Some (g', missed', t) ->
  exclusive g -> exclusive g'.
Proof.
  intros H Hg. apply run_frame_Some in H
    as (g1 & g2 & g3 & g4 & t_events & t_end & t_pace & t_before
        & -> & Hev & Hg3 & Hend & -> & _).
  unfold exclusive. rewrite draw_state.
  apply (check_end_exclusive g3 g4 t_end Hend).
  assert (game_state g3 = game_state g2) as Hs
    by (destruct Hg3 as [->|[->| ->]]; auto).
  unfold exclusive. rewrite Hs.
  exact (handle_events_exclusive _ _ _ _ Hev Hg).
Qed.

Lemma run_frames_exclusive (inputs : list frame_input) :
  forall g g' missed missed' t stopped,
  run_frames mode loop_mode seek_stream inputs g missed = Some (g', missed', t, stopped) ->
  exclusive g -> exclusive g'.
Proof.
  induction inputs as [|input rest IH]; intros g g' missed missed' t stopped; simpl.
  - destruct (has_flag _ OSHU_STOPPING); now intros [= <- _ _ _].
  - destruct (has_flag _ OSHU_STOPPING); [now intros [= <- _ _ _]|].
    destruct (run_frame _ _ _ input g missed) as [[[g1 m1] t1]|] eqn:E1; [|discriminate].
    destruct (run_frames _ _ _ rest g1 m1) as [[[[g2 m2] t2] st]|] eqn:E2; [|discriminate].
    intros [= <- _ _ _] Hg. apply (IH _ _ _ _ _ _ E2).
    exact (run_frame_exclusive _ _ _ _ _ _ E1 Hg).
Qed.

End LoopState.

(** X8. Over a whole run of [oshu_run_game], whatever the frames bring, a
    game that does not start paused and playing at once never becomes so,
    when the callbacks of the mode leave [game->state] alone. *)
Theorem run_game_exclusive (mode : oshu_game_mode) (loop_mode : oshu_game_mode_loop)
    (seek_stream : oshu_stream -> Q -> oshu_stream)
    (start_ticks : Z) (inputs : list frame_input) (g g' : oshu_game)
    (t : list loop_effect) (stopped : bool) :
  keeps_state (relinquish mode) ->
  (forall k, keeps_state (press mode k)) ->
  (forall k, keeps_state (release mode k)) ->
  keeps_state (check loop_mode) ->
  keeps_state (autoplay loop_mode) ->
  keeps_state (draw loop_mode) ->
  oshu_run_game mode loop_mode seek_stream start_ticks inputs g = Some (g', t, stopped) ->
  both_set (game_state g) OSHU_PAUSED OSHU_PLAYING = false ->
  both_set (game_state g') OSHU_PAUSED OSHU_PLAYING = false.
Proof.
  intros Hr Hp Hl Hc Ha Hd. unfold oshu_run_game.
  destruct (run_frames _ _ _ _ _ _) as [[[[g2 m2] t2] st]|] eqn:E; [|discriminate].
  intros [= <- _ _] Hg.
  exact (run_frames_exclusive mode loop_mode seek_stream Hr Hp Hl Hc Ha Hd
           _ _ _ _ _ _ _ E Hg).
Qed.

Lemma run_game_exclusive_witness :
  let g := game_at (timeline5 (-100) 100) 4 4 (Z.lor OSHU_USERPLAY OSHU_PLAYING) in
  let escape := SDL_KEYDOWN false (Keysym SDL_SCANCODE_ESCAPE SDLK_ESCAPE) in
  let close := SDL_WINDOWEVENT SDL_WINDOWEVENT_CLOSE in
  exists g' t,
    oshu_run_game idle_mode idle_loop_mode seek_exactly 0
      [Frame 16 4 [escape] 20; Frame 33 4 [escape; close] 60; Frame 70 5 [] 80] g
    = Some (g', t, true) /\
    both_set (game_state g') OSHU_PAUSED OSHU_PLAYING = false.
Proof.
  cbv zeta. eexists _, _. split; [vm_compute; reflexivity|].
  eapply (run_game_exclusive idle_mode idle_loop_mode seek_exactly 0
            [Frame 16 4 [SDL_KEYDOWN false (Keysym SDL_SCANCODE_ESCAPE SDLK_ESCAPE)] 20;
             Frame 33 4 [SDL_KEYDOWN false (Keysym SDL_SCANCODE_ESCAPE SDLK_ESCAPE);
                         SDL_WINDOWEVENT SDL_WINDOWEVENT_CLOSE] 60;
             Frame 70 5 [] 80]
            (game_at (timeline5 (-100) 100) 4 4 (Z.lor OSHU_USERPLAY OSHU_PLAYING))).
  1: intros ?; reflexivity.
  1, 2: intros ? ?; reflexivity.
  1, 2, 3: intros ?; reflexivity.
  - vm_compute. reflexivity.
  - reflexivity.
Defined.

Section LoopWarnings.

Variable mode : oshu_game_mode.
Variable loop_mode : oshu_game_mode_loop.
Variable seek_stream : oshu_stream -> Q -> oshu_stream.

Lemma pace_warnings (end_ticks : Z) (g : oshu_game) (missed missed' : Z)
    (t : list loop_effect) :
  pace end_ticks g missed = Some (missed', t) ->
  missed' = missed /\ warnings t = 0%nat \/
  missed' = missed + 1 /\ warnings t = (if missed' =? 1000 then 1%nat else 0%nat).
Proof.
  unfold pace. destruct (Qltb 0 _).
  - destruct (double_to_uint32 _); [|discriminate]. intros [= <- <-]. now left.
  - destruct (missed =? INT_MAX); [discriminate|]. intros [= <- <-]. right.
    split; [reflexivity|]. now destruct (_ =? 1000).
Qed.

Lemma run_frame_warnings (input : frame_input) (g g' : oshu_game) (missed missed' : Z)
    (t : list loop_effect) :
  run_frame mode loop_mode seek_stream input g missed = Some (g', missed', t) ->
  missed' = missed /\ warnings t = 0%nat \/
  missed' = missed + 1 /\ warnings t = (if missed' =? 1000 then 1%nat else 0%nat).
Proof.
  intros H. apply run_frame_Some in H
    as (g1 & g2 & g3 & g4 & t_events & t_end & t_pace & t_before
        & _ & _ & _ & _ & _ & Hpace & -> & Hw & _).
  rewrite warnings_app, Hw. simpl. now apply pace_warnings in Hpace.
Qed.

Lemma run_frames_warnings (inputs : list frame_input) :
  forall g g' missed missed' t stopped,
  run_frames mode loop_mode seek_stream inputs g missed = Some (g', missed', t, stopped) ->
  missed <= missed' /\
  warnings t = (if (missed <? 1000) && (1000 <=? missed') then 1%nat else 0%nat).
Proof.
  assert (Hnone : forall m : Z, (if (m <? 1000) && (1000 <=? m) then 1%nat else 0%nat) = 0%nat).
  { intros m. destruct (Z.ltb_spec m 1000); destruct (Z.leb_spec 1000 m);
      simpl; try reflexivity; lia. }
  induction inputs as [|input rest IH]; intros g g' missed missed' t stopped; simpl.
  - destruct (has_flag _ OSHU_STOPPING); intros [= _ <- <- _];
      (split; [lia | now rewrite Hnone]).
  - destruct (has_flag _ OSHU_STOPPING);
      [intros [= _ <- <- _]; split; [lia | now rewrite Hnone]|].
    destruct (run_frame _ _ _ input g missed) as [[[g1 m1] t1]|] eqn:E1; [|discriminate].
    destruct (run_frames _ _ _ rest g1 m1) as [[[[g2 m2] t2] st]|] eqn:E2; [|discriminate].
    intros [= _ <- <- _]. rewrite warnings_app.
    destruct (IH _ _ _ _ _ _ E2) as [Hle ->].
    destruct (run_frame_warnings _ _ _ _ _ _ E1) as [[-> ->]|[-> ->]].
    + split; [lia | reflexivity].
    + split; [lia|].
      destruct (Z.eqb_spec (missed + 1) 1000); destruct (Z.ltb_spec (missed + 1) 1000);
        destruct (Z.ltb_spec missed 1000); destruct (Z.leb_spec 1000 m2);
        simpl; try reflexivity; lia.
Qed.

End LoopWarnings.

(** X9. Over a whole run of [oshu_run_game] the warning about missed frames
    is logged at most once; when the loop is left, the number of missed
    frames it reports is not negative, and the warning was logged exactly
    when that number reached 1000. *)
Theorem run_game_warns_once (mode : oshu_game_mode) (loop_mode : oshu_game_mode_loop)
    (seek_stream : oshu_stream -> Q -> oshu_stream)
    (start_ticks : Z) (inputs : list frame_input) (g g' : oshu_game)
    (t : list loop_effect) (stopped : bool) :
  oshu_run_game mode loop_mode seek_stream start_ticks inputs g = Some (g', t, stopped) ->
  (warnings t <= 1)%nat /\
  (stopped = true ->
   exists t0 n, t = t0 ++ [MissedFrames n] /\ 0 <= n /\
     (warnings t = 1%nat <-> 1000 <= n)).
Proof.
  unfold oshu_run_game.
  destruct (run_frames _ _ _ _ _ _) as [[[[g2 m2] t2] st]|] eqn:E; [|discriminate].
  intros [= _ <- <-].
  destruct (run_frames_warnings mode loop_mode seek_stream _ _ _ _ _ _ _ E) as [Hle Hw].
  assert (Hall : forall tail, warnings tail = 0%nat ->
            warnings ([Welcome] ++
              (if has_flag (game_state g) OSHU_PLAYING && Qle_bool 0 (now (clock g))
               then [Called PlayAudio] else []) ++ t2 ++ tail)
            = (if 1000 <=? m2 then 1%nat else 0%nat)).
  { intros tail Htail. rewrite !warnings_app, Hw, Htail.
    change (0 <? 1000) with true. cbn [andb].
    destruct (has_flag _ _ && _); destruct (1000 <=? m2); reflexivity. }
  simpl in Hall. split.
  - rewrite Hall by (now destruct st). destruct (1000 <=? m2); lia.
  - intros ->. eexists (Welcome :: _ ++ t2), m2.
    split; [simpl; now rewrite <- app_assoc|]. split; [exact Hle|].
    rewrite Hall by reflexivity.
    destruct (Z.leb_spec 1000 m2); split; intros; try reflexivity; try lia; discriminate.
Qed.

Lemma run_game_warns_once_witness :
  let g := game_at (timeline5 (-100) 100) 4 4 (Z.lor OSHU_USERPLAY OSHU_PLAYING) in
  let close := SDL_WINDOWEVENT SDL_WINDOWEVENT_CLOSE in
  exists g' t,
    oshu_run_game idle_mode idle_loop_mode seek_exactly 0
      [Frame 16 4 [] 40; Frame 50 4 [close] 60; Frame 70 5 [] 80] g
    = Some (g', t, true) /\
    (warnings t <= 1)%nat.
Proof.
  cbv zeta. eexists _, _. split; [vm_compute; reflexivity|].
  refine (proj1 (run_game_warns_once idle_mode idle_loop_mode seek_exactly 0
            [Frame 16 4 [] 40; Frame 50 4 [SDL_WINDOWEVENT SDL_WINDOWEVENT_CLOSE] 60;
             Frame 70 5 [] 80]
            (game_at (timeline5 (-100) 100) 4 4 (Z.lor OSHU_USERPLAY OSHU_PLAYING))
            _ _ true _)).
  vm_compute. reflexivity.
Defined.

(** * game/osu/draw.c *)

(** ** The playable neighbours of the cursor *)

Lemma node_next_Some (hs : list oshu_hit) (i n : nat) :
  OsuDraw.node_next hs i = Some n <-> n = S i /\ (S i < length hs)%nat.
Proof.
  unfold OsuDraw.node_next, next_hit. destruct (decide _); split.
  - now intros [= <-].
  - now intros [-> _].
  - discriminate.
  - intros [_ H]. contradiction.
Qed.

Lemma node_next_None (hs : list oshu_hit) (i : nat) :
  OsuDraw.node_next hs i = None <-> (length hs <= S i)%nat.
Proof.
  unfold OsuDraw.node_next, next_hit. destruct (decide _); split;
    try discriminate; try reflexivity; lia.
Qed.

Lemma next_hit_from_spec (hs : list oshu_hit) :
  forall (left i : nat), left = (length hs - i)%nat -> (i < length hs)%nat ->
  exists n hn, OsuDraw.next_hit_from hs i left = Some n /\ hs !! n = Some hn /\
    (i <= n)%nat /\
    (OsuDraw.playable hn = true \/ S n = length hs) /\
    forall k hk, (i <= k < n)%nat -> hs !! k = Some hk -> OsuDraw.playable hk = false.
Proof.
  induction left as [|left IH]; intros i Hleft Hi; [lia|]. simpl.
  destruct (lookup_lt_is_Some_2 hs i Hi) as [h Hh]. rewrite Hh.
  destruct (OsuDraw.node_next hs i) as [n|] eqn:En.
  - apply node_next_Some in En as [-> Hn].
    destruct (OsuDraw.playable h) eqn:Ep.
    + exists i, h. split; [reflexivity|]. split; [exact Hh|]. split; [lia|].
      split; [now left|]. intros; lia.
    + destruct (IH (S i)) as (n & hn & -> & Hhn & Hle & Hend & Hbetween); [lia|lia|].
      exists n, hn. split; [reflexivity|]. split; [exact Hhn|]. split; [lia|].
      split; [exact Hend|].
      intros k hk Hk Hhk. destruct (decide (k = i)) as [->|Hne]; [congruence|].
      apply (Hbetween k); [lia | exact Hhk].
  - apply node_next_None in En.
    exists i, h. split; [reflexivity|]. split; [exact Hh|]. split; [lia|].
    split; [right; lia|]. intros; lia.
Qed.

Lemma previous_hit_from_spec (hs : list oshu_hit) :
  forall (i : nat), (i < length hs)%nat ->
  exists p hp, OsuDraw.previous_hit_from hs i = Some p /\ hs !! p = Some hp /\
    (p <= i)%nat /\
    (OsuDraw.playable hp = true \/ p = 0%nat) /\
    forall k hk, (p < k <= i)%nat -> hs !! k = Some hk -> OsuDraw.playable hk = false.
Proof.
  induction i as [|j IH]; intros Hi; simpl.
  - destruct (lookup_lt_is_Some_2 hs 0 Hi) as [h Hh]. rewrite Hh.
    exists 0%nat, h. split; [reflexivity|]. split; [exact Hh|]. split; [lia|].
    split; [now right|]. intros; lia.
  - destruct (lookup_lt_is_Some_2 hs (S j) Hi) as [h Hh]. rewrite Hh.
    destruct (OsuDraw.playable h) eqn:Ep.
    + exists (S j), h. split; [reflexivity|]. split; [exact Hh|]. split; [lia|].
      split; [now left|]. intros; lia.
    + destruct IH as (p & hp & -> & Hhp & Hle & Hend & Hbetween); [lia|].
      exists p, hp. split; [reflexivity|]. split; [exact Hhp|]. split; [lia|].
      split; [exact Hend|].
      intros k hk Hk Hhk. destruct (decide (k = S j)) as [->|Hne]; [congruence|].
      apply (Hbetween k); [lia | exact Hhk].
Qed.

(** X10. From a cursor of the list, [next_hit] and [previous_hit] of draw.c
    always find a node.  [next_hit] returns the first circle or slider from
    the cursor on, the cursor included, or the last node when there is none.
    [previous_hit] returns the nearest circle or slider before the cursor,
    the cursor excluded, or the head when there is none; it returns the
    cursor only when the cursor is the head. *)
Theorem playable_neighbours (g : oshu_game) :
  let hs := hits (beatmap g) in
  let c := hit_cursor g in
  (c < length hs)%nat ->
  (exists n hn, OsuDraw.next_hit g = Some n /\ hs !! n = Some hn /\ (c <= n)%nat /\
     (OsuDraw.playable hn = true \/ S n = length hs) /\
     forall k hk, (c <= k < n)%nat -> hs !! k = Some hk -> OsuDraw.playable hk = false) /\
  (exists p hp, OsuDraw.previous_hit g = Some p /\ hs !! p = Some hp /\ (p <= c)%nat /\
     (p = c -> c = 0%nat) /\
     (OsuDraw.playable hp = true \/ p = 0%nat) /\
     forall k hk, (p < k < c)%nat -> hs !! k = Some hk -> OsuDraw.playable hk = false).
Proof.
  cbv zeta. intros Hc. split.
  - now apply next_hit_from_spec.
  - unfold OsuDraw.previous_hit.
    destruct (lookup_lt_is_Some_2 _ _ Hc) as [h Hh]. rewrite Hh.
    destruct (hit_cursor g) as [|p0] eqn:Ec.
    + exists 0%nat, h. split; [reflexivity|]. split; [exact Hh|]. split; [lia|].
      split; [reflexivity|]. split; [now right|]. intros; lia.
    + destruct (previous_hit_from_spec (hits (beatmap g)) p0)
        as (p & hp & -> & Hhp & Hle & Hend & Hbetween); [lia|].
      exists p, hp. split; [reflexivity|]. split; [exact Hhp|]. split; [lia|].
      split; [lia|]. split; [exact Hend|].
      intros k hk Hk. apply Hbetween. lia.
Qed.

Lemma playable_neighbours_witness :
  let g := game_at (timeline5 (-100) 100) 0 0 OSHU_USERPLAY in
  exists n p, OsuDraw.next_hit g = Some n /\ OsuDraw.previous_hit g = Some p /\
    (p <= 0 <= n)%nat.
Proof.
  cbv zeta.
  destruct (playable_neighbours (game_at (timeline5 (-100) 100) 0 0 OSHU_USERPLAY))
    as [(n & hn & Hn & _ & Hle & _) (p & hp & Hp & _ & Hge & _)]; [simpl; lia|].
  exists n, p. split; [exact Hn|]. split; [exact Hp|]. simpl in *. lia.
Defined.

(** ** The background *)

(** Turn the comparisons of a goal into propositions, case by case. *)
Ltac compare_cases :=
  repeat match goal with
  | |- context [Qltb ?a ?b] =>
      let E := fresh "E" in
      destruct (Qltb a b) eqn:E;
      [apply Qltb_lt in E | apply Qltb_ge in E]
  | |- context [Qgtb ?a ?b] =>
      let E := fresh "E" in
      destruct (Qgtb a b) eqn:E;
      [apply Qgtb_gt in E | apply Qgtb_le in E]
  end.

Lemma background_ratio_bounds (break_start break_end now : Q) :
  (0 <= OsuDraw.background_ratio break_start break_end now)%Q /\
  (OsuDraw.background_ratio break_start break_end now <= 1)%Q.
Proof.
  unfold OsuDraw.background_ratio. compare_cases; split; lra.
Qed.

Lemma Qtrunc_between (q : Q) (lo hi : Z) :
  0 <= lo -> (inject_Z lo <= q)%Q -> (q <= inject_Z hi)%Q ->
  lo <= Qtrunc q <= hi.
Proof.
  intros H0 Hlo Hhi.
  assert (Hq : (0 <= q)%Q).
  { apply Qle_trans with (inject_Z lo); [|exact Hlo].
    change 0%Q with (inject_Z 0). now rewrite <- Zle_Qle. }
  destruct (Qtrunc_bounds_nonneg q Hq) as (_ & Hle & Hlt).
  split.
  - assert (lo < Qtrunc q + 1); [|lia].
    rewrite Zlt_Qlt, inject_Z_plus. change (inject_Z 1) with 1%Q. lra.
  - rewrite Zle_Qle. lra.
Qed.

(** X11. The assertions of [draw_background] on the colour modulation never
    fail: with a background texture and a cursor of the list that is not its
    head, the background is drawn with a modulation between 64 and 255.
    With the cursor on the head the assertion on [hit_cursor->previous]
    fails; without a texture nothing is drawn. *)
Theorem draw_background_modulation (g : oshu_game) :
  let hs := hits (beatmap g) in
  ((0 < hit_cursor g < length hs)%nat ->
     exists modulation, OsuDraw.draw_background true g = Some (Some modulation) /\
       64 <= modulation <= 255) /\
  (hit_cursor g = 0%nat -> OsuDraw.draw_background true g = None) /\
  OsuDraw.draw_background false g = Some None.
Proof.
  cbv zeta. split; [|split; [|reflexivity]].
  - intros Hc. unfold OsuDraw.draw_background. simpl negb. cbv iota.
    unfold OsuDraw.next_hit, OsuDraw.previous_hit.
    destruct (next_hit_from_spec (hits (beatmap g))
                (length (hits (beatmap g)) - hit_cursor g) (hit_cursor g) eq_refl)
      as (n & hn & -> & Hhn & _); [lia|].
    destruct (lookup_lt_is_Some_2 (hits (beatmap g)) (hit_cursor g)) as [h Hh]; [lia|].
    rewrite Hh. simpl.
    destruct (hit_cursor g) as [|c'] eqn:Ec; [lia|]. simpl.
    destruct (previous_hit_from_spec (hits (beatmap g)) c')
      as (p & hp & -> & Hhp & _); [lia|].
    simpl. rewrite Hhn, Hhp.
    set (ratio := OsuDraw.background_ratio _ _ _).
    destruct (background_ratio_bounds (oshu_hit_end_time hp) (time hn) (now (clock g)))
      as [Hr0 Hr1]. fold ratio in Hr0, Hr1.
    assert (Hm : 64 <= Qtrunc (64 + ratio * 191) <= 255).
    { apply Qtrunc_between; [lia| |].
      - change (inject_Z 64) with 64%Q. lra.
      - change (inject_Z 255) with 255%Q. lra. }
    unfold double_to_int.
    replace ((INT_MIN <=? _) && (_ <=? INT_MAX)) with true
      by (symmetry; apply andb_true_iff; split; apply Z.leb_le;
          unfold INT_MIN, INT_MAX; lia).
    replace ((0 <=? _) && (_ <=? 255)) with true
      by (symmetry; apply andb_true_iff; split; apply Z.leb_le; lia).
    eauto.
  - intros Hc. unfold OsuDraw.draw_background. simpl negb. cbv iota.
    rewrite Hc. destruct (hits (beatmap g) !! 0%nat); reflexivity.
Qed.

Lemma draw_background_modulation_witness :
  let g := game_at [marker (-100); circle 1; circle 10; marker 100] 2 5
             (Z.lor OSHU_USERPLAY OSHU_PLAYING) in
  exists modulation, OsuDraw.draw_background true g = Some (Some modulation) /\
    64 <= modulation <= 255.
Proof.
  cbv zeta.
  apply (proj1 (draw_background_modulation
    (game_at [marker (-100); circle 1; circle 10; marker 100] 2 5
       (Z.lor OSHU_USERPLAY OSHU_PLAYING)))).
  simpl. lia.
Defined.

(** X12. The brightness of the background is between 0 and 1 and never
    jumps: between two instants it changes by at most the time between
    them.  It is 0 until one second into the break and from one second
    before its end, and 1 from two seconds into a break of more than five
    seconds until two seconds before its end. *)
Theorem background_ratio_continuous (break_start break_end x y : Q) :
  let ratio := OsuDraw.background_ratio break_start break_end in
  ((0 <= ratio x)%Q /\ (ratio x <= 1)%Q) /\
  ((x <= y)%Q -> (ratio y - ratio x <= y - x)%Q /\ (ratio x - ratio y <= y - x)%Q) /\
  ((x <= break_start + 1)%Q \/ (break_end - 1 <= x)%Q -> (ratio x == 0)%Q) /\
  ((5 < break_end - break_start)%Q ->
   (break_start + 2 <= x)%Q -> (x <= break_end - 2)%Q -> (ratio x == 1)%Q).
Proof.
  cbv zeta. split; [apply background_ratio_bounds|].
  unfold OsuDraw.background_ratio. split; [|split].
  - intros Hxy. compare_cases; split; lra.
  - intros Hx. compare_cases; destruct Hx; lra.
  - intros Hlong H1 H2. compare_cases; lra.
Qed.

Lemma background_ratio_continuous_witness :
  (OsuDraw.background_ratio 0 10 3 - OsuDraw.background_ratio 0 10 (3 # 2) <= 3 - (3 # 2))%Q /\
  (OsuDraw.background_ratio 0 10 3 == 1)%Q.
Proof.
  split.
  - apply (proj1 (proj2 (background_ratio_continuous 0 10 (3 # 2) 3))). discriminate.
  - apply (proj2 (proj2 (proj2 (background_ratio_continuous 0 10 3 3))));
      [reflexivity | discriminate | discriminate].
Defined.

(** ** The hits on the screen *)




(** * audio/audio.cc *)

(** ** Clipping *)







(** ** Choosing a track for a sound effect *)

Lemma select_track_from_spec :
  forall (rest pre : list Audio.track) (max_cursor : Z) (best_track : nat),
  all_active pre -> furthest pre max_cursor best_track ->
  let r := Audio.select_track_from rest (length pre) max_cursor best_track in
  first_inactive (pre ++ rest) r \/
  (all_active (pre ++ rest) /\ exists m, furthest (pre ++ rest) m r).
Proof.
  induction rest as [|c rest IH]; intros pre max_cursor best_track Hact Hfur; simpl.
  - right. rewrite app_nil_r. split; [exact Hact|]. now exists max_cursor.
  - destruct (Audio.track_sample c) as [s|] eqn:Hs.
    + assert (Hact' : all_active (pre ++ [c])).
      { intros c' Hc'. apply elem_of_app in Hc' as [Hc'|Hc']; [now apply Hact|].
        apply list_elem_of_singleton in Hc' as ->. rewrite Hs. now eexists. }
      assert (Hlen : length (pre ++ [c]) = S (length pre))
        by (rewrite length_app; simpl; lia).
      replace (pre ++ c :: rest) with ((pre ++ [c]) ++ rest)
        by (now rewrite <- app_assoc).
      destruct Hfur as [Hbound Hbest].
      destruct (Audio.track_cursor c >? max_cursor) eqn:Hgt.
      * apply Z.gtb_lt in Hgt. rewrite <- Hlen. apply IH; [exact Hact'|].
        assert (Hpos : 0 < Audio.track_cursor c).
        { destruct Hbest as [[-> _]|[Hpos _]]; lia. }
        split.
        -- intros k c' Hk. apply lookup_app_Some in Hk as [Hk|[Hge Hk]].
           ++ apply Hbound in Hk. lia.
           ++ apply list_lookup_singleton_Some in Hk as [_ ->]. lia.
        -- right. split; [exact Hpos|]. exists c. split; [|split].
           ++ rewrite lookup_app_r by lia. now rewrite Nat.sub_diag.
           ++ reflexivity.
           ++ intros k c' Hk Hc'. rewrite lookup_app_l in Hc' by lia.
              apply Hbound in Hc'. lia.
      * assert (Hle : Audio.track_cursor c <= max_cursor).
        { destruct (Z.gtb_spec (Audio.track_cursor c) max_cursor); [discriminate | lia]. }
        rewrite <- Hlen. apply IH; [exact Hact'|].
        split.
        -- intros k c' Hk. apply lookup_app_Some in Hk as [Hk|[Hge Hk]].
           ++ now apply Hbound in Hk.
           ++ now apply list_lookup_singleton_Some in Hk as [_ ->].
        -- destruct Hbest as [Hzero|(Hpos & cb & Hcb & Hcur & Hbefore)]; [now left|].
           right. split; [exact Hpos|]. exists cb.
           assert (Hlt : (best_track < length pre)%nat) by (now apply lookup_lt_Some in Hcb).
           split; [|split].
           ++ now rewrite lookup_app_l by lia.
           ++ exact Hcur.
           ++ intros k c' Hk Hc'. rewrite lookup_app_l in Hc' by lia.
              now apply (Hbefore k).
    + left. exists c. split; [|split].
      * rewrite lookup_app_r by lia. now rewrite Nat.sub_diag.
      * exact Hs.
      * intros k c' Hk Hc'. rewrite lookup_app_l in Hc' by lia.
        apply Hact. now apply list_elem_of_lookup_2 in Hc'.
Qed.

(** X15. [select_track] over a non-empty array of tracks returns one of
    its tracks: the first that plays nothing, if there is one; otherwise the
    first among the tracks with the largest cursor, and track 0 when no
    cursor is positive. *)
Theorem select_track_spec (effects : list Audio.track) :
  effects <> [] ->
  let r := Audio.select_track effects in
  (r < length effects)%nat /\
  (first_inactive effects r \/
   (all_active effects /\
    ((r = 0%nat /\ forall k c, effects !! k = Some c -> Audio.track_cursor c <= 0) \/
     (exists c, effects !! r = Some c /\ 0 < Audio.track_cursor c /\
        (forall k c', effects !! k = Some c' ->
           Audio.track_cursor c' <= Audio.track_cursor c) /\
        (forall k c', (k < r)%nat -> effects !! k = Some c' ->
           Audio.track_cursor c' < Audio.track_cursor c))))).
Proof.
  intros Hne. cbv zeta. unfold Audio.select_track.
  assert (Hstart : all_active [] /\ furthest [] 0 0).
  { split.
    - intros c Hc. now apply elem_of_nil in Hc.
    - split; [intros k c Hk; now rewrite lookup_nil in Hk | now left]. }
  destruct Hstart as [Hact0 Hfur0].
  pose proof (select_track_from_spec effects [] 0 0 Hact0 Hfur0) as Hspec.
  cbv zeta in Hspec. simpl in Hspec.
  destruct Hspec as [Hfirst|(Hact & m & Hbound & Hbest)].
  - split; [|now left].
    destruct Hfirst as (c & Hc & _). now apply lookup_lt_Some in Hc.
  - destruct Hbest as [[-> Hr]|(Hpos & c & Hc & Hcur & Hbefore)].
    + split; [rewrite Hr; destruct effects; [congruence | simpl; lia]|].
      right. split; [exact Hact|]. left. split; [exact Hr | exact Hbound].
    + split; [now apply lookup_lt_Some in Hc|].
      right. split; [exact Hact|]. right. exists c.
      split; [exact Hc|]. split; [lia|]. split.
      * intros k c' Hk. apply Hbound in Hk. lia.
      * intros k c' Hk Hc'. rewrite Hcur. now apply (Hbefore k).
Qed.

Lemma select_track_spec_witness :
  (Audio.select_track
     [Audio.Track (Some 0%nat) 5; Audio.Track (Some 1%nat) 9;
      Audio.Track (Some 0%nat) 9] < 3)%nat.
Proof.
  apply (select_track_spec
     [Audio.Track (Some 0%nat) 5; Audio.Track (Some 1%nat) 9;
      Audio.Track (Some 0%nat) 9]).
  discriminate.
Defined.

(** * library/beatmaps.cc *)

Section LibraryFacts.

Import Library.

Variable opendir : text -> option (list (option text)).
Variable load_headers : text -> option metadata.

Lemma osu_file_suffix (filename : text) :
  osu_file filename = true <-> exists stem, filename = stem ++ lit ".osu".
Proof.
  unfold osu_file. split.
  - destruct (length filename <? 4)%nat eqn:Hl; [discriminate|].
    apply Nat.ltb_ge in Hl. intros H. apply bool_decide_eq_true in H.
    exists (take (length filename - 4) filename).
    rewrite <- H. symmetry. apply take_drop.
  - intros [stem ->]. rewrite length_app.
    change (length (lit ".osu")) with 4%nat.
    replace (length stem + 4 <? 4)%nat with false by (symmetry; apply Nat.ltb_ge; lia).
    apply bool_decide_eq_true.
    replace (length stem + 4 - 4)%nat with (length stem) by lia.
    now rewrite drop_app_length.
Qed.

Lemma listed_entry_Some (path d_name : text) (entry : beatmap_entry) :
  listed_entry load_headers path d_name = Some entry ->
  hidden d_name = false /\ osu_file d_name = true /\
  exists m, load_headers (path ++ lit "/" ++ d_name) = Some m /\
    entry = Entry (path ++ lit "/" ++ d_name) (title m) (artist m) (version m).
Proof.
  unfold listed_entry. destruct (hidden d_name); [discriminate|].
  destruct (osu_file d_name); [|discriminate]. simpl.
  destruct (load_headers _) as [m|]; [|discriminate].
  intros [= <-]. split; [reflexivity|]. split; [reflexivity|]. now exists m.
Qed.

Lemma listed_entry_cases (path d_name : text) :
  listed_entry load_headers path d_name =
  if hidden d_name then None
  else if negb (osu_file d_name) then None
  else match make_entry load_headers (path ++ lit "/" ++ d_name) with
       | inl entry => Some entry
       | inr _ => None
       end.
Proof.
  unfold listed_entry, make_entry.
  destruct (hidden d_name), (osu_file d_name); simpl; try reflexivity.
  now destruct (load_headers _).
Qed.

Lemma read_entries_clean (path : text) :
  forall (names : list text) (found : list beatmap_entry) (log : list event),
  exists log',
    read_entries load_headers path (Some <$> names) found log
      = Returns (found ++ omap (listed_entry load_headers path) names)
          (log ++ log' ++ [Closedir path]) /\
    Forall warning_event log'.
Proof.
  induction names as [|d_name names IH]; intros found log; simpl.
  - exists []. now rewrite app_nil_r.
  - rewrite (listed_entry_cases path d_name).
    destruct (hidden d_name); [apply IH|].
    destruct (negb (osu_file d_name)); [apply IH|].
    destruct (make_entry load_headers _) as [entry|e].
    + destruct (IH (found ++ [entry]) log) as (log' & Hrun & Hlog').
      exists log'. split; [|exact Hlog'].
      etransitivity; [exact Hrun|]. now rewrite <- app_assoc.
    + destruct (IH found
        (log ++ [Warning (what e); Warning (lit "ignoring invalid beatmap " ++ path)]))
        as (log' & Hrun & Hlog').
      eexists (_ :: _ :: log'). split.
      * etransitivity; [exact Hrun|]. rewrite <- app_assoc. reflexivity.
      * repeat constructor; [now eexists | now eexists | exact Hlog'].
Qed.

Lemma read_entries_error (path : text) :
  forall (names : list text) (rest : list (option text))
    (found : list beatmap_entry) (log : list event),
  exists log',
    read_entries load_headers path ((Some <$> names) ++ None :: rest) found log
      = Throws (system_error (lit "could not read the beatmap set directory " ++ path))
          (log ++ log') /\
    Forall warning_event log'.
Proof.
  induction names as [|d_name names IH]; intros rest found log; simpl.
  - exists []. now rewrite app_nil_r.
  - destruct (hidden d_name); simpl; [apply IH|].
    destruct (osu_file d_name); simpl; [|apply IH].
    destruct (make_entry load_headers _) as [entry|e]; [apply IH|].
    destruct (IH rest found
        (log ++ [Warning (what e); Warning (lit "ignoring invalid beatmap " ++ path)]))
      as (log' & Hrun & Hlog').
    eexists (_ :: _ :: log'). split.
    + etransitivity; [exact Hrun|]. rewrite <- app_assoc. reflexivity.
    + repeat constructor; [now eexists | now eexists | exact Hlog'].
Qed.

Lemma read_entries_throws (path : text) :
  forall (stream : list (option text)) (found : list beatmap_entry)
    (log log' : list event) (e : exception),
  read_entries load_headers path stream found log = Throws e log' ->
  exists message, e = system_error message.
Proof.
  induction stream as [|[d_name|] stream IH]; intros found log log' e; simpl.
  - discriminate.
  - destruct (hidden d_name); [apply IH|].
    destruct (negb (osu_file d_name)); [apply IH|].
    destruct (make_entry load_headers _); apply IH.
  - intros [= <- _]. now eexists.
Qed.

Lemma find_entries_throws (path : text) (e : exception) (log : list event) :
  find_entries opendir load_headers path = Throws e log ->
  exists message, e = system_error message.
Proof.
  unfold find_entries. destruct (opendir path) as [stream|].
  - apply read_entries_throws.
  - intros [= <- _]. now eexists.
Qed.

(** X16. [find_entries] on a directory that cannot be opened throws a
    system error.  On one that is read to its end, it returns, in the order
    of the listing, one entry for each name that does not start with a dot,
    ends in [.osu] and whose beatmap headers load, with the path
    [path/name] and the title, artist and version of the headers; it logs
    nothing but warnings and closes the directory last.  On a read error it
    throws a system error and never closes the directory. *)
Theorem find_entries_spec (path : text) :
  (opendir path = None ->
   find_entries opendir load_headers path
     = Throws (system_error (lit "could not open the beatmap set directory " ++ path)) []) /\
  (forall names, opendir path = Some (Some <$> names) ->
   exists log,
     find_entries opendir load_headers path
       = Returns (omap (listed_entry load_headers path) names) (log ++ [Closedir path]) /\
     Forall warning_event log /\
     forall entry, entry ∈ omap (listed_entry load_headers path) names ->
       exists d_name m, d_name ∈ names /\
         hidden d_name = false /\
         (exists stem, d_name = stem ++ lit ".osu") /\
         load_headers (path ++ lit "/" ++ d_name) = Some m /\
         entry = Entry (path ++ lit "/" ++ d_name) (title m) (artist m) (version m)) /\
  (forall names rest, opendir path = Some ((Some <$> names) ++ None :: rest) ->
   exists log,
     find_entries opendir load_headers path
       = Throws (system_error (lit "could not read the beatmap set directory " ++ path)) log /\
     Forall warning_event log /\
     forall e, e ∈ log -> ~ closedir_event e).
Proof.
  unfold find_entries. split; [|split].
  - now intros ->.
  - intros names ->.
    destruct (read_entries_clean path names [] []) as (log & Hrun & Hlog).
    exists log. split; [exact Hrun|]. split; [exact Hlog|].
    intros entry Hentry. apply list_elem_of_omap in Hentry as (d_name & Hin & Hentry).
    apply listed_entry_Some in Hentry as (Hhidden & Hosu & m & Hm & ->).
    exists d_name, m. split; [exact Hin|]. split; [exact Hhidden|].
    split; [now apply osu_file_suffix|]. now split.
  - intros names rest ->.
    destruct (read_entries_error path names rest [] []) as (log & Hrun & Hlog).
    exists log. split; [exact Hrun|]. split; [exact Hlog|].
    intros e He [p ->].
    rewrite Forall_forall in Hlog. destruct (Hlog _ He) as [message Hm]. discriminate.
Qed.

End LibraryFacts.

Lemma find_entries_spec_witness :
  exists log,
    Library.find_entries Library.songs_opendir Library.songs_load_headers
      (Library.lit "songs/a")
    = Library.Returns
        [Library.Entry (Library.lit "songs/a/easy.osu") (Library.lit "Title")
           (Library.lit "Artist") (Library.lit "Easy")]
        (log ++ [Library.Closedir (Library.lit "songs/a")]).
Proof.
  destruct (proj1 (proj2 (find_entries_spec Library.songs_opendir
              Library.songs_load_headers (Library.lit "songs/a")))
            [Library.lit "easy.osu"; Library.lit ".hard.osu"; Library.lit "song.mp3";
             Library.lit "broken.osu"])
    as (log & Hrun & _).
  - vm_compute. reflexivity.
  - exists log. exact Hrun.
Defined.

Section LibrarySets.

Import Library.

Variable opendir : text -> option (list (option text)).
Variable load_headers : text -> option metadata.

Lemma listed_set_cases (path d_name : text) :
  listed_set opendir load_headers path d_name =
  if hidden d_name then None
  else match make_set opendir load_headers (path ++ lit "/" ++ d_name) with
       | Returns set _ => Some set
       | Throws _ _ => None
       end.
Proof.
  unfold listed_set, make_set. destruct (hidden d_name); [reflexivity|].
  now destruct (find_entries _ _ _) as [[|first found] log|e log].
Qed.

Lemma make_set_throws (path : text) (e : exception) (log : list event) :
  make_set opendir load_headers path = Throws e log ->
  exists message, e = system_error message.
Proof.
  unfold make_set.
  destruct (find_entries opendir load_headers path) as [found log'|e' log'] eqn:Hfind;
    [discriminate|].
  intros [= <- _]. now apply find_entries_throws in Hfind.
Qed.

Lemma read_entries_log (path : text) :
  forall (stream : list (option text)) (found : list beatmap_entry) (log : list event),
  Forall (fun ev => warning_event ev \/ ev = Closedir path) log ->
  Forall (fun ev => warning_event ev \/ ev = Closedir path)
    (log_of (read_entries load_headers path stream found log)).
Proof.
  induction stream as [|[d_name|] stream IH]; intros found log Hlog; simpl.
  - apply Forall_app. split; [exact Hlog|]. constructor; [now right | constructor].
  - destruct (hidden d_name); [now apply IH|].
    destruct (negb (osu_file d_name)); [now apply IH|].
    destruct (make_entry load_headers _) as [entry|e]; [now apply IH|].
    apply IH. apply Forall_app. split; [exact Hlog|].
    constructor; [left; now eexists|]. constructor; [left; now eexists|]. constructor.
  - exact Hlog.
Qed.

Lemma make_set_log (path : text) :
  Forall (fun ev => warning_event ev \/ ev = Closedir path)
    (log_of (make_set opendir load_headers path)).
Proof.
  assert (Hfind : Forall (fun ev => warning_event ev \/ ev = Closedir path)
                    (log_of (find_entries opendir load_headers path))).
  { unfold find_entries. destruct (opendir path) as [stream|].
    - apply read_entries_log. constructor.
    - constructor. }
  unfold make_set. now destruct (find_entries opendir load_headers path).
Qed.

Lemma sub_directory_differs (path d_name : text) : path ++ lit "/" ++ d_name <> path.
Proof.
  intros H. apply (f_equal length) in H. rewrite !length_app in H. simpl in H. lia.
Qed.

Lemma make_set_keeps_open (path d_name : text) :
  Forall (fun ev => ev <> Closedir path)
    (log_of (make_set opendir load_headers (path ++ lit "/" ++ d_name))).
Proof.
  eapply Forall_impl; [apply make_set_log|]. simpl.
  intros ev [[message ->]| ->]; [discriminate|].
  intros [= H]. now apply sub_directory_differs in H.
Qed.

Lemma read_sets_clean (path : text) :
  forall (names : list text) (sets : list beatmap_set) (log : list event),
  exists log',
    read_sets opendir load_headers path (Some <$> names) sets log
      = Returns (sets ++ omap (listed_set opendir load_headers path) names)
          (log ++ log' ++ [Closedir path]).
Proof.
  induction names as [|d_name names IH]; intros sets log; simpl.
  - exists []. now rewrite app_nil_r.
  - rewrite (listed_set_cases path d_name).
    destruct (hidden d_name); [apply IH|].
    destruct (make_set opendir load_headers _) as [set log'|e log'] eqn:Hset.
    + destruct (IH (sets ++ [set]) (log ++ log')) as (log'' & Hrun).
      exists (log' ++ log''). etransitivity; [exact Hrun|].
      now rewrite <- !app_assoc.
    + destruct (make_set_throws _ _ _ Hset) as [message ->].
      destruct (IH sets (log ++ log' ++ [Debug message])) as (log'' & Hrun).
      exists (log' ++ [Debug message] ++ log''). etransitivity; [exact Hrun|].
      now rewrite <- !app_assoc.
Qed.

Lemma read_sets_error (path : text) :
  forall (names : list text) (rest : list (option text))
    (sets : list beatmap_set) (log : list event),
  Forall (fun ev => ev <> Closedir path) log ->
  exists log',
    read_sets opendir load_headers path ((Some <$> names) ++ None :: rest) sets log
      = Throws (system_error (lit "could not read the beatmaps directory")) log' /\
    Forall (fun ev => ev <> Closedir path) log'.
Proof.
  induction names as [|d_name names IH]; intros rest sets log Hlog; simpl.
  - now exists log.
  - destruct (hidden d_name); [now apply IH|].
    pose proof (make_set_keeps_open path d_name) as Hopen.
    destruct (make_set opendir load_headers _) as [set log'|e log'] eqn:Hset;
      simpl in Hopen.
    + apply IH. apply Forall_app. now split.
    + destruct (make_set_throws _ _ _ Hset) as [message ->].
      apply IH. apply Forall_app. split; [exact Hlog|].
      apply Forall_app. split; [exact Hopen|]. now repeat constructor.
Qed.

(** X17. [find_beatmap_sets] on a directory that cannot be opened throws a
    system error.  On one that is read to its end, it returns, in the order
    of the listing, one set for each name that does not start with a dot
    and whose directory [find_entries] reads to its end: the set has the
    entries found there, with the title and the artist of the first one, and
    is there even when it has no entry; a directory that [find_entries]
    fails on gives no set and does not stop the listing.  The directory is
    closed last.  On a read error the function throws a system error and
    never closes the directory. *)
Theorem find_beatmap_sets_spec (path : text) :
  (opendir path = None ->
   find_beatmap_sets opendir load_headers path
     = Throws (system_error (lit "could not open the beatmaps directory")) []) /\
  (forall names, opendir path = Some (Some <$> names) ->
   exists log,
     find_beatmap_sets opendir load_headers path
       = Returns (omap (listed_set opendir load_headers path) names)
           (log ++ [Closedir path]) /\
     (forall d_name found log', d_name ∈ names -> hidden d_name = false ->
        find_entries opendir load_headers (path ++ lit "/" ++ d_name)
          = Returns found log' ->
        exists set, set ∈ omap (listed_set opendir load_headers path) names /\
          entries set = found /\ (empty set = true <-> found = [])) /\
     (forall set, set ∈ omap (listed_set opendir load_headers path) names ->
        exists d_name log', d_name ∈ names /\ hidden d_name = false /\
          find_entries opendir load_headers (path ++ lit "/" ++ d_name)
            = Returns (entries set) log' /\
          forall first, head (entries set) = Some first ->
            set_title set = entry_title first /\ set_artist set = entry_artist first)) /\
  (forall names rest, opendir path = Some ((Some <$> names) ++ None :: rest) ->
   exists log,
     find_beatmap_sets opendir load_headers path
       = Throws (system_error (lit "could not read the beatmaps directory")) log /\
     Closedir path ∉ log).
Proof.
  unfold find_beatmap_sets. split; [|split].
  - now intros ->.
  - intros names ->.
    destruct (read_sets_clean path names [] []) as (log & Hrun).
    exists log. split; [exact Hrun|]. split.
    + intros d_name found log' Hin Hhidden Hfind.
      exists (match found with
              | first :: _ => BeatmapSet found (entry_title first) (entry_artist first)
              | [] => BeatmapSet found [] []
              end).
      split; [|split].
      * apply list_elem_of_omap. exists d_name. split; [exact Hin|].
        unfold listed_set. rewrite Hhidden, Hfind. now destruct found.
      * now destruct found.
      * unfold empty. destruct found; simpl; split; congruence.
    + intros set Hset. apply list_elem_of_omap in Hset as (d_name & Hin & Hset).
      unfold listed_set in Hset.
      destruct (hidden d_name) eqn:Hhidden; [discriminate|].
      destruct (find_entries opendir load_headers _) as [[|first found] log'|e log']
        eqn:Hfind; [| |discriminate]; injection Hset as <-; simpl.
      * exists d_name, log'. split; [exact Hin|]. split; [exact Hhidden|].
        split; [exact Hfind|]. discriminate.
      * exists d_name, log'. split; [exact Hin|]. split; [exact Hhidden|].
        split; [exact Hfind|]. now intros first' [= <-].
  - intros names rest ->.
    destruct (read_sets_error path names rest [] []) as (log & Hrun & Hlog);
      [constructor|].
    exists log. split; [exact Hrun|].
    intros Hin. rewrite Forall_forall in Hlog. now apply (Hlog _ Hin).
Qed.

End LibrarySets.

Lemma find_beatmap_sets_spec_witness :
  exists log,
    Library.find_beatmap_sets Library.songs_opendir Library.songs_load_headers
      (Library.lit "songs")
    = Library.Returns
        [Library.BeatmapSet
           [Library.Entry (Library.lit "songs/a/easy.osu") (Library.lit "Title")
              (Library.lit "Artist") (Library.lit "Easy")]
           (Library.lit "Title") (Library.lit "Artist");
         Library.BeatmapSet [] [] []]
        (log ++ [Library.Closedir (Library.lit "songs")]).
Proof.
  destruct (proj1 (proj2 (find_beatmap_sets_spec Library.songs_opendir
              Library.songs_load_headers (Library.lit "songs")))
            [Library.lit "a"; Library.lit ".git"; Library.lit "b"; Library.lit "readme"])
    as (log & Hrun & _).
  - vm_compute. reflexivity.
  - exists log. exact Hrun.
Defined.

(** * game/osu/draw.c: the trail of the cursor *)

Lemma int_value_Some (z : Z) :
  INT_MIN <= z <= INT_MAX -> OsuDraw.int_value z = Some z.
Proof.
  intros H. unfold OsuDraw.int_value.
  replace ((INT_MIN <=? z) && (z <=? INT_MAX)) with true; [reflexivity|].
  symmetry. apply andb_true_iff. split; apply Z.leb_le; lia.
Qed.

Lemma share_bounds (a b : Z) :
  0 < a <= b -> (0 <= inject_Z a / inject_Z b * 255)%Q /\
                (inject_Z a / inject_Z b * 255 <= 255)%Q.
Proof.
  intros H.
  assert (Ha : (0 < inject_Z a)%Q) by (change 0%Q with (inject_Z 0); rewrite <- Zlt_Qlt; lia).
  assert (Hb : (0 < inject_Z b)%Q) by (change 0%Q with (inject_Z 0); rewrite <- Zlt_Qlt; lia).
  assert (Hab : (inject_Z a <= inject_Z b)%Q) by (rewrite <- Zle_Qle; lia).
  assert (H0 : (0 <= inject_Z a / inject_Z b)%Q).
  { apply Qle_shift_div_l; [exact Hb|]. lra. }
  assert (H1 : (inject_Z a / inject_Z b <= 1)%Q).
  { apply Qle_shift_div_r; [exact Hb|]. lra. }
  split; lra.
Qed.

Lemma trail_lookup (osu : OsuDraw.osu_state) (k : nat) :
  OsuDraw.trailing osu -> (k < length (OsuDraw.mouse_history osu))%nat ->
  OsuDraw.trail osu !! k =
  OsuDraw.mouse_history osu
    !! Z.to_nat ((OsuDraw.mouse_offset osu + 1 + Z.of_nat k)
                 `mod` Z.of_nat (length (OsuDraw.mouse_history osu))).
Proof.
  intros [Hoffset _] Hk. unfold OsuDraw.trail.
  rewrite lookup_rotate_r by exact Hk. unfold rotate_nat_add.
  do 3 f_equal. lia.
Qed.

Lemma length_trail (osu : OsuDraw.osu_state) :
  length (OsuDraw.trail osu) = length (OsuDraw.mouse_history osu).
Proof. apply length_rotate. Qed.

Lemma draw_fireflies_spec (osu : OsuDraw.osu_state) :
  OsuDraw.trailing osu ->
  let fireflies := Z.of_nat (length (OsuDraw.mouse_history osu)) in
  forall (count : nat) (i : Z), 1 <= i -> i + Z.of_nat count = fireflies + 1 ->
  exists drawn, OsuDraw.draw_fireflies osu fireflies i count = Some drawn /\
    length drawn = count /\
    forall (j : nat) f, drawn !! j = Some f ->
      OsuDraw.firefly_ratio f
        = (inject_Z (i + Z.of_nat j + 1) / inject_Z (fireflies + 1))%Q /\
      OsuDraw.firefly_alpha f = Qtrunc (OsuDraw.firefly_ratio f * 255) /\
      0 <= OsuDraw.firefly_alpha f <= 255 /\
      OsuDraw.trail osu !! Z.to_nat (i - 1 + Z.of_nat j)
        = Some (OsuDraw.firefly_position f).
Proof.
  intros Htrailing fireflies. pose proof Htrailing as [Hoffset Hmax].
  fold fireflies in Hoffset, Hmax.
  induction count as [|count IH]; intros i Hi Hcount.
  - exists []. split; [reflexivity|]. split; [reflexivity|].
    intros j f Hf. now rewrite lookup_nil in Hf.
  - cbn [OsuDraw.draw_fireflies].
    rewrite int_value_Some by (unfold INT_MIN, INT_MAX in *; lia). cbn [mbind option_bind].
    destruct (share_bounds (i + 1) (fireflies + 1)) as [Hlo Hhi]; [lia|].
    pose proof (Qtrunc_between _ 0 255 ltac:(lia) Hlo Hhi) as Halpha.
    unfold OsuDraw.double_to_uint8.
    replace ((0 <=? Qtrunc _) && (Qtrunc _ <=? 255)) with true
      by (symmetry; apply andb_true_iff; split; apply Z.leb_le; lia).
    cbn [mbind option_bind].
    rewrite Z.rem_mod_nonneg by lia.
    pose proof (Z.mod_pos_bound (OsuDraw.mouse_offset osu + i) fireflies ltac:(lia)) as Hmod.
    unfold OsuDraw.at_index.
    replace (_ <? 0) with false by (symmetry; apply Z.ltb_ge; lia).
    destruct (lookup_lt_is_Some_2 (OsuDraw.mouse_history osu)
                (Z.to_nat ((OsuDraw.mouse_offset osu + i) `mod` fireflies)))
      as [position Hposition]; [lia|].
    fold fireflies. rewrite Hposition. cbn [mbind option_bind].
    destruct (IH (i + 1)) as (rest & -> & Hlen & Hrest); [lia | lia|].
    cbn [mbind option_bind]. eexists. split; [reflexivity|].
    split; [simpl; now rewrite Hlen|].
    intros [|j] f Hf.
    + injection Hf as <-. cbn [OsuDraw.firefly_ratio OsuDraw.firefly_alpha OsuDraw.firefly_position].
      split; [do 2 f_equal; lia|]. split; [reflexivity|]. split; [lia|].
      rewrite trail_lookup by (try exact Htrailing; lia).
      fold fireflies. rewrite <- Hposition. do 3 f_equal. lia.
    + destruct (Hrest j f Hf) as (Hratio & Halpha' & Hbounds & Hat).
      split; [rewrite Hratio; do 2 f_equal; lia|]. split; [exact Halpha'|].
      split; [exact Hbounds|]. rewrite <- Hat. do 2 f_equal. lia.
Qed.

Lemma draw_cursor_step (mouse : OsuDraw.oshu_point) (osu : OsuDraw.osu_state) :
  OsuDraw.trailing osu ->
  let fireflies := Z.of_nat (length (OsuDraw.mouse_history osu)) in
  exists osu' drawn, OsuDraw.draw_cursor mouse osu = Some (osu', drawn) /\
    OsuDraw.trailing osu' /\
    length (OsuDraw.mouse_history osu') = length (OsuDraw.mouse_history osu) /\
    OsuDraw.trail osu' = drop 1 (OsuDraw.trail osu) ++ [mouse] /\
    length drawn = length (OsuDraw.mouse_history osu) /\
    forall (j : nat) f, drawn !! j = Some f ->
      OsuDraw.firefly_ratio f
        = (inject_Z (Z.of_nat j + 2) / inject_Z (fireflies + 1))%Q /\
      OsuDraw.firefly_alpha f = Qtrunc (OsuDraw.firefly_ratio f * 255) /\
      0 <= OsuDraw.firefly_alpha f <= 255 /\
      OsuDraw.trail osu' !! j = Some (OsuDraw.firefly_position f).
Proof.
  intros Htrailing fireflies. pose proof Htrailing as [Hoffset Hmax].
  fold fireflies in Hoffset, Hmax.
  unfold OsuDraw.draw_cursor. fold fireflies.
  replace (fireflies =? 0) with false by (symmetry; apply Z.eqb_neq; lia).
  rewrite !int_value_Some by (unfold INT_MIN, INT_MAX in *; lia).
  cbn [mbind option_bind].
  rewrite Z.rem_mod_nonneg by lia.
  pose proof (Z.mod_pos_bound (OsuDraw.mouse_offset osu + 1) fireflies ltac:(lia)) as Hmod.
  replace (_ <? 0) with false by (symmetry; apply Z.ltb_ge; lia).
  set (offset := (OsuDraw.mouse_offset osu + 1) `mod` fireflies) in *.
  set (osu1 := OsuDraw.OsuState _ offset).
  assert (Hlen1 : length (OsuDraw.mouse_history osu1) = length (OsuDraw.mouse_history osu))
    by (simpl; apply length_insert).
  assert (Htrailing1 : OsuDraw.trailing osu1).
  { unfold OsuDraw.trailing. rewrite Hlen1. fold fireflies. simpl. lia. }
  pose proof (draw_fireflies_spec osu1 Htrailing1) as Hdrawn. cbv zeta in Hdrawn.
  rewrite Hlen1 in Hdrawn. fold fireflies in Hdrawn.
  destruct (Hdrawn (Z.to_nat fireflies) 1) as (drawn & -> & Hlen & Hat); [lia | lia|].
  cbn [mbind option_bind]. exists osu1, drawn. split; [reflexivity|].
  split; [exact Htrailing1|]. split; [exact Hlen1|]. split; [|split].
  - apply list_eq. intros k.
    destruct (decide (k < length (OsuDraw.mouse_history osu))%nat) as [Hk|Hk].
    + rewrite trail_lookup by (try exact Htrailing1; lia).
      rewrite Hlen1. fold fireflies. cbn [OsuDraw.mouse_history OsuDraw.mouse_offset osu1].
      destruct (decide (S k = length (OsuDraw.mouse_history osu))) as [Hlast|Hmiddle].
      * rewrite lookup_app_r by (rewrite length_drop, length_trail; lia).
        rewrite length_drop, length_trail.
        replace (k - (length (OsuDraw.mouse_history osu) - 1))%nat with 0%nat by lia.
        replace ((offset + 1 + Z.of_nat k) `mod` fireflies) with offset.
        -- rewrite list_lookup_insert_eq by lia. reflexivity.
        -- replace (offset + 1 + Z.of_nat k) with (offset + 1 * fireflies)
             by (unfold fireflies; lia).
           rewrite Z.mod_add by lia. symmetry. apply Z.mod_small. lia.
      * rewrite lookup_app_l by (rewrite length_drop, length_trail; lia).
        rewrite lookup_drop. rewrite trail_lookup by (try exact Htrailing; lia).
        fold fireflies.
        assert (Hsame : (offset + 1 + Z.of_nat k) `mod` fireflies
                        = (OsuDraw.mouse_offset osu + 1 + Z.of_nat (1 + k)) `mod` fireflies).
        { unfold offset. rewrite <- Z.add_assoc, Z.add_mod_idemp_l by lia.
          f_equal. lia. }
        rewrite <- Hsame. apply list_lookup_insert_ne.
        intros Heq. apply (f_equal Z.of_nat) in Heq.
        rewrite !Z2Nat.id in Heq
          by (try apply Z.mod_pos_bound; lia).
        assert (Hshift : (1 + Z.of_nat k) `mod` fireflies = 0).
        { assert (H1 : (offset + (1 + Z.of_nat k)) `mod` fireflies = offset `mod` fireflies).
          { rewrite Z.add_assoc, <- Heq. symmetry. apply Z.mod_small. lia. }
          rewrite <- (Z.mod_small offset fireflies) in H1 at 2 by lia.
          rewrite Z.mod_mod in H1 by lia.
          assert (H2 : ((offset + (1 + Z.of_nat k)) - offset) `mod` fireflies = 0).
          { rewrite Zminus_mod, H1, Z.sub_diag. reflexivity. }
          now replace (offset + (1 + Z.of_nat k) - offset) with (1 + Z.of_nat k) in H2 by lia. }
        rewrite Z.mod_small in Hshift by (unfold fireflies; lia). lia.
    + rewrite !lookup_ge_None_2; [reflexivity | |].
      * rewrite length_app, length_drop, length_trail. simpl. lia.
      * rewrite length_trail, Hlen1. lia.
  - rewrite Hlen. unfold fireflies. lia.
  - intros j f Hf. destruct (Hat j f Hf) as (Hratio & Halpha & Hbounds & Hposition).
    split; [rewrite Hratio; do 2 f_equal; lia|]. split; [exact Halpha|].
    split; [exact Hbounds|]. rewrite <- Hposition. f_equal. lia.
Qed.

Lemma whole_share (a : Z) : 0 < a -> (inject_Z a / inject_Z a == 1)%Q.
Proof.
  intros Ha. field. intros H.
  assert (H0 : (0 < inject_Z a)%Q) by (change 0%Q with (inject_Z 0); rewrite <- Zlt_Qlt; lia).
  lra.
Qed.

(** X18. One call of [draw_cursor] on a history in use: the position of
    the mouse takes the place of the oldest position of the trail, and the
    trail is drawn from the oldest position to the newest, one firefly per
    position, the [j]-th with the ratio [(j + 2) / (fireflies + 1)] and an
    alpha that fits a byte, the last one at the mouse, at full size and
    opaque. *)
Theorem draw_cursor_trail (mouse : OsuDraw.oshu_point) (osu : OsuDraw.osu_state) :
  OsuDraw.trailing osu ->
  let fireflies := Z.of_nat (length (OsuDraw.mouse_history osu)) in
  exists osu' drawn, OsuDraw.draw_cursor mouse osu = Some (osu', drawn) /\
    OsuDraw.trailing osu' /\
    length (OsuDraw.mouse_history osu') = length (OsuDraw.mouse_history osu) /\
    OsuDraw.trail osu' = drop 1 (OsuDraw.trail osu) ++ [mouse] /\
    OsuDraw.firefly_position <$> drawn = OsuDraw.trail osu' /\
    (forall (j : nat) f, drawn !! j = Some f ->
       OsuDraw.firefly_ratio f
         = (inject_Z (Z.of_nat j + 2) / inject_Z (fireflies + 1))%Q /\
       OsuDraw.firefly_alpha f = Qtrunc (OsuDraw.firefly_ratio f * 255) /\
       0 <= OsuDraw.firefly_alpha f <= 255) /\
    (exists f, last drawn = Some f /\ OsuDraw.firefly_position f = mouse /\
       OsuDraw.firefly_alpha f = 255 /\ (OsuDraw.firefly_ratio f == 1)%Q).
Proof.
  intros Htrailing fireflies. pose proof Htrailing as [Hoffset Hmax].
  fold fireflies in Hoffset, Hmax.
  destruct (draw_cursor_step mouse osu Htrailing)
    as (osu' & drawn & Hrun & Htrailing' & Hlen' & Htrail & Hlen & Hat).
  fold fireflies in Hat.
  exists osu', drawn. split; [exact Hrun|]. split; [exact Htrailing'|].
  split; [exact Hlen'|]. split; [exact Htrail|]. split; [|split].
  - apply list_eq. intros j. rewrite list_lookup_fmap.
    destruct (drawn !! j) as [f|] eqn:Hf; simpl.
    + symmetry. now apply (Hat j f).
    + symmetry. apply lookup_ge_None_2. rewrite length_trail, Hlen', <- Hlen.
      now apply lookup_ge_None_1.
  - intros j f Hf. destruct (Hat j f Hf) as (Hratio & Halpha & Hbounds & _). auto.
  - destruct (lookup_lt_is_Some_2 drawn (length drawn - 1)) as [f Hf];
      [rewrite Hlen; unfold fireflies in Hoffset; lia|].
    exists f. rewrite last_lookup.
    replace (Nat.pred (length drawn)) with (length drawn - 1)%nat by lia.
    split; [exact Hf|].
    destruct (Hat _ f Hf) as (Hratio & Halpha & _ & Hposition).
    assert (Hone : (OsuDraw.firefly_ratio f == 1)%Q).
    { rewrite Hratio.
      replace (Z.of_nat (length drawn - 1) + 2) with (fireflies + 1)
        by (rewrite Hlen; unfold fireflies in *; lia).
      apply whole_share. lia. }
    split; [|split; [|exact Hone]].
    + rewrite Htrail in Hposition.
      rewrite lookup_app_r in Hposition by (rewrite length_drop, length_trail; lia).
      rewrite length_drop, length_trail, Hlen in Hposition.
      replace (length (OsuDraw.mouse_history osu) - 1
               - (length (OsuDraw.mouse_history osu) - 1))%nat with 0%nat
        in Hposition by lia.
      now injection Hposition.
    + rewrite Halpha. apply Qtrunc_unique.
      * rewrite Hone. lra.
      * rewrite Hone. change (inject_Z 255) with 255%Q. lra.
      * rewrite Hone. change (inject_Z 255) with 255%Q. lra.
Qed.

Lemma draw_cursor_trail_witness :
  exists osu' drawn,
    OsuDraw.draw_cursor (7, 9)%Q (OsuDraw.OsuState [(1, 1); (2, 2); (3, 3)]%Q 2)
      = Some (osu', drawn) /\
    OsuDraw.trail osu' = [(2, 2); (3, 3); (7, 9)]%Q.
Proof.
  destruct (draw_cursor_trail (7, 9)%Q (OsuDraw.OsuState [(1, 1); (2, 2); (3, 3)]%Q 2))
    as (osu' & drawn & Hrun & _ & _ & Htrail & _).
  - split; [simpl; lia | unfold INT_MAX; simpl; lia].
  - exists osu', drawn. split; [exact Hrun|]. rewrite Htrail. reflexivity.
Defined.

Lemma draw_cursor_frames_step :
  forall (mice : list OsuDraw.oshu_point) (osu : OsuDraw.osu_state),
  OsuDraw.trailing osu ->
  exists osu', OsuDraw.draw_cursor_frames mice osu = Some osu' /\
    OsuDraw.trailing osu' /\
    length (OsuDraw.mouse_history osu') = length (OsuDraw.mouse_history osu) /\
    OsuDraw.trail osu' = drop (length mice) (OsuDraw.trail osu ++ mice).
Proof.
  induction mice as [|mouse mice IH]; intros osu Htrailing.
  - exists osu. split; [reflexivity|]. split; [exact Htrailing|].
    split; [reflexivity|]. simpl. now rewrite drop_0, app_nil_r.
  - destruct (draw_cursor_step mouse osu Htrailing)
      as (osu1 & drawn & Hrun & Htrailing1 & Hlen1 & Htrail1 & _).
    destruct (IH osu1 Htrailing1) as (osu' & Hframes & Htrailing' & Hlen' & Htrail').
    exists osu'. cbn [OsuDraw.draw_cursor_frames]. rewrite Hrun. cbn [mbind option_bind fst].
    split; [exact Hframes|]. split; [exact Htrailing'|].
    split; [now rewrite Hlen', Hlen1|].
    rewrite Htrail', Htrail1, <- app_assoc.
    destruct (OsuDraw.trail osu) as [|oldest others] eqn:Htrail.
    + exfalso. apply (f_equal length) in Htrail. rewrite length_trail in Htrail.
      destruct Htrailing as [Hoffset _]. simpl in Htrail. lia.
    + reflexivity.
Qed.

(** X19. After as many frames as the history has cells, or more, the
    trail is made of the last positions of the mouse, in the order they
    came; before that, the oldest positions of the trail leave it one per
    frame. *)
Theorem draw_cursor_frames_trail (mice : list OsuDraw.oshu_point)
    (osu : OsuDraw.osu_state) :
  OsuDraw.trailing osu ->
  let fireflies := length (OsuDraw.mouse_history osu) in
  exists osu', OsuDraw.draw_cursor_frames mice osu = Some osu' /\
    OsuDraw.trailing osu' /\
    length (OsuDraw.trail osu') = fireflies /\
    OsuDraw.trail osu' = drop (length mice) (OsuDraw.trail osu ++ mice) /\
    ((fireflies <= length mice)%nat ->
     OsuDraw.trail osu' = drop (length mice - fireflies) mice) /\
    ((length mice <= fireflies)%nat ->
     OsuDraw.trail osu' = drop (length mice) (OsuDraw.trail osu) ++ mice).
Proof.
  intros Htrailing fireflies.
  destruct (draw_cursor_frames_step mice osu Htrailing)
    as (osu' & Hframes & Htrailing' & Hlen' & Htrail').
  exists osu'. split; [exact Hframes|]. split; [exact Htrailing'|].
  split; [now rewrite length_trail|]. split; [exact Htrail'|]. split.
  - intros Hmany. rewrite Htrail'.
    rewrite drop_app_ge by (rewrite length_trail; exact Hmany).
    now rewrite length_trail.
  - intros Hfew. rewrite Htrail'.
    rewrite drop_app_le by (rewrite length_trail; exact Hfew). reflexivity.
Qed.

Lemma draw_cursor_frames_trail_witness :
  exists osu',
    OsuDraw.draw_cursor_frames [(4, 4); (5, 5); (6, 6); (7, 7)]%Q
      (OsuDraw.OsuState [(1, 1); (2, 2); (3, 3)]%Q 0) = Some osu' /\
    OsuDraw.trail osu' = [(5, 5); (6, 6); (7, 7)]%Q.
Proof.
  destruct (draw_cursor_frames_trail [(4, 4); (5, 5); (6, 6); (7, 7)]%Q
              (OsuDraw.OsuState [(1, 1); (2, 2); (3, 3)]%Q 0))
    as (osu' & Hframes & _ & _ & _ & Hmany & _).
  - split; [simpl; lia | unfold INT_MAX; simpl; lia].
  - exists osu'. split; [exact Hframes|]. rewrite Hmany by (simpl; lia). reflexivity.
Defined.
